(** * dnsseeder: the crawler ("creep") and the start-up sequence

    A shallow embedding of [dnsseed.go]: the start-up sequence of [main], the
    main loop of [creep], the crawl worker goroutine and the two message
    listeners, over a model of the address manager.

    Conventions.
    - Instants and durations are numbers of nanoseconds ([Z]), as in Go's
      [time] package; the instant [0] is "never", as Go's zero [time.Time]
      is for the manager's time stamps.
    - An IP is the number its 16 bytes spell (big endian), an IPv4 address
      being stored v4-mapped ([::ffff:a.b.c.d]).
    - [uint16] conversions are written out as a remainder modulo [2^16]. *)

From stdpp Require Import gmap strings list.
From Stdlib Require Import ZArith Lia.

Set Warnings "-clear-no-such-hyp".

Open Scope Z_scope.

(** ** Wire-level data *)

Module Wire.

(** [wire.SFNodeNetwork], the first service flag. *)
Definition SFNodeNetwork : Z := 1.

(** [wire.NetAddress] without its time stamp. *)
Record NetAddress := mkNetAddress {
  IP : N;
  Port : Z;
  Services : Z
}.

(** The v4-mapped IP [::ffff:a.b.c.d]. *)
Definition IPv4 (a b c d : N) : N :=
  (65535 * 2 ^ 32 + a * 2 ^ 24 + b * 2 ^ 16 + c * 2 ^ 8 + d)%N.

(** [uint16(x)] for a Go [int] [x]. *)
Definition uint16 (x : Z) : Z := x mod 65536.

(** [wire.NewNetAddressIPPort]. *)
Definition NewNetAddressIPPort (ip : N) (port : Z) (services : Z) : NetAddress :=
  mkNetAddress ip port services.

(** [subnetworkid.SubnetworkID]: a 20-byte tag, or the sentinel
    [SubnetworkIDSupportsAll]. *)
Inductive SubnetworkID :=
| SubnetworkIDSupportsAll
| SubnetworkTag (tag : N).

#[global] Instance NetAddress_eq_dec : EqDecision NetAddress.
Proof. solve_decision. Defined.

#[global] Instance SubnetworkID_eq_dec : EqDecision SubnetworkID.
Proof. solve_decision. Defined.

End Wire.

Import Wire.

(** [time.Second]. *)
Definition Second : Z := 1000000000.

(** The constants of dnsseed.go (lines 24-32). *)
Definition nodeTimeout : Z := Second * 3.
Definition requiredServices : Z := SFNodeNetwork.

(** ** The address manager *)

Module Manager.

(** Modelled from the spec: the address entry of the manager (manager.go is
    not among the sources).  Section 3 lists the attributes; [services] is
    "set on first successful version exchange; zero if never succeeded",
    [subnetworkID] is "set on successful version exchange". *)
Record Entry := mkEntry {
  port : Z;
  services : Z;
  subnetworkID : option SubnetworkID;
  firstSeen : Z;
  lastAttempt : Z;
  lastSuccess : Z
}.

#[global] Instance Entry_eq_dec : EqDecision Entry.
Proof. solve_decision. Defined.

(** The store: a mapping from IP to entry, unique by IP. *)
Abbreviation t := (gmap N Entry).

(** Hard cap of the store; minimum re-attempt interval per address. *)
Definition maxEntries : N := 50000.
Definition retryInterval : Z := 60 * Second.

Definition v4mapped (ip : N) : bool := (ip / 2 ^ 32 =? 65535)%N.
Definition v4part (ip : N) : N := (ip mod 2 ^ 32)%N.

(** Modelled from the spec: the filter of [AddAddresses] (section 4.1):
    "Addresses with invalid IPs, unspecified/loopback/multicast/broadcast
    ranges, or non-routable port 0 are filtered out." *)
Definition unspecified (ip : N) : bool :=
  (ip =? 0)%N || (v4mapped ip && (v4part ip =? 0)%N).
Definition loopback (ip : N) : bool :=
  (ip =? 1)%N || (v4mapped ip && (v4part ip / 2 ^ 24 =? 127)%N).
Definition multicast (ip : N) : bool :=
  (ip / 2 ^ 120 =? 255)%N || (v4mapped ip && (v4part ip / 2 ^ 28 =? 14)%N).
Definition broadcast (ip : N) : bool :=
  v4mapped ip && (v4part ip =? 2 ^ 32 - 1)%N.
Definition validIP (ip : N) : bool := (ip <? 2 ^ 128)%N.

Definition acceptable (a : NetAddress) : bool :=
  validIP (IP a) && negb (unspecified (IP a)) && negb (loopback (IP a))
  && negb (multicast (IP a)) && negb (broadcast (IP a))
  && negb (Port a =? 0).

(** A freshly inserted entry: only [firstSeen] is set. *)
Definition newEntry (now : Z) (a : NetAddress) : Entry :=
  mkEntry (Port a) 0 None now 0 0.

Definition addOne (now : Z) (acc : nat * t) (a : NetAddress) : nat * t :=
  let '(count, m) := acc in
  if acceptable a then
    match m !! IP a with
    | Some _ => acc
    | None =>
        if (N.of_nat (size m) <? maxEntries)%N
        then (S count, <[IP a := newEntry now a]> m)
        else acc
    end
  else acc.

(** Modelled from the spec: [Manager.AddAddresses] (section 4.1): "insert
    each address whose IP is not already present; ignore duplicates and
    those that would exceed the cap; return count of genuinely new
    inserts. [...] Sets firstSeen = now." *)
Definition AddAddresses (now : Z) (addrs : list NetAddress) (m : t) : nat * t :=
  foldl (addOne now) (0%nat, m) addrs.

(** Modelled from the spec: [Manager.Attempt] (section 4.1): "set
    lastAttempt = now for the matching entry if present; no-op
    otherwise." *)
Definition Attempt (now : Z) (ip : N) (m : t) : t :=
  match m !! ip with
  | Some e =>
      <[ip := mkEntry (port e) (services e) (subnetworkID e)
                      (firstSeen e) now (lastSuccess e)]> m
  | None => m
  end.

(** Modelled from the spec: [Manager.Good] (section 4.1): "set lastSuccess
    = now, lastAttempt = now, record services and subnetworkID.  Creates
    the entry if it did not exist (with firstSeen = now)."  The spec gives
    no port for an entry created here; it is entered as 0. *)
Definition Good (now : Z) (ip : N) (srv : Z) (sid : SubnetworkID) (m : t) : t :=
  match m !! ip with
  | Some e => <[ip := mkEntry (port e) srv (Some sid) (firstSeen e) now now]> m
  | None => <[ip := mkEntry 0 srv (Some sid) now now now]> m
  end.

(** Eligibility for crawling (section 4.1): "now - lastAttempt >= 60
    seconds (or never attempted)". *)
Definition eligible (now : Z) (e : Entry) : bool :=
  (lastAttempt e =? 0) || (retryInterval <=? now - lastAttempt e).

Definition toAddr (kv : N * Entry) : NetAddress :=
  mkNetAddress kv.1 (port kv.2) (services kv.2).

(** Modelled from the spec: [Manager.Addresses].  Section 4.1 gives the
    eligibility rule; section 9 records what the source does about
    in-flight addresses: "the source's Addresses() returns a snapshot
    without marking entries in-flight; two rapid calls could hand the same
    IP to two workers."  The snapshot is what is modelled: the call reads
    the store and leaves it as it is.  The order of the result is the
    store's enumeration order; the claims speak of the result as a set. *)
Definition Addresses (now : Z) (m : t) : list NetAddress :=
  toAddr <$> filter (λ kv, eligible now kv.2 = true) (map_to_list m).

(** Modelled from the spec: [Manager.AddressCount] (section 4.1): "total
    entries". *)
Definition AddressCount (m : t) : nat := size m.

End Manager.

(** ** Results, events *)

(** A Go pair [(value, err)] with [err != nil] exactly in the second case. *)
Inductive result (A : Type) :=
| Ok (a : A)
| Err (e : string).
Arguments Ok {A} a.
Arguments Err {A} e.


(** A call on the address manager, as the program issues it. *)
Inductive StoreCall :=
| CallAddAddresses (addrs : list NetAddress)
| CallAttempt (ip : N)
| CallGood (ip : N) (srv : Z) (sid : SubnetworkID).

#[global] Instance StoreCall_eq_dec : EqDecision StoreCall.
Proof. solve_decision. Defined.

(** The effect of a call at time [now]. *)
Definition applyCall (now : Z) (c : StoreCall) (m : Manager.t) : Manager.t :=
  match c with
  | CallAddAddresses addrs => (Manager.AddAddresses now addrs m).2
  | CallAttempt ip => Manager.Attempt now ip m
  | CallGood ip srv sid => Manager.Good now ip srv sid m
  end.

Definition newline : string := String (Ascii.ascii_of_nat 10) EmptyString.

(** ** Start-up: [main] up to the spawning of the crawler *)

Module Main.

(** The fields of the configuration that [main] reads. *)
Record Config := mkConfig {
  Seeder : string;
  Host : string;
  Nameserver : string;
  Listen : string
}.

(** What the start-up sequence gets from outside: the results of
    [loadConfig] and [NewManager] (neither is among the sources), the network
    parameter [activeNetParams.DefaultPort], the Go library functions
    [strconv.Atoi], [net.ParseIP] and [net.LookupHost], and the clock. *)
Record Env := mkEnv {
  loadConfig : result Config;
  NewManager : result Manager.t;
  DefaultPort : string;
  Atoi : string → result Z;
  ParseIP : string → option N;
  LookupHost : string → result (list string);
  now : Z
}.

(** How the start-up ends: [os.Exit] with what was written to stderr, a
    run-time panic, or the seeder up and running with its manager, the parsed
    default port, the log lines and the calls made on the manager. *)
Inductive Outcome :=
| Exit (code : Z) (stderr : list string)
| Panic (log : list string)
| Running (amgr : Manager.t) (peersDefaultPort : Z) (log : list string)
          (calls : list StoreCall).

Definition msgLoadConfig (e : string) : string :=
  "loadConfig: " +:+ e +:+ newline.
Definition msgNewManager (e : string) : string :=
  "NewManager: " +:+ e +:+ newline.
Definition msgDefaultPort (p e : string) : string :=
  "Invalid peers default port " +:+ p +:+ ": " +:+ e +:+ newline.
Definition msgResolveErr (seeder e : string) : string :=
  "Failed to resolve seed host: " +:+ seeder +:+ ", " +:+ e +:+ ", ignoring".
Definition msgResolveNil (seeder : string) : string :=
  "Failed to resolve seed host: " +:+ seeder +:+ ", ignoring".

(** Lines 176-187: the IP of the [--seeder] value and the lines logged on the
    way; [None] is the index-out-of-range panic of [hostAddrs[0]] on an empty
    slice. *)
Definition seederIP (env : Env) (seeder : string) : option (option N * list string) :=
  match ParseIP env seeder with
  | Some ip => Some (Some ip, [])
  | None =>
      match LookupHost env seeder with
      | Err e => Some (None, [msgResolveErr seeder e])
      | Ok hostAddrs =>
          match hostAddrs with
          | [] => None
          | first :: _ =>
              match ParseIP env first with
              | Some ip => Some (Some ip, [])
              | None => Some (None, [msgResolveNil seeder])
              end
          end
      end
  end.

(** Lines 188-192: the one call that injects the seed address. *)
Definition inject (peersDefaultPort : Z) (ip : option N) : list StoreCall :=
  match ip with
  | Some ip =>
      [CallAddAddresses
         [NewNetAddressIPPort ip (uint16 peersDefaultPort) requiredServices]]
  | None => []
  end.

Definition runCalls (now : Z) (calls : list StoreCall) (m : Manager.t) : Manager.t :=
  foldl (λ m c, applyCall now c m) m calls.

(** Lines 158-193 of [main]. *)
Definition main (env : Env) : Outcome :=
  match loadConfig env with
  | Err e => Exit 1 [msgLoadConfig e]
  | Ok cfg =>
      match NewManager env with
      | Err e => Exit 1 [msgNewManager e]
      | Ok amgr =>
          match Atoi env (DefaultPort env) with
          | Err e => Exit 1 [msgDefaultPort (DefaultPort env) e]
          | Ok peersDefaultPort =>
              if (String.length (Seeder cfg) =? 0)%nat
              then Running amgr peersDefaultPort [] []
              else
                match seederIP env (Seeder cfg) with
                | None => Panic []
                | Some (ip, log) =>
                    let calls := inject peersDefaultPort ip in
                    Running (runCalls (now env) calls amgr) peersDefaultPort
                            log calls
                end
          end
      end
  end.

End Main.

(** ** The crawler: [creep] *)

Module Creep.

(** Where a worker goroutine (lines 114-151) stands. *)
Inductive WorkerPC :=
| AtNewPeer                    (* line 118, before [peer.NewOutboundPeer] *)
| AtAttempt                    (* line 124, before [amgr.Attempt] *)
| AtDial                       (* line 125, before [net.DialTimeout] *)
| AtAssociate                  (* line 130, before [p.AssociateConnection] *)
| WaitVersion (deadline : Z)   (* lines 133-140, in the first [select] *)
| WaitAddr (deadline : Z)      (* lines 142-149, in the second [select] *)
| Done.                        (* returned; [wgCreep.Done] has run *)

(** Where the goroutine of a worker's peer stands: not started, reading
    messages (with the version seen or not), or inside a listener at its
    channel send (line 78 of [OnVersion], line 68 of [OnAddr]). *)
Inductive PeerPC :=
| NoConn
| Reading (versionSeen : bool)
| SendVersion
| SendAddr.

Record Worker := mkWorker {
  addr : NetAddress;
  pc : WorkerPC;
  peer : PeerPC;
  disconnected : bool
}.

(** Where the main loop of [creep] (lines 85-154) stands. *)
Inductive LoopPC :=
| Top                                 (* line 86 *)
| Spawning (pending : list NetAddress) (* lines 106-153 *)
| WaitingShutdown                     (* line 109 *)
| Returned.

Inductive LogLine :=
| LogNewPeerErr (w : nat)
| LogDialErr (w : nat)
| LogVersionTimeout (w : nat)
| LogGetaddrTimeout (w : nat)
| LogAddingPeer (w : nat)
| LogPeerSent (w : nat) (received added : nat)
| LogNoStale
| LogWaitingThreads
| LogCreepShutdown.

(** Who issues a call on the manager: the main loop, the goroutine of worker
    [w], or a listener run by the peer of worker [w]. *)
Inductive Caller :=
| ByLoop
| ByWorker (w : nat)
| ByListener (w : nat).

Inductive Event :=
| EvLog (line : LogLine)
| EvCall (who : Caller) (c : StoreCall)
| EvSeedFromDNS
| EvDial (w : nat) (ok : bool)
| EvAssociate (w : nat)
| EvQueueGetAddr (w : nat)
| EvSignalVersion (sender receiver : nat)
| EvSignalAddr (sender receiver : nat)
| EvDisconnect (w : nat).

#[global] Instance Caller_eq_dec : EqDecision Caller.
Proof. solve_decision. Defined.
#[global] Instance LogLine_eq_dec : EqDecision LogLine.
Proof. solve_decision. Defined.
#[global] Instance Event_eq_dec : EqDecision Event.
Proof. solve_decision. Defined.

(** The state of [creep]: the clock, the manager [amgr], the main loop, every
    worker started so far with its peer, and what happened so far, oldest
    first.  The channels [onVersion] and [onAddr] are made once (lines 55-56)
    and are unbuffered: they hold nothing, a send is a listener standing at
    [SendVersion] or [SendAddr], and it completes with a receive by whichever
    worker stands in the matching [select]. *)
Record State := mkState {
  now : Z;
  amgr : Manager.t;
  loop : LoopPC;
  workers : list Worker;
  trace : list Event
}.

(** What moves [creep] on.  [LIter seeds] is one pass of lines 86-104, where
    [seeds] are the address lists [connmgr.SeedFromDNS] hands to its callback
    should it be called; the other main-loop steps are the spawning of the
    next worker and the return of a [wgCreep.Wait].  [LTick] lets time pass.
    The rest are the steps of worker [w], those of its peer ([LVersion],
    [LAddr]: a message of the remote node reaches the listener), and the
    channel receives, from the listener of [sender]'s peer. *)
Inductive Label :=
| LTick (dt : Z)
| LIter (seeds : list (list NetAddress))
| LSpawn
| LJoin
| LNewPeer (w : nat) (ok : bool)
| LAttempt (w : nat)
| LDial (w : nat) (ok : bool)
| LAssociate (w : nat)
| LVersion (w : nat) (srv : Z) (sid : SubnetworkID)
| LRecvVersion (sender w : nat)
| LVersionTimeout (w : nat)
| LAddr (w : nat) (addrs : list NetAddress)
| LRecvAddr (sender w : nat)
| LAddrTimeout (w : nat).

(** [atomic.LoadInt32(&systemShutdown) != 0] at instant [t], [main] storing
    1 at instant [shutdownAt] (never, if [None]). *)
Definition shutdownSet (shutdownAt : option Z) (t : Z) : bool :=
  match shutdownAt with
  | Some s => s <=? t
  | None => false
  end.

(** Lines 96-102 with [n] rounds of the [for] left, entered at instant [t]:
    the instant the loop is left at, and whether by [return]. *)
Fixpoint idleLoop (shutdownAt : option Z) (n : nat) (t : Z) : Z * bool :=
  match n with
  | O => (t, false)
  | S n' =>
      let t' := t + Second in
      if shutdownSet shutdownAt t' then (t', true)
      else idleLoop shutdownAt n' t'
  end.

Definition idleSleep (shutdownAt : option Z) (t : Z) : Z * bool :=
  idleLoop shutdownAt 600 t.

Definition isDone (w : Worker) : bool :=
  match pc w with Done => true | _ => false end.

(** A [select] with [time.After(nodeTimeout)] does not wait past its
    deadline. *)
Definition withinDeadline (t : Z) (w : Worker) : bool :=
  match pc w with
  | WaitVersion d | WaitAddr d => t <=? d
  | _ => true
  end.

Definition setPC (x : WorkerPC) (w : Worker) : Worker :=
  mkWorker (addr w) x (peer w) (disconnected w).
Definition setPeer (x : PeerPC) (w : Worker) : Worker :=
  mkWorker (addr w) (pc w) x (disconnected w).
(** [p.Disconnect()] followed by the worker's return. *)
Definition finish (disc : bool) (w : Worker) : Worker :=
  mkWorker (addr w) Done (peer w) (disconnected w || disc).

(** The callback of [SeedFromDNS] (line 90), once per address list. *)
Definition seedAll (t : Z) (seeds : list (list NetAddress)) (m : Manager.t) : Manager.t :=
  foldl (λ m addrs, (Manager.AddAddresses t addrs m).2) m seeds.

(** Lines 86-93: the candidates, after a bootstrap if there are none and the
    manager is empty. *)
Definition candidates (t : Z) (seeds : list (list NetAddress)) (m : Manager.t)
  : Manager.t * list NetAddress * list Event :=
  let peers := Manager.Addresses t m in
  if (length peers =? 0)%nat && (Manager.AddressCount m =? 0)%nat then
    let m' := seedAll t seeds m in
    (m', Manager.Addresses t m',
     EvSeedFromDNS :: ((λ addrs, EvCall ByLoop (CallAddAddresses addrs)) <$> seeds))
  else (m, peers, []).

(** Lines 86-104: one pass of the main loop up to the spawning. *)
Definition iterate (shutdownAt : option Z) (seeds : list (list NetAddress))
  (st : State) : State :=
  let '(m, peers, evs) := candidates (now st) seeds (amgr st) in
  if (length peers =? 0)%nat then
    let '(t, stop) := idleSleep shutdownAt (now st) in
    mkState t m (if stop then Returned else Top) (workers st)
      (trace st ++ evs ++ EvLog LogNoStale ::
         (if stop then [EvLog LogCreepShutdown] else []))
  else mkState (now st) m (Spawning peers) (workers st) (trace st ++ evs).

Definition withWorker (st : State) (w : nat) (x : Worker) (m : Manager.t)
  (evs : list Event) : State :=
  mkState (now st) m (loop st) (<[w := x]> (workers st)) (trace st ++ evs).

(** One step of a worker goroutine, lines 117-150. *)
Definition execWorker (l : Label) (st : State) : option State :=
  match l with
  | LNewPeer w ok =>
      x ← workers st !! w;
      match pc x with
      | AtNewPeer =>
          if ok then Some (withWorker st w (setPC AtAttempt x) (amgr st) [])
          else Some (withWorker st w (finish false x) (amgr st)
                       [EvLog (LogNewPeerErr w)])
      | _ => None
      end
  | LAttempt w =>
      x ← workers st !! w;
      match pc x with
      | AtAttempt =>
          Some (withWorker st w (setPC AtDial x)
                  (Manager.Attempt (now st) (IP (addr x)) (amgr st))
                  [EvCall (ByWorker w) (CallAttempt (IP (addr x)))])
      | _ => None
      end
  | LDial w ok =>
      x ← workers st !! w;
      match pc x with
      | AtDial =>
          if ok then Some (withWorker st w (setPC AtAssociate x) (amgr st)
                             [EvDial w true])
          else Some (withWorker st w (finish false x) (amgr st)
                       [EvDial w false; EvLog (LogDialErr w)])
      | _ => None
      end
  | LAssociate w =>
      x ← workers st !! w;
      match pc x with
      | AtAssociate =>
          Some (withWorker st w
                  (setPeer (Reading false)
                     (setPC (WaitVersion (now st + nodeTimeout)) x))
                  (amgr st) [EvAssociate w])
      | _ => None
      end
  | LRecvVersion sender w =>
      s ← workers st !! sender;
      x ← workers st !! w;
      match peer s, pc x with
      | SendVersion, WaitVersion _ =>
          let st' := withWorker st sender (setPeer (Reading true) s) (amgr st)
                       [EvSignalVersion sender w] in
          x' ← workers st' !! w;
          Some (withWorker st' w (setPC (WaitAddr (now st + nodeTimeout)) x')
                  (amgr st) [])
      | _, _ => None
      end
  | LVersionTimeout w =>
      x ← workers st !! w;
      match pc x with
      | WaitVersion d =>
          if d <=? now st then
            Some (withWorker st w (finish true x) (amgr st)
                    [EvLog (LogVersionTimeout w); EvDisconnect w])
          else None
      | _ => None
      end
  | LRecvAddr sender w =>
      s ← workers st !! sender;
      x ← workers st !! w;
      match peer s, pc x with
      | SendAddr, WaitAddr _ =>
          let st' := withWorker st sender (setPeer (Reading true) s) (amgr st)
                       [EvSignalAddr sender w] in
          x' ← workers st' !! w;
          Some (withWorker st' w (finish true x') (amgr st) [EvDisconnect w])
      | _, _ => None
      end
  | LAddrTimeout w =>
      x ← workers st !! w;
      match pc x with
      | WaitAddr d =>
          if d <=? now st then
            Some (withWorker st w (finish true x) (amgr st)
                    [EvLog (LogGetaddrTimeout w); EvDisconnect w])
          else None
      | _ => None
      end
  | _ => None
  end.

(** The listeners (lines 64-79), run by the peer of worker [w] on a message
    of the remote node, up to their channel send. *)
Definition execListener (l : Label) (st : State) : option State :=
  match l with
  | LVersion w srv sid =>
      x ← workers st !! w;
      match peer x, disconnected x with
      | Reading false, false =>
          Some (withWorker st w (setPeer SendVersion x)
                  (Manager.Good (now st) (IP (addr x)) srv sid (amgr st))
                  [EvLog (LogAddingPeer w);
                   EvCall (ByListener w) (CallGood (IP (addr x)) srv sid);
                   EvQueueGetAddr w])
      | _, _ => None
      end
  | LAddr w addrs =>
      x ← workers st !! w;
      match peer x, disconnected x with
      | Reading true, false =>
          let r := Manager.AddAddresses (now st) addrs (amgr st) in
          Some (withWorker st w (setPeer SendAddr x) r.2
                  [EvCall (ByListener w) (CallAddAddresses addrs);
                   EvLog (LogPeerSent w (length addrs) r.1)])
      | _, _ => None
      end
  | _ => None
  end.

(** One step of [creep]. *)
Definition exec (shutdownAt : option Z) (l : Label) (st : State) : option State :=
  match l with
  | LTick dt =>
      if (0 <=? dt) && forallb (withinDeadline (now st + dt)) (workers st)
      then Some (mkState (now st + dt) (amgr st) (loop st) (workers st) (trace st))
      else None
  | LIter seeds =>
      match loop st with
      | Top => Some (iterate shutdownAt seeds st)
      | _ => None
      end
  | LSpawn =>
      match loop st with
      | Spawning (a :: rest) =>
          if shutdownSet shutdownAt (now st) then
            Some (mkState (now st) (amgr st) WaitingShutdown (workers st)
                    (trace st ++ [EvLog LogWaitingThreads]))
          else
            Some (mkState (now st) (amgr st) (Spawning rest)
                    (workers st ++ [mkWorker a AtNewPeer NoConn false])
                    (trace st))
      | _ => None
      end
  | LJoin =>
      if forallb isDone (workers st) then
        match loop st with
        | Spawning [] =>
            Some (mkState (now st) (amgr st) Top (workers st) (trace st))
        | WaitingShutdown =>
            Some (mkState (now st) (amgr st) Returned (workers st)
                    (trace st ++ [EvLog LogCreepShutdown]))
        | _ => None
        end
      else None
  | LVersion _ _ _ | LAddr _ _ => execListener l st
  | _ => execWorker l st
  end.

(** A run: the steps of a schedule, one after the other. *)
Fixpoint run (shutdownAt : option Z) (sched : list Label) (st : State) : option State :=
  match sched with
  | [] => Some st
  | l :: sched' => st' ← exec shutdownAt l st; run shutdownAt sched' st'
  end.

(** [creep] as [main] starts it (line 196) at instant [t] on manager [m]. *)
Definition start (t : Z) (m : Manager.t) : State := mkState t m Top [] [].

End Creep.

(** ** Calls on the manager over time *)

(** Whether a call reports on [ip]: an [Attempt] or a [Good] for it. *)
Definition reports (ip : N) (c : StoreCall) : bool :=
  match c with
  | CallAttempt ip' | CallGood ip' _ _ => bool_decide (ip' = ip)
  | CallAddAddresses _ => false
  end.

(** Calls with the instant each is made at, applied in order. *)
Definition applyTimed (cs : list (Z * StoreCall)) (m : Manager.t) : Manager.t :=
  foldl (λ m tc, applyCall tc.1 tc.2 m) m cs.

(** The in-flight reading of [Addresses] (spec, section 4.1 and I2): an
    address returned by a call at [t1] and not reported since is not
    returned by a call at [t2] less than 60 seconds later. *)
Definition inflightDisjoint : Prop :=
  ∀ (m : Manager.t) (t1 t2 : Z) (cs : list (Z * StoreCall)) (a : NetAddress),
    t1 ≤ t2 → t2 - t1 < Manager.retryInterval →
    a ∈ Manager.Addresses t1 m →
    (∀ tc, tc ∈ cs → reports (IP a) tc.2 = false) →
    IP a ∉ IP <$> Manager.Addresses t2 (applyTimed cs m).

(** Every entry without a successful version exchange has no services. *)
Definition servicesUnset (m : Manager.t) : Prop :=
  ∀ ip e, m !! ip = Some e →
          Manager.lastSuccess e = 0 → Manager.services e = 0.

(** ** A crawl of two addresses *)

Module Scenario.
Import Creep.

Definition addrA : NetAddress := mkNetAddress (IPv4 1 2 3 4) 16111 SFNodeNetwork.
Definition addrB : NetAddress := mkNetAddress (IPv4 5 6 7 8) 16111 SFNodeNetwork.

(** The manager with the two addresses, inserted at the first second. *)
Definition twoPeers : Manager.t :=
  (Manager.AddAddresses Second [addrA; addrB] ∅).2.

Definition t0 : Z := 100 * Second.

(** Both workers are spawned and connect; one second later the node at
    [addrB] sends its version. *)
Definition connectBoth : list Label :=
  [LIter []; LSpawn; LSpawn;
   LNewPeer 0 true; LAttempt 0; LDial 0 true; LAssociate 0;
   LNewPeer 1 true; LAttempt 1; LDial 1 true; LAssociate 1;
   LTick Second].

(** The send of worker 1's listener on [onVersion] is received by worker 0;
    worker 1 waits until its deadline, worker 0 until the deadline of its
    wait for [addr]. *)
Definition crossTalk : list Label :=
  connectBoth ++
  [LVersion 1 SFNodeNetwork SubnetworkIDSupportsAll; LRecvVersion 1 0;
   LTick (2 * Second); LVersionTimeout 1;
   LTick Second; LAddrTimeout 0; LJoin].

(** Worker 1 receives the signal of its own peer's listener, and then waits
    for [addr] in vain, while worker 0 runs into its version deadline. *)
Definition ownSignal : list Label :=
  [LRecvVersion 1 1; LTick (2 * Second); LVersionTimeout 0; LTick Second].

(** The first pass of the main loop on an empty manager, the bootstrap
    resolver returning the two addresses. *)
Definition bootstrapped : State :=
  iterate None [[addrA; addrB]] (start t0 ∅).

(** A start-up environment: the config has [seeder] for its [--seeder] flag,
    the default port is 16111, [1.2.3.4] parses as an IP and no host
    resolves. *)
Definition env (cfg : result Main.Config) : Main.Env :=
  Main.mkEnv cfg (Ok ∅) "16111"
    (λ s, if decide (s = "16111") then Ok 16111 else Err "invalid syntax")
    (λ s, if decide (s = "1.2.3.4") then Some (IPv4 1 2 3 4) else None)
    (λ s, Err "no such host")
    Second.

Definition config (seeder : string) : Main.Config :=
  Main.mkConfig seeder "seed.example.net" "ns.example.net" ":5354".

(** The manager after a start-up with [--seeder 1.2.3.4], and a crawl of
    that one address up to its version message. *)
Definition seeded : Manager.t :=
  (Manager.AddAddresses Second
     [mkNetAddress (IPv4 1 2 3 4) 16111 SFNodeNetwork] ∅).2.

Definition crawlSeed : list Label :=
  [LIter []; LSpawn; LNewPeer 0 true; LAttempt 0; LDial 0 true; LAssociate 0;
   LVersion 0 SFNodeNetwork SubnetworkIDSupportsAll].

Definition spawnBoth : list Label := [LIter []; LSpawn; LSpawn].

Definition versionOfB : Label := LVersion 1 SFNodeNetwork SubnetworkIDSupportsAll.

Definition stateAfter (sched : list Label) : State :=
  default (start t0 twoPeers) (run None sched (start t0 twoPeers)).

Definition seedStateAfter (sched : list Label) : State :=
  default (start t0 seeded) (run None sched (start t0 seeded)).

End Scenario.

(** ** Invariants of the crawler *)

Module CreepInv.
Import Creep.

(** How one step changes the record of a worker or of its peer. *)
Inductive wtrans (t : Z) : Worker → Worker → Prop :=
| wt_newpeer_ok x : pc x = AtNewPeer → wtrans t x (setPC AtAttempt x)
| wt_newpeer_err x : pc x = AtNewPeer → wtrans t x (finish false x)
| wt_attempt x : pc x = AtAttempt → wtrans t x (setPC AtDial x)
| wt_dial_ok x : pc x = AtDial → wtrans t x (setPC AtAssociate x)
| wt_dial_err x : pc x = AtDial → wtrans t x (finish false x)
| wt_associate x :
    pc x = AtAssociate →
    wtrans t x (setPeer (Reading false) (setPC (WaitVersion (t + nodeTimeout)) x))
| wt_version x :
    peer x = Reading false → disconnected x = false →
    wtrans t x (setPeer SendVersion x)
| wt_sent_version x : peer x = SendVersion → wtrans t x (setPeer (Reading true) x)
| wt_recv_version x d :
    pc x = WaitVersion d → wtrans t x (setPC (WaitAddr (t + nodeTimeout)) x)
| wt_version_timeout x d :
    pc x = WaitVersion d → d ≤ t → wtrans t x (finish true x)
| wt_addr x :
    peer x = Reading true → disconnected x = false →
    wtrans t x (setPeer SendAddr x)
| wt_sent_addr x : peer x = SendAddr → wtrans t x (setPeer (Reading true) x)
| wt_recv_addr x d : pc x = WaitAddr d → wtrans t x (finish true x)
| wt_addr_timeout x d : pc x = WaitAddr d → d ≤ t → wtrans t x (finish true x).

Definition fresh (a : NetAddress) : Worker := mkWorker a AtNewPeer NoConn false.

Definition wfWorker (x : Worker) : Prop :=
  match pc x with
  | AtNewPeer | AtAttempt | AtDial | AtAssociate =>
      peer x = NoConn ∧ disconnected x = false
  | WaitVersion _ | WaitAddr _ => peer x ≠ NoConn ∧ disconnected x = false
  | Done => peer x = NoConn ∨ disconnected x = true
  end.

Definition resting (lp : LoopPC) : Prop := lp = Top ∨ lp = Returned.

(** Workers and peers agree, and the main loop is at its top or has returned
    only with every worker done. *)
Definition wf (st : State) : Prop :=
  Forall wfWorker (workers st)
  ∧ (resting (loop st) → Forall (λ x, isDone x = true) (workers st)).

(** [wstep w t x l evs x']: the step [l], taken at instant [t] and adding
    [evs] to the trace, moves worker [w] and its peer from [x] to [x']. *)
Inductive wstep (w : nat) (t : Z) (x : Worker)
  : Label → list Event → Worker → Prop :=
| s_newpeer_ok :
    pc x = AtNewPeer → wstep w t x (LNewPeer w true) [] (setPC AtAttempt x)
| s_newpeer_err :
    pc x = AtNewPeer →
    wstep w t x (LNewPeer w false) [EvLog (LogNewPeerErr w)] (finish false x)
| s_attempt :
    pc x = AtAttempt →
    wstep w t x (LAttempt w)
      [EvCall (ByWorker w) (CallAttempt (IP (addr x)))] (setPC AtDial x)
| s_dial_ok :
    pc x = AtDial →
    wstep w t x (LDial w true) [EvDial w true] (setPC AtAssociate x)
| s_dial_err :
    pc x = AtDial →
    wstep w t x (LDial w false) [EvDial w false; EvLog (LogDialErr w)]
      (finish false x)
| s_associate :
    pc x = AtAssociate →
    wstep w t x (LAssociate w) [EvAssociate w]
      (setPeer (Reading false) (setPC (WaitVersion (t + nodeTimeout)) x))
| s_version srv sid :
    peer x = Reading false → disconnected x = false →
    wstep w t x (LVersion w srv sid)
      [EvLog (LogAddingPeer w);
       EvCall (ByListener w) (CallGood (IP (addr x)) srv sid);
       EvQueueGetAddr w]
      (setPeer SendVersion x)
| s_version_sent r :
    r ≠ w → peer x = SendVersion →
    wstep w t x (LRecvVersion w r) [EvSignalVersion w r]
      (setPeer (Reading true) x)
| s_version_recv s d :
    s ≠ w → pc x = WaitVersion d →
    wstep w t x (LRecvVersion s w) [EvSignalVersion s w]
      (setPC (WaitAddr (t + nodeTimeout)) x)
| s_version_self d :
    peer x = SendVersion → pc x = WaitVersion d →
    wstep w t x (LRecvVersion w w) [EvSignalVersion w w]
      (setPC (WaitAddr (t + nodeTimeout)) (setPeer (Reading true) x))
| s_version_timeout d :
    pc x = WaitVersion d → d ≤ t →
    wstep w t x (LVersionTimeout w)
      [EvLog (LogVersionTimeout w); EvDisconnect w] (finish true x)
| s_addr addrs n :
    peer x = Reading true → disconnected x = false →
    wstep w t x (LAddr w addrs)
      [EvCall (ByListener w) (CallAddAddresses addrs);
       EvLog (LogPeerSent w (length addrs) n)]
      (setPeer SendAddr x)
| s_addr_sent r :
    r ≠ w → peer x = SendAddr →
    wstep w t x (LRecvAddr w r) [EvSignalAddr w r; EvDisconnect r]
      (setPeer (Reading true) x)
| s_addr_recv s d :
    s ≠ w → pc x = WaitAddr d →
    wstep w t x (LRecvAddr s w) [EvSignalAddr s w; EvDisconnect w]
      (finish true x)
| s_addr_self d :
    peer x = SendAddr → pc x = WaitAddr d →
    wstep w t x (LRecvAddr w w) [EvSignalAddr w w; EvDisconnect w]
      (finish true (setPeer (Reading true) x))
| s_addr_timeout d :
    pc x = WaitAddr d → d ≤ t →
    wstep w t x (LAddrTimeout w)
      [EvLog (LogGetaddrTimeout w); EvDisconnect w] (finish true x).

(** What an event says about the state it was added in. *)
Definition eventSource (st : State) (e : Event) : Prop :=
  match e with
  | EvCall (ByWorker w) c =>
      ∃ x, workers st !! w = Some x ∧ pc x = AtAttempt
           ∧ c = CallAttempt (IP (addr x))
  | EvCall (ByListener w) c =>
      ∃ x, workers st !! w = Some x ∧ disconnected x = false
           ∧ (peer x = Reading false
              ∧ (∃ srv sid, c = CallGood (IP (addr x)) srv sid)
              ∨ peer x = Reading true ∧ ∃ addrs, c = CallAddAddresses addrs)
  | EvCall ByLoop c => loop st = Top ∧ ∃ addrs, c = CallAddAddresses addrs
  | EvDial w _ => ∃ x, workers st !! w = Some x ∧ pc x = AtDial
  | EvAssociate w => ∃ x, workers st !! w = Some x ∧ pc x = AtAssociate
  | _ => True
  end.

Definition attemptOf (w : nat) (x : Worker) : Event :=
  EvCall (ByWorker w) (CallAttempt (IP (addr x))).

(** Every occurrence of [e2] in the trace comes after one of [e1]. *)
Definition before (e1 e2 : Event) (tr : list Event) : Prop :=
  ∀ i, tr !! i = Some e2 → ∃ j, (j < i)%nat ∧ tr !! j = Some e1.

Record orderedWorker (tr : list Event) (w : nat) (x : Worker) : Prop := {
  ow_attempt : pc x = AtDial → attemptOf w x ∈ tr;
  ow_dial : pc x = AtAssociate → EvDial w true ∈ tr;
  ow_assoc : peer x ≠ NoConn → EvAssociate w ∈ tr;
  ow_before_dial : ∀ ok, before (attemptOf w x) (EvDial w ok) tr;
  ow_before_assoc : before (EvDial w true) (EvAssociate w) tr;
  ow_before_listener : ∀ c, before (EvAssociate w) (EvCall (ByListener w) c) tr;
  ow_good_ip : ∀ ip srv sid,
    EvCall (ByListener w) (CallGood ip srv sid) ∈ tr → ip = IP (addr x);
  ow_attempt_ip : ∀ c, EvCall (ByWorker w) c ∈ tr → c = CallAttempt (IP (addr x))
}.

(** A worker not yet spawned has left no event. *)
Definition silentWorker (tr : list Event) (w : nat) : Prop :=
  (∀ ok, EvDial w ok ∉ tr) ∧ (EvAssociate w ∉ tr)
  ∧ (∀ c, EvCall (ByListener w) c ∉ tr) ∧ (∀ c, EvCall (ByWorker w) c ∉ tr).

Definition ordered (st : State) : Prop :=
  (∀ w x, workers st !! w = Some x → orderedWorker (trace st) w x)
  ∧ (∀ w, workers st !! w = None → silentWorker (trace st) w).

(** Only listeners call [Good]. *)
Definition goodByListener (st : State) : Prop :=
  ∀ who ip srv sid, EvCall who (CallGood ip srv sid) ∈ trace st →
    ∃ w, who = ByListener w.

(** The manager after a step. *)
Definition storeAfter (l : Label) (st : State) : Manager.t :=
  match l with
  | LIter seeds => (candidates (now st) seeds (amgr st)).1.1
  | LAttempt w =>
      match workers st !! w with
      | Some x => Manager.Attempt (now st) (IP (addr x)) (amgr st)
      | None => amgr st
      end
  | LVersion w srv sid =>
      match workers st !! w with
      | Some x => Manager.Good (now st) (IP (addr x)) srv sid (amgr st)
      | None => amgr st
      end
  | LAddr w addrs => (Manager.AddAddresses (now st) addrs (amgr st)).2
  | _ => amgr st
  end.

Definition distinct (st : State) : Prop :=
  (∀ w1 w2 x1 x2,
     workers st !! w1 = Some x1 → workers st !! w2 = Some x2 →
     isDone x1 = false → isDone x2 = false →
     IP (addr x1) = IP (addr x2) → w1 = w2)
  ∧ (∀ pend, loop st = Spawning pend →
       NoDup (IP <$> pend)
       ∧ ∀ w x, workers st !! w = Some x → isDone x = false →
                IP (addr x) ∉ IP <$> pend).

Definition early (x : Worker) : Prop := pc x = AtNewPeer ∨ pc x = AtAttempt.

(** The address of a worker that has not yet called [Attempt], and every
    address still waiting for its worker, is one that [Addresses] would
    return now. *)
Definition candidatesEligible (st : State) : Prop :=
  (∀ w x, workers st !! w = Some x → early x →
          addr x ∈ Manager.Addresses (now st) (amgr st))
  ∧ (∀ pend a, loop st = Spawning pend → a ∈ pend →
               a ∈ Manager.Addresses (now st) (amgr st)).

Definition notCalled (tr : list Event) (w : nat) : Prop :=
  ∀ c, (EvCall (ByWorker w) c ∉ tr) ∧ (EvCall (ByListener w) c ∉ tr).

(** The step behind a call of a worker or a [Good] of a listener. *)
Definition eventLabel (l : Label) (e : Event) : Prop :=
  match e with
  | EvCall (ByWorker w) _ => l = LAttempt w
  | EvCall (ByListener w) (CallGood _ srv sid) => l = LVersion w srv sid
  | _ => True
  end.

(** A worker that has not reached its [Attempt] has made no call. *)
Definition earlyQuiet (st : State) : Prop :=
  ∀ w x, workers st !! w = Some x → early x → notCalled (trace st) w.

(** A worker that returned without a connection: it is out of every
    further step, and adds no call to those it has made. *)
Definition retired (w : nat) (x : Worker) (calls : list Event) (st : State) : Prop :=
  workers st !! w = Some x ∧ pc x = Done ∧ peer x = NoConn
  ∧ ∀ who c, who = ByWorker w ∨ who = ByListener w →
             (EvCall who c ∈ trace st ↔ EvCall who c ∈ calls).

Definition versionSeen (x : Worker) : Prop :=
  peer x = SendVersion ∨ peer x = Reading true ∨ peer x = SendAddr.

(** The worker [w], crawling address [a], has had its version handled, and
    the manager holds [e] for that address. *)
Definition tracked (w : nat) (a : NetAddress) (e : Manager.Entry) (st : State) : Prop :=
  amgr st !! IP a = Some e
  ∧ ∃ x, workers st !! w = Some x ∧ addr x = a ∧ versionSeen x.

End CreepInv.

(** ** Further invariants of the crawler *)

Module CreepMore.
Import Creep CreepInv.

(** Every worker started so far has returned. *)
Definition allDone (st : State) : Prop :=
  ∀ w x, workers st !! w = Some x → pc x = Done.


(** The IP of every worker's address, and of every address waiting for its
    worker, has an entry in the manager. *)
Definition known (st : State) : Prop :=
  (∀ w x, workers st !! w = Some x → is_Some (amgr st !! IP (addr x)))
  ∧ (∀ pend a, loop st = Spawning pend → a ∈ pend →
               is_Some (amgr st !! IP a)).

(** The workers started since a pass of the main loop that found [peers],
    [before] being the addresses of the workers started earlier: they crawl
    a prefix of [peers], in order, and the rest is still pending. *)
Definition batchOf (before peers : list NetAddress) (st : State) : Prop :=
  ∃ spawned pend,
    addr <$> workers st = before ++ spawned
    ∧ spawned ++ pend = peers
    ∧ (∀ p, loop st = Spawning p → pend = p)
    ∧ (loop st = Top → pend = []).

(** What an event says about the state after the step that added it. *)
Definition eventEffect (st' : State) (e : Event) : Prop :=
  match e with
  | EvAssociate w => ∃ x, workers st' !! w = Some x ∧ peer x ≠ NoConn
  | EvDisconnect w =>
      ∃ x, workers st' !! w = Some x ∧ disconnected x = true
  | _ => True
  end.

(** The trace and the records of the workers agree on connections. *)
Definition linked (st : State) : Prop :=
  (∀ w x, workers st !! w = Some x →
     (EvAssociate w ∈ trace st → peer x ≠ NoConn)
     ∧ (EvDisconnect w ∈ trace st ↔ disconnected x = true)
     ∧ (disconnected x = true → peer x ≠ NoConn))
  ∧ (∀ w, workers st !! w = None → EvDisconnect w ∉ trace st).

(** How far a worker has got. *)
Definition rank (x : Worker) : nat :=
  match pc x with
  | AtNewPeer => 0
  | AtAttempt => 1
  | AtDial => 2
  | AtAssociate => 3
  | WaitVersion _ => 4
  | WaitAddr _ => 5
  | Done => 6
  end.

(** The worker [w], crawling address [a], has called [Attempt] and is about
    to dial, and the manager holds [e] for that address. *)
Definition dialling (w : nat) (a : NetAddress) (e : Manager.Entry) (st : State) : Prop :=
  amgr st !! IP a = Some e
  ∧ ∃ x, workers st !! w = Some x ∧ addr x = a ∧ pc x = AtDial.

(** The calls a worker goroutine has made, counted. *)
Definition isCallBy (w : nat) (e : Event) : bool :=
  match e with
  | EvCall (ByWorker w') _ => bool_decide (w' = w)
  | _ => false
  end.

Definition callsBy (w : nat) (tr : list Event) : nat :=
  length (filter (λ e, isCallBy w e = true) tr).

Definition countedOnce (st : State) : Prop :=
  ∀ w, (callsBy w (trace st) ≤ 1)%nat
       ∧ (workers st !! w = None → callsBy w (trace st) = 0%nat)
       ∧ (∀ x, workers st !! w = Some x → early x →
               callsBy w (trace st) = 0%nat).

(** What a channel receive says about the state it was made in: the
    sender's listener stood at its send, the receiver in its [select]. *)
Definition signalSource (st : State) (e : Event) : Prop :=
  match e with
  | EvSignalVersion s r =>
      (∃ x, workers st !! s = Some x ∧ peer x = SendVersion)
      ∧ (∃ y d, workers st !! r = Some y ∧ pc y = WaitVersion d)
  | EvSignalAddr s r =>
      (∃ x, workers st !! s = Some x ∧ peer x = SendAddr)
      ∧ (∃ y d, workers st !! r = Some y ∧ pc y = WaitAddr d)
  | _ => True
  end.

(** A listener standing at its channel send has made its call on the
    manager, and every receive in the trace follows such a call of the
    sender's listener. *)
Definition sending (st : State) : Prop :=
  (∀ w x, workers st !! w = Some x →
     (peer x = SendVersion →
      ∃ srv sid,
        EvCall (ByListener w) (CallGood (IP (addr x)) srv sid) ∈ trace st)
     ∧ (peer x = SendAddr →
        ∃ addrs, EvCall (ByListener w) (CallAddAddresses addrs) ∈ trace st))
  ∧ (∀ i s r, trace st !! i = Some (EvSignalVersion s r) →
       ∃ j ip srv sid, (j < i)%nat
         ∧ trace st !! j = Some (EvCall (ByListener s) (CallGood ip srv sid)))
  ∧ (∀ i s r, trace st !! i = Some (EvSignalAddr s r) →
       ∃ j addrs, (j < i)%nat
         ∧ trace st !! j = Some (EvCall (ByListener s) (CallAddAddresses addrs))).


(** A step that needs no message of a remote node; [np] and [dial] tell
    how [NewOutboundPeer] and the dial end for each worker. *)
Definition quiet (np dial : nat → bool) (l : Label) : bool :=
  match l with
  | LNewPeer w ok => bool_decide (ok = np w)
  | LDial w ok => bool_decide (ok = dial w)
  | LTick _ | LSpawn | LJoin | LAttempt _ | LAssociate _
  | LVersionTimeout _ | LAddrTimeout _ => true
  | LIter _ | LVersion _ _ _ | LRecvVersion _ _ | LAddr _ _
  | LRecvAddr _ _ => false
  end.

(** The deadline of the [select] a worker waits in. *)
Definition deadline (x : Worker) : option Z :=
  match pc x with
  | WaitVersion d | WaitAddr d => Some d
  | _ => None
  end.

(** The steps the workers have left at most. *)
Definition todo (ws : list Worker) : nat :=
  sum_list ((λ x, 6 - rank x)%nat <$> ws).

End CreepMore.

(** ** A shutdown, a failed dial, a lookup with no result *)

Module Shutdown.
Import Creep Scenario.



(** Both workers are spawned; the first makes its peer. *)
Definition firstPeer : list Label := spawnBoth ++ [LNewPeer 0 true].


(** Worker [w] in a state, for a worker that has been started. *)
Definition workerOf (st : State) (w : nat) : Worker :=
  default (mkWorker addrA Done NoConn false) (workers st !! w).

(** A start-up environment in which [--seeder] names a host, and the lookup
    of any host returns no address and no error. *)
Definition envEmptyLookup : Main.Env :=
  Main.mkEnv (Ok (config "seed.example.org")) (Ok ∅) "16111"
    (λ s, if decide (s = "16111") then Ok 16111 else Err "invalid syntax")
    (λ s, None)
    (λ s, Ok [])
    Second.

End Shutdown.

(** * Properties *)

(** ** The address manager *)

Module ManagerFacts.
Import Manager.

#[local] Arguments addOne : simpl never.

Lemma addOne_spec now c (m : Manager.t) a :
  addOne now (c, m) a =
    if acceptable a && bool_decide (m !! IP a = None)
       && (N.of_nat (size m) <? maxEntries)%N
    then (S c, <[IP a := newEntry now a]> m) else (c, m).
Proof.
  unfold addOne. destruct (acceptable a); [|done].
  destruct (m !! IP a) eqn:E; simpl; [done|].
  by destruct (N.of_nat (size m) <? maxEntries)%N.
Qed.

Lemma addOne_lookup now c (m : Manager.t) a ip e :
  (addOne now (c, m) a).2 !! ip = Some e →
  m !! ip = Some e ∨ m !! ip = None ∧ ip = IP a ∧ e = newEntry now a.
Proof.
  rewrite addOne_spec.
  destruct (acceptable a); simpl; [|by left].
  case_bool_decide as Hn; simpl; [|by left].
  destruct (N.of_nat (size m) <? maxEntries)%N; simpl; [|by left].
  destruct (decide (IP a = ip)) as [<-|Hne].
  - rewrite lookup_insert_eq. intros [= <-]. by right.
  - rewrite lookup_insert_ne by done. by left.
Qed.

Lemma addOne_keeps now c (m : Manager.t) a ip e :
  m !! ip = Some e → (addOne now (c, m) a).2 !! ip = Some e.
Proof.
  intros H. rewrite addOne_spec.
  destruct (acceptable a); simpl; [|done].
  case_bool_decide as Hn; simpl; [|done].
  destruct (N.of_nat (size m) <? maxEntries)%N; simpl; [|done].
  rewrite lookup_insert_ne; [done|]. intros Heq. congruence.
Qed.

Lemma addOne_size now c (m : Manager.t) a :
  size (addOne now (c, m) a).2 = (size m + ((addOne now (c, m) a).1 - c))%nat.
Proof.
  rewrite addOne_spec.
  destruct (acceptable a); simpl; [|lia].
  case_bool_decide as Hn; simpl; [|lia].
  destruct (N.of_nat (size m) <? maxEntries)%N; simpl; [|lia].
  rewrite map_size_insert_None by done. lia.
Qed.

Lemma addOne_count now c (m : Manager.t) a :
  (c ≤ (addOne now (c, m) a).1 ≤ S c)%nat.
Proof. rewrite addOne_spec. repeat case_match; simpl; lia. Qed.

Lemma foldl_addOne_keeps now addrs c (m : Manager.t) ip e :
  m !! ip = Some e → (foldl (addOne now) (c, m) addrs).2 !! ip = Some e.
Proof.
  revert c m. induction addrs as [|a addrs IH]; intros c m H; simpl; [done|].
  destruct (addOne now (c, m) a) as [c' m'] eqn:E.
  apply IH. by rewrite <-(addOne_keeps now c m a ip e H), E.
Qed.

Lemma foldl_addOne_lookup now addrs c (m : Manager.t) ip e :
  (foldl (addOne now) (c, m) addrs).2 !! ip = Some e →
  m !! ip = Some e
  ∨ m !! ip = None ∧ ∃ a, a ∈ addrs ∧ ip = IP a ∧ e = newEntry now a.
Proof.
  revert c m. induction addrs as [|a addrs IH]; intros c m; simpl; [by left|].
  destruct (addOne now (c, m) a) as [c' m'] eqn:E. intros H.
  destruct (IH _ _ H) as [H'|[Hn (b & Hb & -> & ->)]].
  - replace m' with (addOne now (c, m) a).2 in H' by by rewrite E.
    destruct (addOne_lookup _ _ _ _ _ _ H') as [?|(? & -> & ->)]; [by left|].
    right. split; [done|]. exists a. split; [apply list_elem_of_here|done].
  - right. split.
    + destruct (m !! IP b) eqn:Hm; [|done].
      pose proof (addOne_keeps now c m a _ _ Hm) as Hk.
      rewrite E in Hk. simpl in Hk. congruence.
    + exists b. split; [by apply list_elem_of_further|done].
Qed.

Lemma foldl_addOne_size now addrs c (m : Manager.t) :
  (c ≤ (foldl (addOne now) (c, m) addrs).1)%nat
  ∧ size (foldl (addOne now) (c, m) addrs).2
    = (size m + ((foldl (addOne now) (c, m) addrs).1 - c))%nat.
Proof.
  revert c m. induction addrs as [|a addrs IH]; intros c m; simpl; [lia|].
  pose proof (addOne_size now c m a) as Hs.
  pose proof (addOne_count now c m a) as Hc.
  destruct (addOne now (c, m) a) as [c' m'] eqn:E. simpl in *.
  destruct (IH c' m') as [H1 H2]. rewrite H2, Hs. lia.
Qed.

Lemma foldl_addOne_count now addrs c (m : Manager.t) :
  ((foldl (addOne now) (c, m) addrs).1 ≤ c + length addrs)%nat.
Proof.
  revert c m. induction addrs as [|a addrs IH]; intros c m; simpl; [lia|].
  pose proof (addOne_count now c m a) as Hc.
  destruct (addOne now (c, m) a) as [c' m'] eqn:E. simpl in *.
  specialize (IH c' m'). lia.
Qed.

(** [AddAddresses] leaves the entries that are there as they are. *)
Lemma AddAddresses_keeps now addrs (m : Manager.t) ip e :
  m !! ip = Some e → (AddAddresses now addrs m).2 !! ip = Some e.
Proof. apply foldl_addOne_keeps. Qed.

(** An entry found after [AddAddresses] was there before, or is new. *)
Lemma AddAddresses_lookup now addrs (m : Manager.t) ip e :
  (AddAddresses now addrs m).2 !! ip = Some e →
  m !! ip = Some e
  ∨ m !! ip = None ∧ ∃ a, a ∈ addrs ∧ ip = IP a ∧ e = newEntry now a.
Proof. apply foldl_addOne_lookup. Qed.

(** The count returned is the growth of the store, at most the number of
    addresses given. *)
Lemma AddAddresses_size now addrs (m : Manager.t) :
  size (AddAddresses now addrs m).2 = (size m + (AddAddresses now addrs m).1)%nat
  ∧ ((AddAddresses now addrs m).1 ≤ length addrs)%nat.
Proof.
  unfold AddAddresses. split.
  - destruct (foldl_addOne_size now addrs 0 m) as [_ ->]. lia.
  - apply (foldl_addOne_count now addrs 0 m).
Qed.

Lemma Attempt_lookup now ip (m : Manager.t) ip' :
  Attempt now ip m !! ip' =
    if decide (ip = ip') then
      (λ e, mkEntry (port e) (services e) (subnetworkID e) (firstSeen e) now
                    (lastSuccess e)) <$> m !! ip
    else m !! ip'.
Proof.
  unfold Attempt. destruct (decide (ip = ip')) as [<-|Hne].
  - destruct (m !! ip) eqn:E; simpl; [by rewrite lookup_insert_eq|done].
  - destruct (m !! ip) eqn:E; [by rewrite lookup_insert_ne|done].
Qed.

Lemma Good_lookup now ip srv sid (m : Manager.t) ip' :
  Good now ip srv sid m !! ip' =
    if decide (ip = ip') then
      Some (match m !! ip with
            | Some e => mkEntry (port e) srv (Some sid) (firstSeen e) now now
            | None => mkEntry 0 srv (Some sid) now now now
            end)
    else m !! ip'.
Proof.
  unfold Good. destruct (decide (ip = ip')) as [<-|Hne].
  - destruct (m !! ip) eqn:E; by rewrite lookup_insert_eq.
  - destruct (m !! ip) eqn:E; by rewrite lookup_insert_ne.
Qed.

(** What [Addresses] returns: the eligible entries, each once. *)
Lemma elem_of_Addresses now (m : Manager.t) a :
  a ∈ Addresses now m ↔
  ∃ e, m !! IP a = Some e ∧ eligible now e = true
       ∧ Port a = port e ∧ Services a = services e.
Proof.
  unfold Addresses. rewrite list_elem_of_fmap. split.
  - intros [[ip e] [-> H]]. apply list_elem_of_filter in H as [He H].
    apply elem_of_map_to_list in H. simpl in *. eauto.
  - intros (e & Hm & He & Hp & Hs). exists (IP a, e). split.
    + destruct a; simpl in *. unfold toAddr; simpl. congruence.
    + apply list_elem_of_filter. split; [done|]. by apply elem_of_map_to_list.
Qed.

Lemma IP_Addresses now (m : Manager.t) :
  IP <$> Addresses now m
  = (filter (λ kv, eligible now kv.2 = true) (map_to_list m)).*1.
Proof.
  unfold Addresses. rewrite <-list_fmap_compose. by apply list_fmap_ext.
Qed.

Lemma NoDup_Addresses now (m : Manager.t) : NoDup (IP <$> Addresses now m).
Proof.
  rewrite IP_Addresses.
  apply (sublist_NoDup _ ((map_to_list m).*1)).
  - apply NoDup_fst_map_to_list.
  - apply fmap_sublist, sublist_filter.
Qed.

Lemma Addresses_empty now : Addresses now (∅ : Manager.t) = [].
Proof. unfold Addresses. by rewrite map_to_list_empty. Qed.

(** Time passing does not take eligibility away. *)
Lemma eligible_mono t t' e : t ≤ t' → eligible t e = true → eligible t' e = true.
Proof.
  unfold eligible. intros Ht.
  rewrite !orb_true_iff, !Z.leb_le. intros [?|?]; [by left|right; lia].
Qed.

End ManagerFacts.

(** ** Start-up *)

Module MainFacts.
Import Main.



Lemma main_init_ok env cfg m p :
  loadConfig env = Ok cfg → NewManager env = Ok m →
  Atoi env (DefaultPort env) = Ok p →
  main env =
    if (String.length (Seeder cfg) =? 0)%nat then Running m p [] []
    else match seederIP env (Seeder cfg) with
         | None => Panic []
         | Some (ip, log) =>
             Running (runCalls (now env) (inject p ip) m) p log (inject p ip)
         end.
Proof. unfold main. by intros -> -> ->. Qed.


(** C8.  With [--seeder] set and start-up getting through, [main] makes at
    most one call on the manager, an [AddAddresses] of exactly one address,
    so that the manager grows by at most one entry.  The address is the
    parsed flag when the flag parses as an IP; otherwise it is the first
    result of the host lookup, when that parses, whatever the further
    results are; nothing is injected otherwise.  The injected address has the
    port [uint16(peersDefaultPort)], which is the network default port
    whenever that is a 16-bit number, and the services [SFNodeNetwork]. *)
Theorem main_injects_one_seed (env : Env) cfg m0 p amgr p' log calls :
  loadConfig env = Ok cfg → NewManager env = Ok m0 →
  Atoi env (DefaultPort env) = Ok p → Seeder cfg ≠ "" →
  main env = Running amgr p' log calls →
  p' = p
  ∧ (calls = [] ∧ amgr = m0
     ∨ ∃ ip, calls = [CallAddAddresses [mkNetAddress ip (uint16 p) SFNodeNetwork]]
         ∧ amgr = (Manager.AddAddresses (now env)
                     [mkNetAddress ip (uint16 p) SFNodeNetwork] m0).2
         ∧ (ParseIP env (Seeder cfg) = Some ip
            ∨ ParseIP env (Seeder cfg) = None
              ∧ ∃ first rest, LookupHost env (Seeder cfg) = Ok (first :: rest)
                              ∧ ParseIP env first = Some ip))
  ∧ (∀ ip, ParseIP env (Seeder cfg) = Some ip →
       calls = [CallAddAddresses [mkNetAddress ip (uint16 p) SFNodeNetwork]])
  ∧ (∀ first rest ip, ParseIP env (Seeder cfg) = None →
       LookupHost env (Seeder cfg) = Ok (first :: rest) →
       ParseIP env first = Some ip →
       calls = [CallAddAddresses [mkNetAddress ip (uint16 p) SFNodeNetwork]])
  ∧ (size amgr ≤ S (size m0))%nat
  ∧ (0 ≤ p < 65536 → uint16 p = p).
Proof.
  intros Hc Hm Hp Hs. rewrite (main_init_ok _ _ _ _ Hc Hm Hp).
  assert ((String.length (Seeder cfg) =? 0)%nat = false) as ->.
  { apply Nat.eqb_neq. by destruct (Seeder cfg). }
  unfold seederIP.
  assert (∀ ip, size (Manager.AddAddresses (now env)
            [mkNetAddress ip (uint16 p) SFNodeNetwork] m0).2 ≤ S (size m0))%nat
    as Hsize.
  { intros ip.
    destruct (ManagerFacts.AddAddresses_size (now env)
      [mkNetAddress ip (uint16 p) SFNodeNetwork] m0) as [-> Hle].
    simpl in Hle. lia. }
  assert (0 ≤ p < 65536 → uint16 p = p) as Hport.
  { intros ?. unfold uint16. by apply Z.mod_small. }
  destruct (ParseIP env (Seeder cfg)) as [ip|] eqn:Hip.
  - intros [= <- <- <- <-]. unfold inject, runCalls, requiredServices; simpl.
    split_and!; try done.
    + right. exists ip. split_and!; try done. by left.
    + by intros ? [= ->].
  - destruct (LookupHost env (Seeder cfg)) as [[|first rest]|e] eqn:Hl; try done.
    + destruct (ParseIP env first) as [ip|] eqn:Hf.
      * intros [= <- <- <- <-]. unfold inject, runCalls, requiredServices; simpl.
        split_and!; try done.
        -- right. exists ip. split_and!; try done. right. split; [done|].
           by exists first, rest.
        -- intros ??? _ [= <- <-]. rewrite Hf. by intros [= ->].
      * intros [= <- <- <- <-]. simpl.
        split_and!; try done.
        -- by left.
        -- intros ??? _ [= <- <-]. by rewrite Hf.
        -- lia.
    + intros [= <- <- <- <-]. simpl. split_and!; try done; [by left|lia].
Qed.

End MainFacts.

(** ** The crawler *)

Module CreepFacts.
Import Creep.
Export CreepInv.

(** Case analysis on a step: one goal per way a step can be taken. *)
Ltac exec_cases H :=
  match type of H with
  | exec _ ?l _ = Some _ =>
      destruct l; simpl in H; simplify_option_eq;
      repeat case_match; simplify_option_eq
  end.

Lemma Forall2_rtc_insert t (ws : list Worker) w x x' :
  ws !! w = Some x → rtc (wtrans t) x x' →
  Forall2 (rtc (wtrans t)) ws (<[w := x']> ws).
Proof.
  intros Hw Hx. rewrite <-(list_insert_id ws w x Hw) at 1.
  apply Forall2_insert; [|done]. apply Forall_Forall2_diag, Forall_true.
  intros ?. apply rtc_refl.
Qed.

Lemma Forall2_rtc_trans t (l1 l2 l3 : list Worker) :
  Forall2 (rtc (wtrans t)) l1 l2 → Forall2 (rtc (wtrans t)) l2 l3 →
  Forall2 (rtc (wtrans t)) l1 l3.
Proof.
  intros H. revert l3. induction H; inversion 1; subst; constructor; eauto.
  by eapply rtc_trans.
Qed.

Lemma iterate_workers sd seeds st : workers (iterate sd seeds st) = workers st.
Proof.
  unfold iterate. destruct (candidates _ _ _) as [[m peers] evs].
  destruct (length peers =? 0)%nat; [|done]. by destruct (idleSleep _ _).
Qed.

(** The workers after a step: those before, each moved on by the step or
    left as it was, and the worker spawned by the step, if any. *)
Lemma exec_workers sd l st st' :
  exec sd l st = Some st' →
  ∃ ws new, workers st' = ws ++ new
    ∧ Forall2 (rtc (wtrans (now st))) (workers st) ws
    ∧ (new = [] ∨ ∃ a rest, new = [fresh a] ∧ l = LSpawn
                            ∧ loop st = Spawning (a :: rest)).
Proof.
  assert (Forall2 (rtc (wtrans (now st))) (workers st) (workers st)) as Hrefl.
  { apply Forall_Forall2_diag, Forall_true. intros ?. apply rtc_refl. }
  intros H. exec_cases H; simpl.
  all: try (exists (workers st), []; rewrite app_nil_r;
            split_and!; [done|done|by left]).
  all: try (eexists _, []; rewrite app_nil_r; split_and!;
            [reflexivity| |by left];
            eapply Forall2_rtc_insert; [done|]; apply rtc_once;
            econstructor; first [done | by apply Z.leb_le]).
  - exists (workers st), []. rewrite app_nil_r, iterate_workers. by auto.
  - eexists _, _. split_and!; [done|done|]. right. by eexists _, _.
  - eexists _, []. rewrite app_nil_r. split_and!; [reflexivity| |by left].
    match goal with
    | |- Forall2 _ _ (<[_:=_]> ?l) => apply (Forall2_rtc_trans _ _ l)
    end.
    + eapply Forall2_rtc_insert; [done|]. apply rtc_once. by econstructor.
    + eapply Forall2_rtc_insert; [done|]. apply rtc_once.
      eapply wt_recv_version.
      match goal with
      | H : <[_:=_]> _ !! _ = Some _ |- _ =>
          apply list_lookup_insert_Some in H as [(-> & <- & ?)|[? ?]]
      end; simplify_eq; simpl; done.
  - eexists _, []. rewrite app_nil_r. split_and!; [reflexivity| |by left].
    match goal with
    | |- Forall2 _ _ (<[_:=_]> ?l) => apply (Forall2_rtc_trans _ _ l)
    end.
    + eapply Forall2_rtc_insert; [done|]. apply rtc_once. by econstructor.
    + eapply Forall2_rtc_insert; [done|]. apply rtc_once.
      eapply wt_recv_addr.
      match goal with
      | H : <[_:=_]> _ !! _ = Some _ |- _ =>
          apply list_lookup_insert_Some in H as [(-> & <- & ?)|[? ?]]
      end; simplify_eq; simpl; done.
Qed.

Lemma wtrans_wf t x x' : wtrans t x x' → wfWorker x → wfWorker x'.
Proof.
  unfold wfWorker. destruct 1; destruct x as [xa xp xq xd]; simpl in *; subst;
    simpl; try tauto.
  all: try (destruct xq; intros [? ?]; subst; split; try done).
  all: try (rewrite orb_true_r; by right).
  all: destruct xp; intuition congruence.
Qed.

Lemma wtrans_addr t x x' : rtc (wtrans t) x x' → addr x' = addr x.
Proof. induction 1 as [|x y z H _ IH]; [done|]. rewrite IH. by destruct H. Qed.

(** A worker that has returned stays so. *)
Lemma wtrans_done t x x' : rtc (wtrans t) x x' → isDone x = true → isDone x' = true.
Proof.
  induction 1 as [|x y z H _ IH]; [done|]. intros Hd. apply IH.
  unfold isDone in *. destruct H; simpl; repeat case_match; simplify_eq; done.
Qed.

Lemma rtc_wtrans_wf t x x' : rtc (wtrans t) x x' → wfWorker x → wfWorker x'.
Proof. induction 1; eauto using wtrans_wf. Qed.

Lemma Forall_Forall2_step {A} (P : A → Prop) (R : A → A → Prop) l k :
  (∀ x y, R x y → P x → P y) → Forall2 R l k → Forall P l → Forall P k.
Proof. intros HR. induction 1; inversion 1; subst; constructor; eauto. Qed.

Lemma iterate_loop sd seeds st :
  resting (loop (iterate sd seeds st)) ∨ ∃ peers, loop (iterate sd seeds st) = Spawning peers.
Proof.
  unfold iterate. destruct (candidates _ _ _) as [[m peers] evs].
  destruct (length peers =? 0)%nat; [|right; by eexists].
  destruct (idleSleep _ _) as [t []]; left; [by right|by left].
Qed.

Lemma exec_resting sd l st st' :
  exec sd l st = Some st' → resting (loop st') →
  (resting (loop st) ∨ forallb isDone (workers st) = true) ∧ l ≠ LSpawn.
Proof.
  intros H Hr. unfold resting in *.
  exec_cases H; simpl in *; split; try done;
    try (destruct Hr; congruence); try (by right); try (by left).
  all: left; by left.
Qed.

Lemma exec_wf sd l st st' : exec sd l st = Some st' → wf st → wf st'.
Proof.
  intros H [Hw Hl].
  destruct (exec_workers _ _ _ _ H) as (ws & new & Hws & H2 & Hnew).
  split.
  - rewrite Hws. apply Forall_app. split.
    + eapply Forall_Forall2_step; [|done..]. intros ??. apply rtc_wtrans_wf.
    + destruct Hnew as [->|(a & rest & -> & _)]; [done|].
      repeat constructor.
  - intros Hrest. destruct (exec_resting _ _ _ _ H Hrest) as [Hd Hns].
    destruct Hnew as [->|(a & rest & _ & -> & _)]; [|done].
    rewrite Hws, app_nil_r.
    assert (Forall (λ x, isDone x = true) (workers st)) as Hall.
    { destruct Hd as [?|Hd]; [by apply Hl|].
      apply Forall_forall. intros x Hx.
      apply (proj1 (forallb_forall _ _) Hd). by apply list_elem_of_In. }
    eapply Forall_Forall2_step; [|done..]. intros ??. apply wtrans_done.
Qed.

Lemma run_app sd s1 s2 st :
  run sd (s1 ++ s2) st = st' ← run sd s1 st; run sd s2 st'.
Proof.
  revert st. induction s1 as [|l s1 IH]; intros st; simpl; [done|].
  destruct (exec sd l st); simpl; [apply IH|done].
Qed.

(** Induction over the states a schedule leads to. *)
Lemma run_ind sd (P : State → Prop) :
  (∀ l st st', exec sd l st = Some st' → P st → P st') →
  ∀ sched st st', run sd sched st = Some st' → P st → P st'.
Proof.
  intros Hstep. induction sched as [|l sched IH]; intros st st' H HP;
    simpl in H; simplify_option_eq; eauto.
Qed.

Lemma start_wf t m : wf (start t m).
Proof. split; simpl; constructor. Qed.

Lemma run_wf sd sched t m st : run sd sched (start t m) = Some st → wf st.
Proof.
  intros H. eapply (run_ind sd wf); [apply exec_wf|done|apply start_wf].
Qed.

(** *** The idle sleep *)

Lemma idleLoop_quiet sd n t :
  (∀ k, 1 ≤ k ≤ Z.of_nat n → shutdownSet sd (t + k * Second) = false) →
  idleLoop sd n t = (t + Z.of_nat n * Second, false).
Proof.
  revert t. induction n as [|n IH]; intros t Hq.
  - simpl. f_equal. lia.
  - cbn [idleLoop]. replace (t + Second) with (t + 1 * Second) at 1 by lia.
    rewrite Hq by lia. rewrite IH.
    + f_equal. lia.
    + intros k Hk. replace (t + Second + k * Second)
        with (t + (k + 1) * Second) by lia. apply Hq. lia.
Qed.

Lemma idleLoop_first sd n t k :
  1 ≤ k ≤ Z.of_nat n →
  shutdownSet sd (t + k * Second) = true →
  (∀ j, 1 ≤ j < k → shutdownSet sd (t + j * Second) = false) →
  idleLoop sd n t = (t + k * Second, true).
Proof.
  revert t k. induction n as [|n IH]; intros t k Hk Hset Hbefore; [lia|].
  cbn [idleLoop]. destruct (decide (k = 1)) as [->|Hne].
  - replace (t + Second) with (t + 1 * Second) by lia. by rewrite Hset.
  - replace (t + Second) with (t + 1 * Second) at 1 by lia.
    rewrite Hbefore by lia. rewrite (IH (t + Second) (k - 1)).
    + f_equal. lia.
    + lia.
    + by replace (t + Second + (k - 1) * Second) with (t + k * Second) by lia.
    + intros j Hj. replace (t + Second + j * Second)
        with (t + (j + 1) * Second) by lia. apply Hbefore. lia.
Qed.

Lemma idleLoop_prompt s n t :
  (0 < n)%nat → s ≤ t + Z.of_nat n * Second →
  ∃ t', idleLoop (Some s) n t = (t', true)
        ∧ s ≤ t' ∧ t + Second ≤ t' ∧ t' ≤ Z.max s t + Second.
Proof.
  revert t. induction n as [|n IH]; intros t Hn Hs; [lia|].
  cbn [idleLoop shutdownSet]. destruct (s <=? t + Second) eqn:E.
  - apply Z.leb_le in E. exists (t + Second). split_and!; [done|lia..].
  - apply Z.leb_gt in E. destruct (IH (t + Second)) as (t' & -> & ?).
    + unfold Second in *. lia.
    + lia.
    + exists t'. unfold Second in *. split_and!; [done|lia..].
Qed.

Lemma iterate_idle sd seeds st :
  (candidates (now st) seeds (amgr st)).1.2 = [] →
  now (iterate sd seeds st) = (idleSleep sd (now st)).1
  ∧ loop (iterate sd seeds st)
    = (if (idleSleep sd (now st)).2 then Returned else Top)
  ∧ amgr (iterate sd seeds st) = (candidates (now st) seeds (amgr st)).1.1.
Proof.
  unfold iterate. destruct (candidates _ _ _) as [[m peers] evs]; simpl.
  intros ->. simpl. by destruct (idleSleep _ _) as [t []].
Qed.

(** *** What a step adds to the trace *)

Lemma iterate_trace sd seeds st :
  ∃ evs, trace (iterate sd seeds st)
         = trace st ++ (candidates (now st) seeds (amgr st)).2 ++ evs
         ∧ EvSeedFromDNS ∉ evs.
Proof.
  unfold iterate. destruct (candidates _ _ _) as [[m peers] evs]; simpl.
  destruct (length peers =? 0)%nat.
  - destruct (idleSleep _ _) as [t []]; simpl; eexists; (split; [done|]);
      set_solver.
  - exists []. rewrite app_nil_r. split; [done|]. set_solver.
Qed.

Lemma iterate_trace_logs sd seeds st :
  ∃ evs, trace (iterate sd seeds st)
         = trace st ++ (candidates (now st) seeds (amgr st)).2 ++ evs
         ∧ ∀ e, e ∈ evs → ∃ line, e = EvLog line.
Proof.
  unfold iterate. destruct (candidates _ _ _) as [[m peers] evs]; simpl.
  destruct (length peers =? 0)%nat.
  - destruct (idleSleep _ _) as [t []]; simpl; eexists; (split; [done|]);
      intros e He; set_unfold in He;
      repeat (destruct He as [He|He]); subst; try done; by eexists.
  - exists []. rewrite app_nil_r. split; [done|]. by intros e ?%elem_of_nil.
Qed.

Lemma exec_trace sd l st st' :
  exec sd l st = Some st' →
  ∃ evs, trace st' = trace st ++ evs
         ∧ (EvSeedFromDNS ∈ evs →
            ∃ seeds, l = LIter seeds ∧ loop st = Top
                     ∧ EvSeedFromDNS ∈ (candidates (now st) seeds (amgr st)).2).
Proof.
  intros H. exec_cases H; simpl.
  all: try (eexists; split; [try rewrite <-!app_assoc; reflexivity|]; set_solver).
  all: try (exists []; split; [by rewrite app_nil_r|]; set_solver).
  destruct (iterate_trace sd seeds st) as (evs & -> & Hn).
  eexists. split; [done|]. intros Hin. exists seeds. split_and!; [done..|].
  set_solver.
Qed.

(** C6.  Lines 96-102, entered at instant [t]: (a) with the flag unset at
    each of the 600 checks, the sleep lasts 600 seconds and the loop goes
    on; (b) when the check after the [k]-th second is the first to find the
    flag set, the loop has slept [k] seconds and [creep] returns there and
    then; (c) hence, the flag being stored at an instant [s] not later than
    the last check, [creep] returns no later than one second after [s], or
    after the entry of the sleep if [s] is earlier.  (d) This is what a pass
    of the main loop does when it finds no candidate. *)
Theorem idle_sleep_polls_shutdown (sd : option Z) (t : Z) :
  ((∀ k, 1 ≤ k ≤ 600 → shutdownSet sd (t + k * Second) = false) →
   idleSleep sd t = (t + 600 * Second, false))
  ∧ (∀ k, 1 ≤ k ≤ 600 → shutdownSet sd (t + k * Second) = true →
       (∀ j, 1 ≤ j < k → shutdownSet sd (t + j * Second) = false) →
       idleSleep sd t = (t + k * Second, true))
  ∧ (∀ s, sd = Some s → s ≤ t + 600 * Second →
       ∃ t', idleSleep sd t = (t', true)
             ∧ s ≤ t' ∧ t + Second ≤ t' ∧ t' ≤ Z.max s t + Second)
  ∧ (∀ seeds st, now st = t →
       (candidates t seeds (amgr st)).1.2 = [] →
       now (iterate sd seeds st) = (idleSleep sd t).1
       ∧ loop (iterate sd seeds st)
         = (if (idleSleep sd t).2 then Returned else Top)).
Proof.
  unfold idleSleep. split_and!.
  - intros H. by rewrite idleLoop_quiet.
  - intros k Hk. by apply idleLoop_first.
  - intros s -> Hs. apply idleLoop_prompt; [lia|done].
  - intros seeds st <- Hc. destruct (iterate_idle sd seeds st Hc) as (? & ? & _).
    done.
Qed.

(** C4.  Whatever step [creep] takes, if the step calls [SeedFromDNS] then
    it is a pass of the main loop from its top, in which [Addresses] has
    returned no candidate and [AddressCount] has returned 0: the manager
    holds no entry at that point. *)
Theorem bootstrap_only_when_empty sd l st st' evs :
  exec sd l st = Some st' → trace st' = trace st ++ evs →
  EvSeedFromDNS ∈ evs →
  (∃ seeds, l = LIter seeds) ∧ loop st = Top
  ∧ Manager.Addresses (now st) (amgr st) = []
  ∧ Manager.AddressCount (amgr st) = 0%nat
  ∧ amgr st = ∅.
Proof.
  intros H Htr Hin. destruct (exec_trace _ _ _ _ H) as (evs' & Htr' & Hseed).
  assert (evs' = evs) as -> by (rewrite Htr in Htr'; by apply app_inv_head in Htr').
  destruct (Hseed Hin) as (seeds & -> & Hl & Hc).
  split; [by eexists|]. split; [done|].
  unfold candidates in Hc.
  destruct (length (Manager.Addresses (now st) (amgr st)) =? 0)%nat eqn:E1;
    [|set_solver].
  destruct (Manager.AddressCount (amgr st) =? 0)%nat eqn:E2; [|set_solver].
  apply Nat.eqb_eq in E1, E2. split_and!.
  - by apply nil_length_inv.
  - done.
  - by apply map_size_empty_inv.
Qed.

(** *** A step, seen from one worker *)

Ltac lookup_insert_cases :=
  repeat match goal with
  | H : <[_:=_]> _ !! _ = Some _ |- _ =>
      apply list_lookup_insert_Some in H as [(? & ? & ?)|[? H]]
  end; simplify_eq.

Lemma exec_inv sd l st st' :
  exec sd l st = Some st' →
  ∃ evs, trace st' = trace st ++ evs ∧
    ∀ w x', workers st' !! w = Some x' →
      workers st !! w = Some x'
      ∨ (workers st !! w = None ∧ l = LSpawn ∧ evs = []
         ∧ ∃ a rest, x' = fresh a ∧ loop st = Spawning (a :: rest))
      ∨ (∃ x, workers st !! w = Some x ∧ wstep w (now st) x l evs x').
Proof.
  intros H. exec_cases H; simpl.
  all: try (exists []; split; [by rewrite app_nil_r|]; intros w0 x' Hx';
            by left).
  all: try (eexists; split; [done|]; intros w0 x' Hx'; by left).
  all: try (eexists; split; [done|]; intros w0 x' Hx';
            lookup_insert_cases; [|by left]; right; right;
            eexists; split; [done|]; simpl;
            econstructor; first [done | by apply Z.leb_le]).
  all: try (exists []; split; [by rewrite app_nil_r|]; intros w0 x' Hx';
            lookup_insert_cases; [|by left]; right; right;
            eexists; split; [done|]; by constructor).
  - destruct (iterate_trace sd seeds st) as (evs & -> & _).
    eexists. split; [done|]. rewrite iterate_workers. by left.
  - exists []. split; [by rewrite app_nil_r|]. intros w0 x' Hx'.
    apply lookup_app_Some in Hx' as [?|[Hlen Hx']]; [by left|].
    right; left. apply list_lookup_singleton_Some in Hx' as [Hz <-].
    split_and!; try done.
    + apply lookup_ge_None. lia.
    + by eexists _, _.
  - exists [EvSignalVersion sender w]. split; [by rewrite app_nil_r|].
    intros w0 x' Hx'. lookup_insert_cases; try (by left); right; right.
    + eexists. split; [done|]. by eapply s_version_self.
    + eexists. split; [done|]. by eapply s_version_recv.
    + eexists. split; [done|]. by eapply s_version_sent.
  - exists [EvSignalAddr sender w; EvDisconnect w].
    split; [by rewrite <-app_assoc|].
    intros w0 x' Hx'. lookup_insert_cases; try (by left); right; right.
    + eexists. split; [done|]. by eapply s_addr_self.
    + eexists. split; [done|]. by eapply s_addr_recv.
    + eexists. split; [done|]. by eapply s_addr_sent.
Qed.

Lemma candidates_events t seeds (m : Manager.t) e :
  e ∈ (candidates t seeds m).2 →
  e = EvSeedFromDNS ∨ ∃ addrs, e = EvCall ByLoop (CallAddAddresses addrs).
Proof.
  unfold candidates. case_match; simpl; [|set_solver].
  rewrite elem_of_cons, list_elem_of_fmap. intros [->|[addrs [-> _]]];
    [by left|right; by eexists].
Qed.

Lemma exec_events sd l st st' evs e :
  exec sd l st = Some st' → trace st' = trace st ++ evs → e ∈ evs →
  eventSource st e.
Proof.
  intros H Htr He. revert Htr He. exec_cases H; simpl; intros Htr He.
  all: try (rewrite <-(app_nil_r (trace st)) in Htr at 1;
            apply app_inv_head in Htr; subst; set_solver).
  all: try (rewrite <-?app_assoc in Htr; apply app_inv_head in Htr; subst;
            simpl in He; set_unfold in He;
            repeat (destruct He as [He|He]); subst; simpl; try done;
            eauto 10).
  unfold iterate in Htr.
  destruct (candidates (now st) seeds (amgr st)) as [[m peers] cevs] eqn:Ec.
  assert (∀ e, e ∈ cevs → eventSource st e) as Hc.
  { intros e' He'. replace cevs with (candidates (now st) seeds (amgr st)).2
      in He' by by rewrite Ec.
    apply candidates_events in He' as [->|[addrs ->]]; simpl; eauto. }
  destruct (length peers =? 0)%nat.
  - destruct (idleSleep sd (now st)) as [t stop]. simpl in Htr.
    apply app_inv_head in Htr. subst evs.
    apply elem_of_app in He as [He|He]; [by apply Hc|].
    destruct stop; set_unfold in He;
      repeat (destruct He as [He|He]); subst; done.
  - simpl in Htr. apply app_inv_head in Htr. subst evs. by apply Hc.
Qed.

(** *** The order of a worker's events *)

Lemma before_app e1 e2 tr evs :
  before e1 e2 tr → (e2 ∈ evs → e1 ∈ tr) → before e1 e2 (tr ++ evs).
Proof.
  intros Hb Hnew i Hi. apply lookup_app_Some in Hi as [Hi|[Hlen Hi]].
  - destruct (Hb i Hi) as (j & Hj & Hlook). exists j. split; [done|].
    by apply lookup_app_l_Some.
  - apply list_elem_of_lookup_2 in Hi. apply Hnew in Hi.
    apply list_elem_of_lookup in Hi as [j Hj].
    exists j. split; [|by apply lookup_app_l_Some].
    apply lookup_lt_Some in Hj. lia.
Qed.

Lemma before_absent e1 e2 tr : e2 ∉ tr → before e1 e2 tr.
Proof. intros Hn i Hi. destruct Hn. by eapply list_elem_of_lookup_2. Qed.

Lemma silent_fresh tr w a : silentWorker tr w → orderedWorker tr w (fresh a).
Proof.
  intros (H1 & H2 & H3 & H4). split; simpl; try done.
  - intros ok. by apply before_absent.
  - by apply before_absent.
  - intros c. by apply before_absent.
  - intros ip srv sid Hin. by destruct (H3 _ Hin).
  - intros c Hin. by destruct (H4 _ Hin).
Qed.

(** The events of a step about a worker it does not move. *)
Lemma ordered_keep sd l st st' evs w x :
  exec sd l st = Some st' → trace st' = trace st ++ evs →
  workers st !! w = Some x → addr x = addr x →
  orderedWorker (trace st) w x →
  (∀ ok, before (attemptOf w x) (EvDial w ok) (trace st ++ evs))
  ∧ before (EvDial w true) (EvAssociate w) (trace st ++ evs)
  ∧ (∀ c, before (EvAssociate w) (EvCall (ByListener w) c) (trace st ++ evs))
  ∧ (∀ ip srv sid,
       EvCall (ByListener w) (CallGood ip srv sid) ∈ trace st ++ evs →
       ip = IP (addr x))
  ∧ (∀ c, EvCall (ByWorker w) c ∈ trace st ++ evs →
          c = CallAttempt (IP (addr x))).
Proof.
  intros H Htr Hw _ Ho. split_and!.
  - intros ok. apply before_app; [apply Ho|]. intros He.
    destruct (exec_events _ _ _ _ _ _ H Htr He) as (x0 & Hx0 & Hpc).
    simplify_eq. by apply Ho.
  - apply before_app; [apply Ho|]. intros He.
    destruct (exec_events _ _ _ _ _ _ H Htr He) as (x0 & Hx0 & Hpc).
    simplify_eq. by apply Ho.
  - intros c. apply before_app; [apply Ho|]. intros He.
    destruct (exec_events _ _ _ _ _ _ H Htr He) as (x0 & Hx0 & _ & Hp).
    simplify_eq. apply Ho. destruct Hp as [[-> _]|[-> _]]; done.
  - intros ip srv sid [Hin|Hin]%elem_of_app; [by eapply Ho|].
    destruct (exec_events _ _ _ _ _ _ H Htr Hin) as (x0 & Hx0 & _ & Hp).
    simplify_eq. destruct Hp as [[_ (? & ? & ?)]|[_ (? & ?)]]; by simplify_eq.
  - intros c [Hin|Hin]%elem_of_app; [by eapply Ho|].
    destruct (exec_events _ _ _ _ _ _ H Htr Hin) as (x0 & Hx0 & _ & ->).
    by simplify_eq.
Qed.

Ltac in_list :=
  solve [repeat first [apply list_elem_of_here | apply list_elem_of_further]].

Lemma wstep_addr w t x l evs x' : wstep w t x l evs x' → addr x' = addr x.
Proof. by destruct 1. Qed.

Lemma exec_ordered sd l st st' : exec sd l st = Some st' → ordered st → ordered st'.
Proof.
  intros H [Ho Hs]. destruct (exec_inv _ _ _ _ H) as (evs & Htr & Hws).
  split.
  - intros w x' Hx'. rewrite Htr.
    destruct (Hws w x' Hx') as [Hsame|[(Hnone & -> & -> & a & rest & -> & _)|
      (x & Hx & Hstep)]].
    + pose proof (Ho _ _ Hsame) as Hox.
      destruct (ordered_keep _ _ _ _ _ _ _ H Htr Hsame eq_refl Hox)
        as (? & ? & ? & ? & ?).
      split; try done.
      * intros ?. apply elem_of_app. left. by apply (ow_attempt _ _ _ Hox).
      * intros ?. apply elem_of_app. left. by apply (ow_dial _ _ _ Hox).
      * intros ?. apply elem_of_app. left. by apply (ow_assoc _ _ _ Hox).
    + rewrite app_nil_r. by apply silent_fresh, Hs.
    + pose proof (Ho _ _ Hx) as Hox.
      destruct (ordered_keep _ _ _ _ _ _ _ H Htr Hx eq_refl Hox)
        as (? & ? & ? & ? & ?).
      pose proof (wstep_addr _ _ _ _ _ _ Hstep) as Ha.
      pose proof (ow_attempt _ _ _ Hox) as Hp1.
      pose proof (ow_dial _ _ _ Hox) as Hp2.
      pose proof (ow_assoc _ _ _ Hox) as Hp3.
      clear Hox H Hws Ho Hs Htr.
      split; unfold attemptOf in *; rewrite ?Ha; try done.
      * intros Hpc. apply elem_of_app.
        destruct Hstep; simpl in *;
          first [ left; apply Hp1; congruence
                | right; in_list
                | congruence ].
      * intros Hpc. apply elem_of_app.
        destruct Hstep; simpl in *;
          first [ left; apply Hp2; congruence
                | right; in_list
                | congruence ].
      * intros Hpc. apply elem_of_app.
        destruct Hstep; simpl in *;
          first [ left; apply Hp3; congruence
                | right; in_list
                | congruence ].
  - intros w Hnone. rewrite Htr.
    assert (workers st !! w = None) as Hnone'.
    { destruct (workers st !! w) as [x|] eqn:E; [|done].
      destruct (exec_workers _ _ _ _ H) as (ws & new & Hws' & H2 & _).
      apply Forall2_length in H2. apply lookup_lt_Some in E.
      apply lookup_ge_None in Hnone. rewrite Hws', length_app in Hnone. lia. }
    destruct (Hs w Hnone') as (H1 & H2 & H3 & H4).
    split_and!.
    + intros ok [?|Hin]%elem_of_app; [by eapply H1|].
      destruct (exec_events _ _ _ _ _ _ H Htr Hin) as (? & ? & _). congruence.
    + intros [?|Hin]%elem_of_app; [done|].
      destruct (exec_events _ _ _ _ _ _ H Htr Hin) as (? & ? & _). congruence.
    + intros c [?|Hin]%elem_of_app; [by eapply H3|].
      destruct (exec_events _ _ _ _ _ _ H Htr Hin) as (? & ? & _). congruence.
    + intros c [?|Hin]%elem_of_app; [by eapply H4|].
      destruct (exec_events _ _ _ _ _ _ H Htr Hin) as (? & ? & _). congruence.
Qed.

Lemma start_ordered t m : ordered (start t m).
Proof.
  split; simpl; [done|]. intros w _. unfold silentWorker.
  split_and!; intros; apply not_elem_of_nil.
Qed.

Lemma run_ordered sd sched t m st :
  run sd sched (start t m) = Some st → ordered st.
Proof.
  intros H. eapply (run_ind sd ordered); [apply exec_ordered|done|].
  apply start_ordered.
Qed.

Lemma exec_goodByListener sd l st st' :
  exec sd l st = Some st' → goodByListener st → goodByListener st'.
Proof.
  intros H Hg who ip srv sid Hin.
  destruct (exec_inv _ _ _ _ H) as (evs & Htr & _). rewrite Htr in Hin.
  apply elem_of_app in Hin as [Hin|Hin]; [by eapply Hg|].
  pose proof (exec_events _ _ _ _ _ _ H Htr Hin) as Hsrc.
  destruct who as [|w|w]; simpl in Hsrc.
  - by destruct Hsrc as (_ & ? & ?).
  - by destruct Hsrc as (? & _ & _ & ?).
  - by eexists.
Qed.

Lemma run_goodByListener sd sched t m st :
  run sd sched (start t m) = Some st → goodByListener st.
Proof.
  intros H. eapply (run_ind sd goodByListener);
    [apply exec_goodByListener|done|].
  intros ???? Hin. by apply elem_of_nil in Hin.
Qed.

(** C5.  In every state [creep] reaches, a [Good] call in the trace is made
    by the listener of some worker's peer, for that worker's address, and it
    comes after the [Attempt] call of that worker for the same address, after
    the successful dial and after the association of the connection, in this
    order: [Attempt], dial, association, [Good]. *)
Theorem attempt_precedes_good sd sched t m st i who ip srv sid :
  run sd sched (start t m) = Some st →
  trace st !! i = Some (EvCall who (CallGood ip srv sid)) →
  ∃ w x h j k,
    who = ByListener w ∧ workers st !! w = Some x ∧ ip = IP (addr x)
    ∧ (h < j)%nat ∧ (j < k)%nat ∧ (k < i)%nat
    ∧ trace st !! h = Some (EvCall (ByWorker w) (CallAttempt ip))
    ∧ trace st !! j = Some (EvDial w true)
    ∧ trace st !! k = Some (EvAssociate w).
Proof.
  intros Hrun Hi.
  pose proof (list_elem_of_lookup_2 _ _ _ Hi) as Hin.
  destruct (run_goodByListener _ _ _ _ _ Hrun _ _ _ _ Hin) as [w ->].
  destruct (run_ordered _ _ _ _ _ Hrun) as [Ho Hs].
  destruct (workers st !! w) as [x|] eqn:Hw.
  - pose proof (Ho _ _ Hw) as Hox.
    pose proof (ow_good_ip _ _ _ Hox _ _ _ Hin) as ->.
    destruct (ow_before_listener _ _ _ Hox _ _ Hi) as (k & Hk & Hak).
    destruct (ow_before_assoc _ _ _ Hox _ Hak) as (j & Hj & Haj).
    destruct (ow_before_dial _ _ _ Hox _ _ Haj) as (h & Hh & Hah).
    exists w, x, h, j, k. split_and!; done.
  - destruct (Hs _ Hw) as (_ & _ & Hno & _). by destruct (Hno _ Hin).
Qed.

(** *** What a step does to the main loop, the manager and the clock *)

Lemma exec_loop sd l st st' :
  exec sd l st = Some st' →
  (loop st' = loop st ∧ length (workers st') = length (workers st)
   ∧ (∀ seeds, l ≠ LIter seeds) ∧ l ≠ LSpawn ∧ l ≠ LJoin)
  ∨ (∃ seeds, l = LIter seeds ∧ loop st = Top ∧ st' = iterate sd seeds st)
  ∨ (l = LSpawn ∧ ∃ a rest, loop st = Spawning (a :: rest)
     ∧ (loop st' = WaitingShutdown ∧ workers st' = workers st
        ∨ loop st' = Spawning rest ∧ workers st' = workers st ++ [fresh a]))
  ∨ (l = LJoin ∧ resting (loop st') ∧ workers st' = workers st).
Proof.
  intros H. exec_cases H; simpl.
  all: try (left; split_and!; [done|by rewrite ?length_insert|done..]).
  - right; left. by eexists.
  - right; right; left. split; [done|]. eexists _, _. split; [done|]. by left.
  - right; right; left. split; [done|]. eexists _, _. split; [done|]. by right.
  - right; right; right. split_and!; [done|by left|done].
  - right; right; right. split_and!; [done|by right|done].
Qed.

Lemma iterate_amgr sd seeds st :
  amgr (iterate sd seeds st) = (candidates (now st) seeds (amgr st)).1.1.
Proof.
  unfold iterate. destruct (candidates _ _ _) as [[m peers] evs]; simpl.
  destruct (length peers =? 0)%nat; [|done]. by destruct (idleSleep _ _).
Qed.

Lemma exec_store sd l st st' :
  exec sd l st = Some st' → amgr st' = storeAfter l st.
Proof.
  intros H. exec_cases H; simpl; try done.
  apply iterate_amgr.
Qed.

Lemma idleLoop_later sd n t : t ≤ (idleLoop sd n t).1.
Proof.
  revert t. induction n as [|n IH]; intros t; simpl; [lia|].
  destruct (shutdownSet sd (t + Second)); simpl.
  - unfold Second. lia.
  - specialize (IH (t + Second)). unfold Second in *. lia.
Qed.

Lemma iterate_now sd seeds st :
  now st ≤ now (iterate sd seeds st)
  ∧ (∀ peers, loop (iterate sd seeds st) = Spawning peers →
       now (iterate sd seeds st) = now st
       ∧ peers = Manager.Addresses (now st) (amgr (iterate sd seeds st))).
Proof.
  unfold iterate, candidates.
  destruct (_ && _); simpl.
  - destruct (length (Manager.Addresses _ (seedAll _ _ _)) =? 0)%nat eqn:E.
    + pose proof (idleLoop_later sd 600 (now st)) as Hl. unfold idleSleep.
      destruct (idleLoop sd 600 (now st)) as [t []]; simpl in *; split; done.
    + simpl. split; [lia|]. by intros ? [= <-].
  - destruct (length (Manager.Addresses _ _) =? 0)%nat eqn:E.
    + pose proof (idleLoop_later sd 600 (now st)) as Hl. unfold idleSleep.
      destruct (idleLoop sd 600 (now st)) as [t []]; simpl in *; split; done.
    + simpl. split; [lia|]. by intros ? [= <-].
Qed.

(** The clock does not go back. *)
Lemma exec_now sd l st st' : exec sd l st = Some st' → now st ≤ now st'.
Proof.
  intros H. exec_cases H; simpl; try lia.
  apply iterate_now.
Qed.

Lemma wstep_done w t x l evs x' :
  wstep w t x l evs x' → isDone x = true → isDone x' = true.
Proof. unfold isDone. destruct 1; simpl; intros; repeat case_match; congruence. Qed.

(** *** The addresses being crawled are distinct *)

(** A worker found running after a step was running before it with the same
    address, or has just been spawned for the head of the pending list. *)
Lemma exec_running_back sd l st st' w x' :
  exec sd l st = Some st' → workers st' !! w = Some x' → isDone x' = false →
  (∃ x, workers st !! w = Some x ∧ addr x' = addr x ∧ isDone x = false)
  ∨ (w = length (workers st) ∧ l = LSpawn
     ∧ ∃ a rest, x' = fresh a ∧ loop st = Spawning (a :: rest)
                 ∧ loop st' = Spawning rest).
Proof.
  intros H Hx' Hd. destruct (exec_inv _ _ _ _ H) as (evs & Htr & Hws).
  destruct (Hws w x' Hx') as [Hsame|[(Hnone & -> & -> & a & rest & -> & Hl)|
    (x & Hx & Hstep)]].
  - left. by exists x'.
  - right. destruct (exec_loop _ _ _ _ H) as
      [(_ & _ & _ & ? & _)|[(? & ? & _)|[(_ & a' & rest' & Hl' & Hcase)|(? & _)]]];
      try done.
    rewrite Hl in Hl'. injection Hl' as <- <-.
    destruct Hcase as [[_ Heq]|[? Heq]].
    + rewrite Heq in Hx'. congruence.
    + rewrite Heq in Hx'. apply lookup_app_Some in Hx' as [?|[? Hx']];
        [congruence|].
      apply list_lookup_singleton_Some in Hx' as [? _].
      apply lookup_ge_None in Hnone. split_and!; [lia|done|].
      by eexists _, _.
  - left. exists x. split_and!; [done|by eapply wstep_addr|].
    destruct (isDone x) eqn:E; [|done].
    by rewrite (wstep_done _ _ _ _ _ _ Hstep E) in Hd.
Qed.

Lemma exec_distinct sd l st st' :
  exec sd l st = Some st' → wf st → distinct st → distinct st'.
Proof.
  intros H [_ Hrest] [Hd1 Hd2]. split.
  - intros w1 w2 x1 x2 H1 H2 Ha1 Ha2 Hip.
    destruct (exec_running_back _ _ _ _ _ _ H H1 Ha1)
      as [(y1 & Hy1 & Hadr1 & Hr1)|(-> & _ & a1 & r1 & -> & Hl1 & _)];
    destruct (exec_running_back _ _ _ _ _ _ H H2 Ha2)
      as [(y2 & Hy2 & Hadr2 & Hr2)|(-> & _ & a2 & r2 & -> & Hl2 & _)];
      try done.
    + eapply Hd1; [done..|]. congruence.
    + destruct (Hd2 _ Hl2) as [_ Hn]. destruct (Hn _ _ Hy1 Hr1).
      rewrite <-Hadr1, Hip. simpl. apply list_elem_of_here.
    + destruct (Hd2 _ Hl1) as [_ Hn]. destruct (Hn _ _ Hy2 Hr2).
      rewrite <-Hadr2, <-Hip. simpl. apply list_elem_of_here.
  - intros pend Hl.
    destruct (exec_loop _ _ _ _ H) as
      [(Hsame & _ & _ & Hns & _)|[(seeds & -> & Htop & ->)
       |[(-> & a & rest & Hl' & Hcase)|(_ & Hr & _)]]].
    + rewrite Hsame in Hl. destruct (Hd2 _ Hl) as [Hnd Hn]. split; [done|].
      intros w x' Hx' Ha.
      destruct (exec_running_back _ _ _ _ _ _ H Hx' Ha)
        as [(y & Hy & -> & Hr)|(_ & ? & _)]; [|done].
      by eapply Hn.
    + destruct (iterate_now sd seeds st) as [_ Hp].
      destruct (Hp _ Hl) as [_ ->]. split; [apply ManagerFacts.NoDup_Addresses|].
      intros w x. rewrite iterate_workers. intros Hx Ha.
      assert (Forall (λ x, isDone x = true) (workers st)) as Hall
        by (apply Hrest; by left).
      rewrite Forall_forall in Hall.
      rewrite (Hall x) in Ha; [done|]. by eapply list_elem_of_lookup_2.
    + destruct (Hd2 _ Hl') as [Hnd Hn].
      destruct Hcase as [[? _]|[Hl'' Hws]]; [congruence|].
      rewrite Hl in Hl''. injection Hl'' as ->.
      rewrite fmap_cons in Hnd. apply NoDup_cons in Hnd as [Hna Hnd].
      split; [done|]. intros w x' Hx' Ha.
      destruct (exec_running_back _ _ _ _ _ _ H Hx' Ha)
        as [(y & Hy & -> & Hr)|(_ & _ & a' & r' & -> & Hla & _)].
      * intros Hin. destruct (Hn _ _ Hy Hr). rewrite fmap_cons.
        by apply list_elem_of_further.
      * simpl. rewrite Hl' in Hla. by injection Hla as <- <-.
    + destruct Hr; congruence.
Qed.

Lemma start_distinct t m : distinct (start t m).
Proof. split; simpl; [done|]. by intros. Qed.

Lemma run_wf_distinct sd sched st st' :
  run sd sched st = Some st' → wf st ∧ distinct st → wf st' ∧ distinct st'.
Proof.
  apply (run_ind sd (λ st, wf st ∧ distinct st)).
  intros l s s' H [Hw Hd]. split; [by eapply exec_wf|by eapply exec_distinct].
Qed.

Lemma run_distinct sd sched t m st :
  run sd sched (start t m) = Some st → distinct st.
Proof.
  intros H. eapply run_wf_distinct; [done|].
  split; [apply start_wf|apply start_distinct].
Qed.

(** *** Single steps, spelled out *)

Lemma exec_LNewPeer_false sd w st st' :
  exec sd (LNewPeer w false) st = Some st' →
  ∃ x, workers st !! w = Some x ∧ pc x = AtNewPeer
       ∧ st' = mkState (now st) (amgr st) (loop st)
                 (<[w := finish false x]> (workers st))
                 (trace st ++ [EvLog (LogNewPeerErr w)]).
Proof.
  simpl. intros H. simplify_option_eq. repeat case_match; simplify_eq.
  eexists. by split_and!.
Qed.

Lemma exec_LAttempt sd w st st' :
  exec sd (LAttempt w) st = Some st' →
  ∃ x, workers st !! w = Some x ∧ pc x = AtAttempt
       ∧ st' = mkState (now st)
                 (Manager.Attempt (now st) (IP (addr x)) (amgr st)) (loop st)
                 (<[w := setPC AtDial x]> (workers st))
                 (trace st ++ [EvCall (ByWorker w) (CallAttempt (IP (addr x)))]).
Proof.
  simpl. intros H. simplify_option_eq. repeat case_match; simplify_eq.
  eexists. by split_and!.
Qed.

Lemma exec_LVersion sd w srv sid st st' :
  exec sd (LVersion w srv sid) st = Some st' →
  ∃ x, workers st !! w = Some x ∧ peer x = Reading false
       ∧ disconnected x = false
       ∧ st' = mkState (now st)
                 (Manager.Good (now st) (IP (addr x)) srv sid (amgr st))
                 (loop st) (<[w := setPeer SendVersion x]> (workers st))
                 (trace st ++ [EvLog (LogAddingPeer w);
                               EvCall (ByListener w)
                                 (CallGood (IP (addr x)) srv sid);
                               EvQueueGetAddr w]).
Proof.
  simpl. intros H. simplify_option_eq. repeat case_match; simplify_eq.
  eexists. by split_and!.
Qed.

Lemma exec_LAddrTimeout sd w st st' :
  exec sd (LAddrTimeout w) st = Some st' →
  ∃ x d, workers st !! w = Some x ∧ pc x = WaitAddr d ∧ d ≤ now st
       ∧ st' = mkState (now st) (amgr st) (loop st)
                 (<[w := finish true x]> (workers st))
                 (trace st ++ [EvLog (LogGetaddrTimeout w); EvDisconnect w]).
Proof.
  simpl. intros H. simplify_option_eq. repeat case_match; simplify_eq.
  eexists _, _. split_and!; try done. by apply Z.leb_le.
Qed.

Lemma exec_LVersionTimeout sd w st st' :
  exec sd (LVersionTimeout w) st = Some st' →
  ∃ x d, workers st !! w = Some x ∧ pc x = WaitVersion d ∧ d ≤ now st
       ∧ st' = mkState (now st) (amgr st) (loop st)
                 (<[w := finish true x]> (workers st))
                 (trace st ++ [EvLog (LogVersionTimeout w); EvDisconnect w]).
Proof.
  simpl. intros H. simplify_option_eq. repeat case_match; simplify_eq.
  eexists _, _. split_and!; try done. by apply Z.leb_le.
Qed.

Lemma seedAll_keeps t seeds (m : Manager.t) ip e :
  m !! ip = Some e → seedAll t seeds m !! ip = Some e.
Proof.
  unfold seedAll. revert m. induction seeds as [|addrs seeds IH]; intros m H;
    simpl; [done|].
  by apply IH, ManagerFacts.AddAddresses_keeps.
Qed.

Lemma candidates_keeps t seeds (m : Manager.t) ip e :
  m !! ip = Some e → (candidates t seeds m).1.1 !! ip = Some e.
Proof.
  unfold candidates. intros H. case_match; simpl; [|done].
  by apply seedAll_keeps.
Qed.

Lemma wf_reading_running x b :
  wfWorker x → peer x = Reading b → disconnected x = false → isDone x = false.
Proof.
  unfold wfWorker, isDone. intros Hwf Hp Hd.
  destruct (pc x); try done. destruct Hwf; congruence.
Qed.

(** A step leaves an entry of the manager as it is, unless the step is the
    [Attempt] of a running worker for that IP, or the [Good] of the listener
    of a running worker for that IP. *)
Lemma exec_store_frame sd l st st' ip e :
  exec sd l st = Some st' → wf st → amgr st !! ip = Some e →
  amgr st' !! ip = Some e
  ∨ ∃ w x, workers st !! w = Some x ∧ isDone x = false ∧ IP (addr x) = ip
           ∧ (l = LAttempt w ∨ ∃ srv sid, l = LVersion w srv sid).
Proof.
  intros H [Hwf _] He.
  destruct l; try (left; rewrite (exec_store _ _ _ _ H); simpl; done).
  - left. rewrite (exec_store _ _ _ _ H). simpl. by apply candidates_keeps.
  - destruct (exec_LAttempt _ _ _ _ H) as (x & Hx & Hpc & ->). simpl.
    destruct (decide (IP (addr x) = ip)) as [<-|Hne].
    + right. exists w, x. split_and!; [done| |done|by left].
      unfold isDone. by rewrite Hpc.
    + left. by rewrite ManagerFacts.Attempt_lookup, decide_False.
  - destruct (exec_LVersion _ _ _ _ _ _ H) as (x & Hx & Hp & Hdc & ->). simpl.
    destruct (decide (IP (addr x) = ip)) as [<-|Hne].
    + right. exists w, x. split_and!; [done| |done|right; by eexists _, _].
      eapply wf_reading_running; [|done..].
      rewrite Forall_forall in Hwf. apply Hwf. by eapply list_elem_of_lookup_2.
    + left. by rewrite ManagerFacts.Good_lookup, decide_False.
  - left. rewrite (exec_store _ _ _ _ H). simpl.
    by apply ManagerFacts.AddAddresses_keeps.
Qed.

(** *** Candidates stay eligible until their [Attempt] *)

Lemma early_running x : early x → isDone x = false.
Proof. unfold early, isDone. by intros [->| ->]. Qed.

Lemma Addresses_frame t t' (m m' : Manager.t) a :
  a ∈ Manager.Addresses t m → t ≤ t' → m' !! IP a = m !! IP a →
  a ∈ Manager.Addresses t' m'.
Proof.
  rewrite !ManagerFacts.elem_of_Addresses. intros (e & He & Hel & ? & ?) Ht Hm.
  exists e. rewrite Hm. split_and!; try done.
  by eapply ManagerFacts.eligible_mono.
Qed.

Lemma wstep_early_back w t x l evs x' :
  wstep w t x l evs x' → wfWorker x → early x' →
  early x ∧ (∀ w', l ≠ LAttempt w') ∧ (∀ w' srv sid, l ≠ LVersion w' srv sid).
Proof.
  unfold early, wfWorker.
  destruct 1; simpl; intros Hwf [Hpc|Hpc]; simplify_eq;
    try (rewrite Hpc in Hwf; destruct Hwf; congruence);
    split_and!; try done; by (left + right).
Qed.

Lemma exec_candidatesEligible sd l st st' :
  exec sd l st = Some st' → wf st → distinct st →
  candidatesEligible st → candidatesEligible st'.
Proof.
  intros H Hwf [Hd1 Hd2] [He1 He2].
  pose proof (exec_now _ _ _ _ H) as Hnow.
  assert (∀ a, a ∈ Manager.Addresses (now st) (amgr st) →
            (∀ w x, workers st !! w = Some x → isDone x = false →
                    IP (addr x) = IP a →
                    (l = LAttempt w ∨ ∃ srv sid, l = LVersion w srv sid) →
                    False) →
            a ∈ Manager.Addresses (now st') (amgr st'))
    as Hkeep.
  { intros a Ha Hno. eapply Addresses_frame; [done..|].
    pose proof Ha as Ha'.
    apply ManagerFacts.elem_of_Addresses in Ha' as (e & Hm & _).
    destruct (exec_store_frame _ _ _ _ _ _ H Hwf Hm)
      as [->|(w & x & Hx & Hr & Hip & Hl)]; [done|].
    destruct (Hno _ _ Hx Hr Hip Hl). }
  split.
  - intros w x' Hx' Hearly.
    destruct (exec_inv _ _ _ _ H) as (evs & Htr & Hws).
    destruct (Hws w x' Hx') as [Hsame|[(Hnone & -> & -> & a & rest & -> & Hl)|
      (x & Hx & Hstep)]].
    + apply Hkeep; [by eapply He1|].
      intros w2 x2 Hx2 Hr2 Hip Hl.
      assert (w2 = w) as -> by
        (eapply Hd1; [done..|by apply early_running|done]).
      assert (x2 = x') as -> by congruence.
      destruct Hl as [->|(srv & sid & ->)].
      * destruct (exec_LAttempt _ _ _ _ H) as (x & Hx & Hpc & ->).
        assert (x = x') as -> by congruence.
        simpl in Hx'.
        rewrite list_lookup_insert_eq in Hx' by by eapply lookup_lt_Some.
        injection Hx' as Hx'. rewrite <-Hx' in Hpc. simpl in Hpc. done.
      * destruct (exec_LVersion _ _ _ _ _ _ H) as (x & Hx & Hp & _).
        assert (x = x') as -> by congruence.
        destruct Hwf as [Hwf _]. rewrite Forall_forall in Hwf.
        pose proof (Hwf _ (list_elem_of_lookup_2 _ _ _ Hx2)) as Hw.
        unfold wfWorker in Hw. destruct Hearly as [Hpc|Hpc];
          rewrite Hpc in Hw; destruct Hw; congruence.
    + apply Hkeep; [|by intros ????? [?|(?&?&?)]].
      eapply He2; [done|]. apply list_elem_of_here.
    + destruct Hwf as [Hwf Hwl]. rewrite Forall_forall in Hwf.
      pose proof (Hwf _ (list_elem_of_lookup_2 _ _ _ Hx)) as Hw.
      destruct (wstep_early_back _ _ _ _ _ _ Hstep Hw Hearly)
        as (Hex & Hna & Hnv).
      rewrite (wstep_addr _ _ _ _ _ _ Hstep).
      apply Hkeep; [by eapply He1|].
      intros w2 x2 _ _ _ [->|(srv & sid & ->)]; [by eapply Hna|by eapply Hnv].
  - intros pend a Hl Ha.
    destruct (exec_loop _ _ _ _ H) as
      [(Hsame & _ & _ & Hns & _)|[(seeds & -> & Htop & ->)
       |[(-> & a' & rest & Hl' & Hcase)|(_ & Hr & _)]]].
    + rewrite Hsame in Hl. apply Hkeep; [by eapply He2|].
      intros w x Hx Hr Hip _. destruct (Hd2 _ Hl) as [_ Hn].
      destruct (Hn _ _ Hx Hr). rewrite Hip. by apply list_elem_of_fmap_2.
    + destruct (iterate_now sd seeds st) as [_ Hp].
      destruct (Hp _ Hl) as [-> ->]. done.
    + destruct Hcase as [[? _]|[Hl'' _]]; [congruence|].
      rewrite Hl in Hl''. injection Hl'' as ->.
      apply Hkeep; [|by intros ????? [?|(?&?&?)]].
      eapply He2; [done|]. by apply list_elem_of_further.
    + destruct Hr; congruence.
Qed.

Lemma start_candidatesEligible t m : candidatesEligible (start t m).
Proof. split; simpl; [done|]. by intros. Qed.

Lemma run_candidatesEligible sd sched t m st :
  run sd sched (start t m) = Some st → candidatesEligible st.
Proof.
  intros H.
  cut (wf st ∧ distinct st ∧ candidatesEligible st); [tauto|].
  eapply (run_ind sd (λ st, wf st ∧ distinct st ∧ candidatesEligible st));
    [|done|].
  - intros l s s' Hs (Hw & Hd & He). split_and!;
      [by eapply exec_wf|by eapply exec_distinct
      |by eapply exec_candidatesEligible].
  - split_and!; [apply start_wf|apply start_distinct
                |apply start_candidatesEligible].
Qed.

(** *** Workers that make no call *)

Lemma exec_event_label sd l st st' evs e :
  exec sd l st = Some st' → trace st' = trace st ++ evs → e ∈ evs →
  eventLabel l e.
Proof.
  intros H Htr He.
  assert ((∃ seeds, l = LIter seeds) ∨ (∀ seeds, l ≠ LIter seeds))
    as [[seeds ->]|Hni] by (destruct l; eauto).
  - destruct (iterate_trace_logs sd seeds st) as (evs' & Htr' & Hlogs).
    simpl in H. destruct (loop st); simplify_eq.
    rewrite Htr' in Htr. apply app_inv_head in Htr. subst evs.
    apply elem_of_app in He as [He|He].
    + apply candidates_events in He as [->|[addrs ->]]; done.
    + by destruct (Hlogs _ He) as [line ->].
  - revert Htr He. exec_cases H; simpl; intros Htr He;
      try (exfalso; by eapply Hni).
    all: try (rewrite <-(app_nil_r (trace st)) in Htr at 1;
              apply app_inv_head in Htr; subst; by apply elem_of_nil in He).
    all: rewrite <-?app_assoc in Htr; apply app_inv_head in Htr; subst;
         simpl in He; set_unfold in He;
         repeat (destruct He as [He|He]); subst; simpl; done.
Qed.

Lemma wf_lookup st w x : wf st → workers st !! w = Some x → wfWorker x.
Proof.
  intros [Hwf _] Hx. rewrite Forall_forall in Hwf. apply Hwf.
  by eapply list_elem_of_lookup_2.
Qed.

Lemma early_no_listener st w x e c :
  wf st → workers st !! w = Some x → early x →
  e = EvCall (ByListener w) c → eventSource st e → False.
Proof.
  intros Hwf Hx Hearly -> (x0 & Hx0 & _ & Hp).
  assert (x0 = x) as -> by congruence.
  pose proof (wf_lookup _ _ _ Hwf Hx) as Hw. unfold wfWorker in Hw.
  destruct Hearly as [Hpc|Hpc]; rewrite Hpc in Hw; destruct Hw as [Hn _];
    destruct Hp as [[? _]|[? _]]; congruence.
Qed.

Lemma exec_earlyQuiet sd l st st' :
  exec sd l st = Some st' → wf st → ordered st → earlyQuiet st → earlyQuiet st'.
Proof.
  intros H Hwf [_ Hs] Hq w x' Hx' Hearly.
  destruct (exec_inv _ _ _ _ H) as (evs & Htr & Hws).
  destruct (Hws w x' Hx') as [Hsame|[(Hnone & -> & -> & a & rest & -> & Hl)|
    (x & Hx & Hstep)]].
  - rewrite Htr. intros c. destruct (Hq _ _ Hsame Hearly c) as [Hq1 Hq2].
    split; intros [Hin|Hin]%elem_of_app; [done| |done|].
    + pose proof (exec_event_label _ _ _ _ _ _ H Htr Hin) as Hl. simpl in Hl.
      subst l. destruct (exec_LAttempt _ _ _ _ H) as (x & Hx & Hpc & ->).
      assert (x = x') as -> by congruence. simpl in Hx'.
      rewrite list_lookup_insert_eq in Hx' by by eapply lookup_lt_Some.
      injection Hx' as Hx'. rewrite <-Hx' in Hpc. done.
    + eapply early_no_listener; [done..|].
      by eapply exec_events.
  - rewrite Htr, app_nil_r. destruct (Hs _ Hnone) as (_ & _ & H3 & H4).
    intros c. by split.
  - pose proof (wf_lookup _ _ _ Hwf Hx) as Hw.
    destruct (wstep_early_back _ _ _ _ _ _ Hstep Hw Hearly) as (Hex & Hna & Hnv).
    rewrite Htr. intros c. destruct (Hq _ _ Hx Hex c) as [Hq1 Hq2].
    split; intros [Hin|Hin]%elem_of_app; [done| |done|].
    + pose proof (exec_event_label _ _ _ _ _ _ H Htr Hin) as Hl. simpl in Hl.
      by eapply Hna.
    + eapply early_no_listener; [done..|].
      by eapply exec_events.
Qed.

Lemma run_earlyQuiet sd sched t m st :
  run sd sched (start t m) = Some st → earlyQuiet st.
Proof.
  intros H.
  cut (wf st ∧ ordered st ∧ earlyQuiet st); [tauto|].
  eapply (run_ind sd (λ st, wf st ∧ ordered st ∧ earlyQuiet st)); [|done|].
  - intros l s s' Hs (Hw & Ho & He). split_and!;
      [by eapply exec_wf|by eapply exec_ordered|by eapply exec_earlyQuiet].
  - split_and!; [apply start_wf|apply start_ordered|done].
Qed.

Lemma exec_retired sd l st st' w x calls :
  exec sd l st = Some st' → retired w x calls st → retired w x calls st'.
Proof.
  intros H (Hx & Hpc & Hp & Hc).
  destruct (exec_inv _ _ _ _ H) as (evs & Htr & Hws).
  assert (workers st' !! w = Some x) as Hx'.
  { destruct (workers st' !! w) as [x'|] eqn:E.
    - destruct (Hws w x' E) as [?|[(? & _)|(x0 & Hx0 & Hstep)]];
        [congruence|congruence|].
      assert (x0 = x) as -> by congruence.
      destruct Hstep; congruence.
    - destruct (exec_workers _ _ _ _ H) as (ws & new & Hws' & H2 & _).
      apply Forall2_length in H2. apply lookup_lt_Some in Hx.
      apply lookup_ge_None in E. rewrite Hws', length_app in E. lia. }
  split_and!; try done. intros who c Hwho. rewrite <-Hc by done.
  rewrite Htr, elem_of_app. split; [|by left].
  intros [?|Hin]; [done|].
  pose proof (exec_events _ _ _ _ _ _ H Htr Hin) as Hsrc.
  destruct Hwho as [-> | ->]; simpl in Hsrc.
  - destruct Hsrc as (x0 & Hx0 & ? & _). congruence.
  - destruct Hsrc as (x0 & Hx0 & _ & [[? _]|[? _]]); congruence.
Qed.

(** C9.  In a state [creep] can reach, let the [NewOutboundPeer] of worker
    [w] fail.  The worker stood before its [Attempt], and the step makes it
    return at once: it leaves the manager and the clock as they are, adds
    the log line and nothing else to the trace, and the worker has made no
    call on the manager so far and makes none in any continuation, so that
    no [Attempt] for this address is made on this worker's behalf.  Its
    address is returned by [Addresses] in the state right after the failure,
    and at any later instant as long as the manager is as the failure left
    it. *)
Theorem newpeer_failure_leaves_store sd sched t m st w st' :
  run sd sched (start t m) = Some st →
  exec sd (LNewPeer w false) st = Some st' →
  ∃ x, workers st !! w = Some x ∧ pc x = AtNewPeer
    ∧ amgr st' = amgr st ∧ now st' = now st
    ∧ trace st' = trace st ++ [EvLog (LogNewPeerErr w)]
    ∧ workers st' !! w = Some (mkWorker (addr x) Done NoConn false)
    ∧ (∀ sched' st'', run sd sched' st' = Some st'' →
         ∀ c, (EvCall (ByWorker w) c ∉ trace st'')
              ∧ (EvCall (ByListener w) c ∉ trace st''))
    ∧ (∀ t', now st' ≤ t' → addr x ∈ Manager.Addresses t' (amgr st')).
Proof.
  intros Hrun H.
  destruct (exec_LNewPeer_false _ _ _ _ H) as (x & Hx & Hpc & ->). simpl.
  pose proof (run_wf _ _ _ _ _ Hrun) as Hwf.
  pose proof (wf_lookup _ _ _ Hwf Hx) as Hw. unfold wfWorker in Hw.
  rewrite Hpc in Hw. destruct Hw as [Hp Hd].
  assert (early x) as Hearly by by left.
  pose proof (run_earlyQuiet _ _ _ _ _ Hrun _ _ Hx Hearly) as Hq.
  pose proof (run_candidatesEligible _ _ _ _ _ Hrun) as [He _].
  exists x. split_and!; try done.
  - rewrite list_lookup_insert_eq by by eapply lookup_lt_Some.
    unfold finish. by rewrite Hp, Hd.
  - intros sched' st'' Hrun'.
    assert (retired w (finish false x) [] st'') as (_ & _ & _ & Hc).
    { eapply (run_ind sd (retired w (finish false x) []));
        [intros ???; apply exec_retired|done|].
      split_and!; simpl; try done.
      - by apply list_lookup_insert_eq, lookup_lt_Some with x.
      - intros who c Hwho. split; [|by intros ?%elem_of_nil].
        intros [Hin|Hin]%elem_of_app.
        + destruct (Hq c) as [H1 H2]. by destruct Hwho as [-> | ->].
        + set_unfold in Hin. by destruct Hin as [?|[]]. }
    intros c. split; intros Hin; apply Hc in Hin; try by apply elem_of_nil in Hin.
    + by left.
    + by right.
  - intros t' Ht'. eapply Addresses_frame; [by eapply He|done..].
Qed.

(** *** The entry of a crawled address, from [Good] on *)

Lemma exec_done_stays sd l st st' w x :
  exec sd l st = Some st' → workers st !! w = Some x → isDone x = true →
  ∃ x', workers st' !! w = Some x' ∧ isDone x' = true.
Proof.
  intros H Hx Hd. destruct (exec_workers _ _ _ _ H) as (ws & new & -> & H2 & _).
  destruct (Forall2_lookup_l _ _ _ _ _ H2 Hx) as (x' & Hx' & Hrtc).
  exists x'. split; [by apply lookup_app_l_Some|by eapply wtrans_done].
Qed.

Lemma run_done_stays sd sched st st' w x :
  run sd sched st = Some st' → workers st !! w = Some x → isDone x = true →
  ∃ x', workers st' !! w = Some x' ∧ isDone x' = true.
Proof.
  revert st x. induction sched as [|l sched IH]; intros st x H Hx Hd;
    simpl in H; simplify_option_eq; [by eauto|].
  destruct (exec_done_stays _ _ _ _ _ _ Heqo Hx Hd) as (x1 & Hx1 & Hd1).
  by eapply IH.
Qed.

Lemma wstep_versionSeen w t x l evs x' :
  wstep w t x l evs x' → wfWorker x → versionSeen x → versionSeen x'.
Proof.
  unfold versionSeen, wfWorker.
  destruct 1; simpl; intros Hwf Hv; try done;
    try (right; by left); try (by left); try (right; by right).
  - rewrite H in Hwf. destruct Hwf as [Hn _]. rewrite Hn in Hv.
    destruct Hv as [?|[?|?]]; done.
Qed.

Lemma exec_tracked sd l st st' w a e :
  exec sd l st = Some st' → wf st → distinct st → tracked w a e st →
  (∀ x, workers st !! w = Some x → isDone x = false) →
  tracked w a e st'.
Proof.
  intros H Hwf [Hd1 _] (He & x & Hx & Ha & Hv) Hrun.
  pose proof (wf_lookup _ _ _ Hwf Hx) as Hw.
  split.
  - destruct (exec_store_frame _ _ _ _ _ _ H Hwf He)
      as [?|(w2 & x2 & Hx2 & Hr2 & Hip & Hl)]; [done|].
    assert (w2 = w) as ->.
    { eapply Hd1; [done..|by apply Hrun|congruence]. }
    assert (x2 = x) as -> by congruence.
    destruct Hl as [->|(srv & sid & ->)].
    + destruct (exec_LAttempt _ _ _ _ H) as (x0 & Hx0 & Hpc & _).
      assert (x0 = x) as -> by congruence.
      unfold wfWorker in Hw. rewrite Hpc in Hw. destruct Hw as [Hn _].
      unfold versionSeen in Hv. rewrite Hn in Hv. by destruct Hv as [?|[?|?]].
    + destruct (exec_LVersion _ _ _ _ _ _ H) as (x0 & Hx0 & Hp & _).
      assert (x0 = x) as -> by congruence.
      unfold versionSeen in Hv. rewrite Hp in Hv. by destruct Hv as [?|[?|?]].
  - destruct (exec_inv _ _ _ _ H) as (evs & Htr & Hws).
    destruct (exec_workers _ _ _ _ H) as (ws & new & Hws' & H2 & _).
    destruct (Forall2_lookup_l _ _ _ _ _ H2 Hx) as (x' & Hx' & Hrtc).
    assert (workers st' !! w = Some x') as Hx''
      by (rewrite Hws'; by apply lookup_app_l_Some).
    exists x'. split; [done|]. split.
    + rewrite <-Ha. by eapply wtrans_addr.
    + destruct (Hws w x' Hx'') as [Hsame|[(Hnone & _)|(x0 & Hx0 & Hstep)]].
      * by assert (x' = x) as -> by congruence.
      * congruence.
      * assert (x0 = x) as -> by congruence.
        by eapply wstep_versionSeen.
Qed.

Lemma run_tracked sd sched st st' w a e :
  run sd sched st = Some st' → wf st → distinct st → tracked w a e st →
  (∀ x', workers st' !! w = Some x' → isDone x' = false) →
  tracked w a e st'.
Proof.
  revert st. induction sched as [|l sched IH]; intros st H Hwf Hd Ht Hrun;
    simpl in H; simplify_option_eq; [done|].
  eapply IH; [done|by eapply exec_wf|by eapply exec_distinct| |done].
  eapply exec_tracked; [done..|].
  intros x Hx. destruct (isDone x) eqn:E; [|done].
  destruct (exec_done_stays _ _ _ _ _ _ Heqo Hx E) as (x1 & Hx1 & Hd1).
  destruct (run_done_stays _ _ _ _ _ _ H Hx1 Hd1) as (x2 & Hx2 & Hd2).
  by rewrite (Hrun _ Hx2) in Hd2.
Qed.

(** C10.  Let the version message of the remote node reach the listener of
    worker [w]'s peer, which calls [Good] at that instant, and let the wait
    of that worker for the [addr] message time out later, whatever [creep]
    does in between.  The time-out step adds the log line and the
    disconnection to the trace, makes the worker return, and leaves the
    manager as it is; and the entry of the worker's address is then still
    the one [Good] wrote: [lastSuccess] the instant of the version message,
    [services] and [subnetworkID] those of the message. *)
Theorem addr_timeout_keeps_good sd sched1 t m st0 w srv sid st1 sched2 st2 st3 :
  run sd sched1 (start t m) = Some st0 →
  exec sd (LVersion w srv sid) st0 = Some st1 →
  run sd sched2 st1 = Some st2 →
  exec sd (LAddrTimeout w) st2 = Some st3 →
  ∃ x e,
    workers st0 !! w = Some x
    ∧ amgr st1 !! IP (addr x) = Some e
    ∧ Manager.lastSuccess e = now st0 ∧ Manager.services e = srv
    ∧ Manager.subnetworkID e = Some sid
    ∧ amgr st2 !! IP (addr x) = Some e
    ∧ amgr st3 = amgr st2
    ∧ trace st3 = trace st2 ++ [EvLog (LogGetaddrTimeout w); EvDisconnect w]
    ∧ ∃ x3, workers st3 !! w = Some x3 ∧ pc x3 = Done
            ∧ disconnected x3 = true ∧ addr x3 = addr x.
Proof.
  intros Hrun0 Hv Hrun2 Hto.
  destruct (exec_LVersion _ _ _ _ _ _ Hv) as (x & Hx & Hp & Hdc & Hst1).
  destruct (exec_LAddrTimeout _ _ _ _ Hto) as (x2 & d & Hx2 & Hpc2 & Hd & ->).
  pose proof (run_wf _ _ _ _ _ Hrun0) as Hwf0.
  pose proof (run_distinct _ _ _ _ _ Hrun0) as Hdis0.
  pose proof (exec_wf _ _ _ _ Hv Hwf0) as Hwf1.
  pose proof (exec_distinct _ _ _ _ Hv Hwf0 Hdis0) as Hdis1.
  set (e := match amgr st0 !! IP (addr x) with
            | Some e0 => Manager.mkEntry (Manager.port e0) srv (Some sid)
                           (Manager.firstSeen e0) (now st0) (now st0)
            | None => Manager.mkEntry 0 srv (Some sid) (now st0) (now st0)
                        (now st0)
            end).
  assert (amgr st1 !! IP (addr x) = Some e) as He1.
  { rewrite Hst1. simpl. rewrite ManagerFacts.Good_lookup.
    by rewrite decide_True. }
  assert (tracked w (addr x) e st1) as Ht1.
  { split; [done|]. rewrite Hst1. simpl.
    exists (setPeer SendVersion x). split_and!; [|done|by left].
    by apply list_lookup_insert_eq, lookup_lt_Some with x. }
  assert (tracked w (addr x) e st2) as (He2 & x2' & Hx2' & Ha2 & _).
  { eapply run_tracked; [done..|]. intros x' Hx'.
    assert (x' = x2) as -> by congruence. unfold isDone. by rewrite Hpc2. }
  assert (x2' = x2) as -> by congruence.
  exists x, e. split_and!; try done.
  - subst e. by destruct (amgr st0 !! IP (addr x)).
  - subst e. by destruct (amgr st0 !! IP (addr x)).
  - subst e. by destruct (amgr st0 !! IP (addr x)).
  - simpl. exists (finish true x2). split_and!; try done.
    + by apply list_lookup_insert_eq, lookup_lt_Some with x2.
    + simpl. apply orb_true_r.
Qed.

End CreepFacts.

(** ** The manager under the program's calls *)

Module StoreFacts.
Import Manager ManagerFacts Creep CreepFacts.

Lemma AddAddresses_servicesUnset t addrs (m : Manager.t) :
  servicesUnset m → servicesUnset (AddAddresses t addrs m).2.
Proof.
  intros Hm ip e He. apply AddAddresses_lookup in He
    as [He|[_ (a & _ & _ & ->)]]; [by eapply Hm|done].
Qed.

Lemma Attempt_servicesUnset t ip (m : Manager.t) :
  servicesUnset m → servicesUnset (Attempt t ip m).
Proof.
  intros Hm ip' e. rewrite Attempt_lookup. case_decide as Hip.
  - destruct (m !! ip) as [e0|] eqn:E; simpl; [|done].
    intros [= <-]. simpl. by eapply Hm.
  - by apply Hm.
Qed.

Lemma Good_servicesUnset t ip srv sid (m : Manager.t) :
  t ≠ 0 → servicesUnset m → servicesUnset (Good t ip srv sid m).
Proof.
  intros Ht Hm ip' e. rewrite Good_lookup. case_decide as Hip.
  - intros [= <-]. by destruct (m !! ip).
  - by apply Hm.
Qed.

Lemma applyCall_servicesUnset t c (m : Manager.t) :
  t ≠ 0 → servicesUnset m → servicesUnset (applyCall t c m).
Proof.
  intros Ht Hm. destruct c; simpl.
  - by apply AddAddresses_servicesUnset.
  - by apply Attempt_servicesUnset.
  - by apply Good_servicesUnset.
Qed.

Lemma seedAll_servicesUnset t seeds (m : Manager.t) :
  servicesUnset m → servicesUnset (seedAll t seeds m).
Proof.
  unfold seedAll. revert m. induction seeds as [|addrs seeds IH]; intros m Hm;
    simpl; [done|].
  by apply IH, AddAddresses_servicesUnset.
Qed.

Lemma exec_servicesUnset sd l st st' :
  exec sd l st = Some st' → 0 < now st →
  servicesUnset (amgr st) → servicesUnset (amgr st').
Proof.
  intros H Ht Hm. rewrite (exec_store _ _ _ _ H).
  destruct l; simpl; try done.
  - unfold candidates. case_match; simpl; [|done].
    by apply seedAll_servicesUnset.
  - case_match; [|done]. by apply Attempt_servicesUnset.
  - case_match; [|done]. apply Good_servicesUnset; [lia|done].
  - by apply AddAddresses_servicesUnset.
Qed.

Lemma main_servicesUnset env m0 amgr p log calls :
  Main.NewManager env = Ok m0 → servicesUnset m0 →
  Main.main env = Main.Running amgr p log calls → servicesUnset amgr.
Proof.
  unfold Main.main. intros -> Hm0.
  destruct (Main.loadConfig env) as [cfg|]; [|done].
  destruct (Main.Atoi env (Main.DefaultPort env)) as [p0|]; [|done].
  destruct (String.length (Main.Seeder cfg) =? 0)%nat; [by intros [= <- _ _ _]|].
  destruct (Main.seederIP env (Main.Seeder cfg)) as [[[ip|] lg]|]; try done.
  - intros [= <- _ _ _]. simpl. by apply AddAddresses_servicesUnset.
  - by intros [= <- _ _ _].
Qed.

(** C3.  Let the manager that [NewManager] returns have no services on any
    entry without a successful version exchange (an empty manager, say).
    Then so has the manager after the start-up of [main], seed injection
    included, and so has the manager in every state [creep] reaches from
    there, the clock being past the zero instant: an entry with
    [lastSuccess = 0] has [services = 0].  In particular the entry made
    for the [--seeder] address, and those made for the addresses of the
    bootstrap resolver, have [services = 0] and [lastSuccess = 0], whatever
    services the inserted addresses carry. *)
Theorem services_zero_until_good (env : Main.Env) m0 amgr p log calls
    sd t sched st :
  Main.NewManager env = Ok m0 → servicesUnset m0 →
  Main.main env = Main.Running amgr p log calls →
  0 < t → run sd sched (start t amgr) = Some st →
  servicesUnset amgr ∧ servicesUnset (Creep.amgr st)
  ∧ (∀ now a (m : Manager.t) e,
       m !! IP a = None → (AddAddresses now [a] m).2 !! IP a = Some e →
       services e = 0 ∧ lastSuccess e = 0)
  ∧ (∀ now seeds (m : Manager.t) ip e,
       m !! ip = None → seedAll now seeds m !! ip = Some e →
       services e = 0 ∧ lastSuccess e = 0).
Proof.
  intros Hnm Hm0 Hmain Ht Hrun.
  pose proof (main_servicesUnset _ _ _ _ _ _ Hnm Hm0 Hmain) as Hm.
  split_and!; [done| | |].
  - cut (0 < now st ∧ servicesUnset (Creep.amgr st)); [tauto|].
    eapply (run_ind sd (λ st, 0 < now st ∧ servicesUnset (Creep.amgr st)));
      [|done|done].
    intros l s s' Hs [Hpos Hsu]. split.
    + pose proof (exec_now _ _ _ _ Hs). lia.
    + by eapply exec_servicesUnset.
  - intros now a m e Hn He.
    apply AddAddresses_lookup in He as [?|[_ (a' & _ & _ & ->)]];
      [congruence|done].
  - intros now seeds.
    induction seeds as [|addrs seeds IH]; intros m ip e Hn He;
      [unfold seedAll in He; simpl in He; congruence|].
    change (seedAll now seeds (AddAddresses now addrs m).2 !! ip = Some e)
      in He.
    destruct ((AddAddresses now addrs m).2 !! ip) as [e'|] eqn:E.
    + rewrite (seedAll_keeps _ seeds _ _ _ E) in He. injection He as <-.
      apply AddAddresses_lookup in E as [?|[_ (a' & _ & _ & ->)]];
        [congruence|done].
    + by eapply IH.
Qed.

(** *** Consecutive [Addresses] calls *)

Lemma applyCall_reported t c (m : Manager.t) ip :
  reports ip c = true → is_Some (m !! ip) →
  ∃ e, applyCall t c m !! ip = Some e ∧ lastAttempt e = t.
Proof.
  intros Hr [e He]. destruct c as [|ip'|ip' srv sid]; simpl in *; [done|..];
    apply bool_decide_eq_true in Hr as ->.
  - rewrite Attempt_lookup, decide_True, He by done. by eexists.
  - rewrite Good_lookup, decide_True, He by done. by eexists.
Qed.

Lemma applyCall_attempted t c (m : Manager.t) ip e lo hi :
  m !! ip = Some e → lo ≤ lastAttempt e ≤ hi → lo ≤ t ≤ hi →
  ∃ e', applyCall t c m !! ip = Some e' ∧ lo ≤ lastAttempt e' ≤ hi.
Proof.
  intros He Hle Ht. destruct c as [addrs|ip'|ip' srv sid]; simpl.
  - exists e. split; [by apply AddAddresses_keeps|done].
  - rewrite Attempt_lookup. case_decide as Hip.
    + subst. rewrite He. by eexists.
    + by exists e.
  - rewrite Good_lookup. case_decide as Hip.
    + subst. rewrite He. by eexists.
    + by exists e.
Qed.

Lemma applyCall_present t c (m : Manager.t) ip :
  is_Some (m !! ip) → is_Some (applyCall t c m !! ip).
Proof.
  intros [e He]. destruct c as [addrs|ip'|ip' srv sid]; simpl.
  - exists e. by apply AddAddresses_keeps.
  - rewrite Attempt_lookup. case_decide; [subst; by rewrite He|by eexists].
  - rewrite Good_lookup. case_decide; by eexists.
Qed.

Lemma applyTimed_attempted cs (m : Manager.t) ip lo hi :
  (∀ tc, tc ∈ cs → lo ≤ tc.1 ≤ hi) →
  (∃ e, m !! ip = Some e ∧ lo ≤ lastAttempt e ≤ hi)
  ∨ is_Some (m !! ip) ∧ (∃ tc, tc ∈ cs ∧ reports ip tc.2 = true) →
  ∃ e, applyTimed cs m !! ip = Some e ∧ lo ≤ lastAttempt e ≤ hi.
Proof.
  unfold applyTimed. revert m.
  induction cs as [|[t c] cs IH]; intros m Ht H; simpl.
  - destruct H as [?|[_ (tc & Hin & _)]]; [done|]. by apply elem_of_nil in Hin.
  - apply IH; [intros tc Hin; apply Ht; by apply list_elem_of_further|].
    assert (lo ≤ t ≤ hi) as Htc by apply (Ht (t, c)), list_elem_of_here.
    destruct H as [(e & He & Hle)|[Hs (tc & Hin & Hr)]].
    + left. by eapply applyCall_attempted.
    + apply elem_of_cons in Hin as [->|Hin].
      * left. simpl in Hr.
        destruct (applyCall_reported t c m ip Hr Hs) as (e & He & Hla).
        exists e. split; [done|lia].
      * right. split; [by apply applyCall_present|by exists tc].
Qed.

End StoreFacts.

(** ** Consecutive [Addresses] calls *)

Module Consecutive.
Import Manager ManagerFacts CreepFacts StoreFacts Scenario.

(** The two addresses of the scenario are both candidates. *)
Lemma twoPeers_Addresses :
  Addresses t0 twoPeers
  = [mkNetAddress (IPv4 1 2 3 4) 16111 0; mkNetAddress (IPv4 5 6 7 8) 16111 0].
Proof. vm_compute. reflexivity. Qed.

(** C2, as the claim has it, fails: the manager keeps no in-flight mark, so
    two calls in a row, with nothing reported in between, return the same
    address. *)
Lemma addresses_returned_twice : ¬ inflightDisjoint.
Proof.
  intros H.
  apply (H twoPeers t0 t0 [] (mkNetAddress (IPv4 1 2 3 4) 16111 0)).
  - lia.
  - unfold retryInterval, Second. lia.
  - rewrite twoPeers_Addresses. apply list_elem_of_here.
  - by intros tc ?%elem_of_nil.
  - change (applyTimed [] twoPeers) with twoPeers.
    rewrite twoPeers_Addresses. apply list_elem_of_here.
Qed.

Lemma not_eligible_recent t e lo :
  0 < lo → lo ≤ lastAttempt e ≤ t → t - lo < retryInterval →
  eligible t e = false.
Proof.
  intros H0 Hle Ht. unfold eligible.
  apply orb_false_iff. split; [apply Z.eqb_neq|apply Z.leb_gt]; lia.
Qed.

Lemma applyTimed_unreported cs (m : Manager.t) ip e :
  m !! ip = Some e → (∀ tc, tc ∈ cs → reports ip tc.2 = false) →
  applyTimed cs m !! ip = Some e.
Proof.
  unfold applyTimed. revert m.
  induction cs as [|[t c] cs IH]; intros m He Hn; simpl; [done|].
  apply IH; [|intros tc Hin; apply Hn; by apply list_elem_of_further].
  pose proof (Hn (t, c) (list_elem_of_here _ _)) as Hr. simpl in Hr.
  destruct c as [addrs|ip'|ip' srv sid]; simpl in *.
  - by apply AddAddresses_keeps.
  - apply bool_decide_eq_false in Hr. by rewrite Attempt_lookup, decide_False.
  - apply bool_decide_eq_false in Hr. by rewrite Good_lookup, decide_False.
Qed.

(** C2, amended.  Between two [Addresses] calls less than 60 seconds apart,
    the first after the zero instant, an address returned by the first call
    is absent from the second exactly when it has been reported by an
    [Attempt] or a [Good] in between: reported, it is not returned again;
    not reported, it is returned again. *)
Theorem reported_not_returned (m : Manager.t) t1 t2 cs a :
  0 < t1 → t1 ≤ t2 → t2 - t1 < retryInterval →
  a ∈ Addresses t1 m →
  (∀ tc, tc ∈ cs → t1 ≤ tc.1 ≤ t2) →
  ((∃ tc, tc ∈ cs ∧ reports (IP a) tc.2 = true) →
   IP a ∉ IP <$> Addresses t2 (applyTimed cs m))
  ∧ ((∀ tc, tc ∈ cs → reports (IP a) tc.2 = false) →
     a ∈ Addresses t2 (applyTimed cs m)).
Proof.
  intros H0 H12 H60 Ha Hcs.
  pose proof Ha as Ha'. apply elem_of_Addresses in Ha' as (e & He & Hel & Hp & Hs).
  split.
  - intros Hrep Hin.
    destruct (applyTimed_attempted cs m (IP a) t1 t2 Hcs) as (e' & He' & Hle).
    { right. split; [by eexists|done]. }
    apply list_elem_of_fmap in Hin as (a' & Hip & Hin).
    apply elem_of_Addresses in Hin as (e'' & He'' & Hel' & _).
    rewrite <-Hip, He' in He''. injection He'' as <-.
    by rewrite (not_eligible_recent t2 e' t1) in Hel'.
  - intros Hn. eapply Addresses_frame; [done..|].
    rewrite He. by apply applyTimed_unreported.
Qed.

End Consecutive.

(** ** The scenario, and the theorems at concrete inputs *)

Module Examples.
Import Manager ManagerFacts Creep CreepFacts StoreFacts Consecutive Scenario.
Import Main MainFacts.

(** C1, at a failing input.  Two addresses are crawled in one batch.  The
    node at the second sends its version one second after the connection:
    the listener calls [Good] for it and sends on [onVersion], the one
    channel all workers wait on.  The send is received by the first worker,
    whose own node has sent nothing.  The second worker then runs into its
    three-second deadline: it logs the version time-out, disconnects and
    returns, and its address has been marked good all the same; the first
    worker has gone on to wait for [addr] with no [Good] for its address. *)
Theorem version_timeout_after_good :
  ∃ st, run None crossTalk (start t0 twoPeers) = Some st
    ∧ trace st =
        [EvCall (ByWorker 0) (CallAttempt (IPv4 1 2 3 4));
         EvDial 0 true; EvAssociate 0;
         EvCall (ByWorker 1) (CallAttempt (IPv4 5 6 7 8));
         EvDial 1 true; EvAssociate 1;
         EvLog (LogAddingPeer 1);
         EvCall (ByListener 1)
           (CallGood (IPv4 5 6 7 8) SFNodeNetwork SubnetworkIDSupportsAll);
         EvQueueGetAddr 1;
         EvSignalVersion 1 0;
         EvLog (LogVersionTimeout 1); EvDisconnect 1;
         EvLog (LogGetaddrTimeout 0); EvDisconnect 0]
    ∧ Creep.amgr st !! IPv4 5 6 7 8
      = Some (mkEntry 16111 SFNodeNetwork (Some SubnetworkIDSupportsAll)
                Second (t0 + Second) (t0 + Second))
    ∧ Creep.amgr st !! IPv4 1 2 3 4 = Some (mkEntry 16111 0 None Second t0 0).
Proof.
  exists (stateAfter crossTalk). split_and!; vm_compute; reflexivity.
Qed.

Lemma bootstrapped_trace :
  trace bootstrapped
  = [EvSeedFromDNS; EvCall ByLoop (CallAddAddresses [addrA; addrB])].
Proof. vm_compute. reflexivity. Qed.

Lemma bootstrap_only_when_empty_witness :
  exec None (LIter [[addrA; addrB]]) (start t0 ∅) = Some bootstrapped
  ∧ trace bootstrapped = trace (start t0 ∅) ++ trace bootstrapped
  ∧ EvSeedFromDNS ∈ trace bootstrapped
  ∧ Creep.amgr (start t0 ∅) = ∅.
Proof.
  assert (EvSeedFromDNS ∈ trace bootstrapped) as Hin.
  { rewrite bootstrapped_trace. apply list_elem_of_here. }
  split_and!; [reflexivity|reflexivity|exact Hin|].
  apply (bootstrap_only_when_empty None (LIter [[addrA; addrB]])
           (start t0 ∅) bootstrapped (trace bootstrapped));
    [reflexivity|reflexivity|exact Hin].
Defined.

Lemma attempt_precedes_good_witness :
  run None crossTalk (start t0 twoPeers) = Some (stateAfter crossTalk)
  ∧ trace (stateAfter crossTalk) !! 7%nat
    = Some (EvCall (ByListener 1)
              (CallGood (IPv4 5 6 7 8) SFNodeNetwork SubnetworkIDSupportsAll))
  ∧ ∃ h, (h < 7)%nat
         ∧ trace (stateAfter crossTalk) !! h
           = Some (EvCall (ByWorker 1) (CallAttempt (IPv4 5 6 7 8))).
Proof.
  assert (run None crossTalk (start t0 twoPeers) = Some (stateAfter crossTalk))
    as Hrun by (vm_compute; reflexivity).
  assert (trace (stateAfter crossTalk) !! 7%nat
          = Some (EvCall (ByListener 1)
                    (CallGood (IPv4 5 6 7 8) SFNodeNetwork
                       SubnetworkIDSupportsAll)))
    as Hi by (vm_compute; reflexivity).
  split_and!; [exact Hrun|exact Hi|].
  destruct (attempt_precedes_good None crossTalk t0 twoPeers
              (stateAfter crossTalk) 7 _ _ _ _ Hrun Hi)
    as (w & x & h & j & k & Hw & _ & _ & Hhj & Hjk & Hki & Hh & _).
  injection Hw as <-. exists h. split; [lia|exact Hh].
Defined.

Lemma idle_sleep_polls_shutdown_witness :
  idleSleep (Some (t0 + 2 * Second + 1)) t0 = (t0 + 3 * Second, true).
Proof.
  apply (idle_sleep_polls_shutdown (Some (t0 + 2 * Second + 1)) t0).
  - lia.
  - vm_compute. reflexivity.
  - intros j Hj. assert (j = 1 ∨ j = 2) as [-> | ->] by lia;
      vm_compute; reflexivity.
Defined.


Lemma main_injects_one_seed_witness :
  loadConfig (env (Ok (config "1.2.3.4"))) = Ok (config "1.2.3.4")
  ∧ NewManager (env (Ok (config "1.2.3.4"))) = Ok ∅
  ∧ Atoi (env (Ok (config "1.2.3.4")))
      (DefaultPort (env (Ok (config "1.2.3.4")))) = Ok 16111
  ∧ Seeder (config "1.2.3.4") ≠ ""
  ∧ main (env (Ok (config "1.2.3.4")))
    = Running seeded 16111 []
        [CallAddAddresses [mkNetAddress (IPv4 1 2 3 4) 16111 SFNodeNetwork]]
  ∧ (size seeded ≤ 1)%nat.
Proof.
  assert (main (env (Ok (config "1.2.3.4")))
          = Running seeded 16111 []
              [CallAddAddresses
                 [mkNetAddress (IPv4 1 2 3 4) 16111 SFNodeNetwork]])
    as Hmain by (vm_compute; reflexivity).
  split_and!; [reflexivity|reflexivity|vm_compute; reflexivity|discriminate
              |exact Hmain|].
  destruct (main_injects_one_seed (env (Ok (config "1.2.3.4")))
              (config "1.2.3.4") ∅ 16111 seeded 16111 [] _
              eq_refl eq_refl eq_refl ltac:(discriminate) Hmain)
    as (_ & _ & _ & _ & Hsize & _).
  exact Hsize.
Defined.

Lemma newpeer_failure_leaves_store_witness :
  run None spawnBoth (start t0 twoPeers) = Some (stateAfter spawnBoth)
  ∧ exec None (LNewPeer 0 false) (stateAfter spawnBoth)
    = Some (stateAfter (spawnBoth ++ [LNewPeer 0 false]))
  ∧ Creep.amgr (stateAfter (spawnBoth ++ [LNewPeer 0 false]))
    = Creep.amgr (stateAfter spawnBoth).
Proof.
  assert (run None spawnBoth (start t0 twoPeers) = Some (stateAfter spawnBoth))
    as Hrun by (vm_compute; reflexivity).
  assert (exec None (LNewPeer 0 false) (stateAfter spawnBoth)
          = Some (stateAfter (spawnBoth ++ [LNewPeer 0 false])))
    as Hex by (vm_compute; reflexivity).
  split_and!; [exact Hrun|exact Hex|].
  destruct (newpeer_failure_leaves_store None spawnBoth t0 twoPeers _ 0 _
              Hrun Hex) as (x & _ & _ & Hamgr & _).
  exact Hamgr.
Defined.

Lemma addr_timeout_keeps_good_witness :
  run None connectBoth (start t0 twoPeers) = Some (stateAfter connectBoth)
  ∧ exec None versionOfB (stateAfter connectBoth)
    = Some (stateAfter (connectBoth ++ [versionOfB]))
  ∧ run None ownSignal (stateAfter (connectBoth ++ [versionOfB]))
    = Some (stateAfter (connectBoth ++ [versionOfB] ++ ownSignal))
  ∧ exec None (LAddrTimeout 1)
      (stateAfter (connectBoth ++ [versionOfB] ++ ownSignal))
    = Some (stateAfter (connectBoth ++ [versionOfB] ++ ownSignal
                        ++ [LAddrTimeout 1]))
  ∧ Creep.amgr (stateAfter (connectBoth ++ [versionOfB] ++ ownSignal
                            ++ [LAddrTimeout 1]))
    = Creep.amgr (stateAfter (connectBoth ++ [versionOfB] ++ ownSignal)).
Proof.
  assert (run None connectBoth (start t0 twoPeers)
          = Some (stateAfter connectBoth)) as H0 by (vm_compute; reflexivity).
  assert (exec None versionOfB (stateAfter connectBoth)
          = Some (stateAfter (connectBoth ++ [versionOfB])))
    as H1 by (vm_compute; reflexivity).
  assert (run None ownSignal (stateAfter (connectBoth ++ [versionOfB]))
          = Some (stateAfter (connectBoth ++ [versionOfB] ++ ownSignal)))
    as H2 by (vm_compute; reflexivity).
  assert (exec None (LAddrTimeout 1)
            (stateAfter (connectBoth ++ [versionOfB] ++ ownSignal))
          = Some (stateAfter (connectBoth ++ [versionOfB] ++ ownSignal
                              ++ [LAddrTimeout 1])))
    as H3 by (vm_compute; reflexivity).
  split_and!; [exact H0|exact H1|exact H2|exact H3|].
  destruct (addr_timeout_keeps_good None connectBoth t0 twoPeers _ 1
              SFNodeNetwork SubnetworkIDSupportsAll _ ownSignal _ _
              H0 H1 H2 H3) as (x & e & _ & _ & _ & _ & _ & _ & Hamgr & _).
  exact Hamgr.
Defined.

Lemma empty_servicesUnset : servicesUnset ∅.
Proof. intros ip e H. by rewrite lookup_empty in H. Qed.

Lemma services_zero_until_good_witness :
  NewManager (env (Ok (config "1.2.3.4"))) = Ok ∅
  ∧ servicesUnset ∅
  ∧ main (env (Ok (config "1.2.3.4")))
    = Running seeded 16111 []
        [CallAddAddresses [mkNetAddress (IPv4 1 2 3 4) 16111 SFNodeNetwork]]
  ∧ 0 < t0
  ∧ run None crawlSeed (start t0 seeded) = Some (seedStateAfter crawlSeed)
  ∧ servicesUnset seeded
  ∧ servicesUnset (Creep.amgr (seedStateAfter crawlSeed)).
Proof.
  assert (main (env (Ok (config "1.2.3.4")))
          = Running seeded 16111 []
              [CallAddAddresses
                 [mkNetAddress (IPv4 1 2 3 4) 16111 SFNodeNetwork]])
    as Hmain by (vm_compute; reflexivity).
  assert (0 < t0) as Ht by (vm_compute; reflexivity).
  assert (run None crawlSeed (start t0 seeded)
          = Some (seedStateAfter crawlSeed)) as Hrun
    by (vm_compute; reflexivity).
  destruct (services_zero_until_good (env (Ok (config "1.2.3.4"))) ∅ seeded
              16111 [] _ None t0 crawlSeed _ eq_refl empty_servicesUnset
              Hmain Ht Hrun) as (Hs1 & Hs2 & _).
  split_and!; [reflexivity|exact empty_servicesUnset|exact Hmain|exact Ht
              |exact Hrun|exact Hs1|exact Hs2].
Defined.

Lemma reported_not_returned_witness :
  0 < t0 ∧ t0 ≤ t0 + Second ∧ t0 + Second - t0 < retryInterval
  ∧ mkNetAddress (IPv4 1 2 3 4) 16111 0 ∈ Addresses t0 twoPeers
  ∧ IPv4 1 2 3 4
    ∉ IP <$> Addresses (t0 + Second)
               (applyTimed [(t0, CallAttempt (IPv4 1 2 3 4))] twoPeers).
Proof.
  assert (0 < t0) as H0 by (vm_compute; reflexivity).
  assert (t0 ≤ t0 + Second) as H1 by (vm_compute; discriminate).
  assert (t0 + Second - t0 < retryInterval) as H2 by (vm_compute; reflexivity).
  assert (mkNetAddress (IPv4 1 2 3 4) 16111 0 ∈ Addresses t0 twoPeers) as H3.
  { rewrite twoPeers_Addresses. apply list_elem_of_here. }
  split_and!; [exact H0|exact H1|exact H2|exact H3|].
  apply (reported_not_returned twoPeers t0 (t0 + Second)
           [(t0, CallAttempt (IPv4 1 2 3 4))]
           (mkNetAddress (IPv4 1 2 3 4) 16111 0) H0 H1 H2 H3).
  - intros tc Htc. apply list_elem_of_singleton in Htc as ->. simpl.
    split; [lia|exact H1].
  - exists (t0, CallAttempt (IPv4 1 2 3 4)).
    split; [apply list_elem_of_here|]. vm_compute. reflexivity.
Defined.

End Examples.

(** ** The main loop and the shutdown flag *)

Module LoopFacts.
Import Manager ManagerFacts Creep CreepFacts CreepMore Scenario.

















End LoopFacts.

(** ** The workers of a batch *)

Module BatchFacts.
Import Manager ManagerFacts Creep CreepFacts CreepMore Scenario.

Lemma exec_addrs sd l st st' :
  exec sd l st = Some st' →
  addr <$> workers st' = addr <$> workers st
  ∨ ∃ a rest, l = LSpawn ∧ loop st = Spawning (a :: rest)
              ∧ loop st' = Spawning rest
              ∧ addr <$> workers st' = (addr <$> workers st) ++ [a].
Proof.
  intros H.
  destruct (exec_workers _ _ _ _ H) as (ws & new & Hws & H2 & Hnew).
  assert (addr <$> ws = addr <$> workers st) as Hsame.
  { clear Hws. induction H2 as [|x y l1 l2 Hxy _ IH]; [done|].
    rewrite !fmap_cons, IH. f_equal. by eapply wtrans_addr. }
  destruct Hnew as [->|(a & rest & -> & -> & Hl)].
  - left. by rewrite Hws, app_nil_r.
  - right. exists a, rest. split_and!; [done..| |].
    + simpl in H. rewrite Hl in H.
      destruct (shutdownSet sd (now st)); simplify_eq; [|done].
      simpl in Hws. apply (f_equal length) in Hws.
      rewrite length_app in Hws. simpl in Hws.
      apply Forall2_length in H2. lia.
    + by rewrite Hws, fmap_app, Hsame.
Qed.

Lemma exec_batchOf sd l st st' before peers :
  exec sd l st = Some st' → (∀ seeds, l ≠ LIter seeds) →
  batchOf before peers st → batchOf before peers st'.
Proof.
  intros H Hni (spawned & pend & Hw & Hp & Hl & Ht).
  destruct (exec_addrs _ _ _ _ H) as [Hsame|(a & rest & -> & Hls & Hls' & Hadd)].
  - exists spawned, pend. split_and!; [congruence|done| |].
    + intros p Hp'.
      destruct (exec_loop _ _ _ _ H) as
        [(Hlsame & _)|[(seeds & -> & _)
         |[(-> & a & rest & Hl1 & [[Hl2 _]|[Hl2 Hws]])|(-> & Hr & _)]]].
      * apply Hl. congruence.
      * by destruct (Hni seeds).
      * congruence.
      * rewrite Hws, fmap_app in Hsame. apply (f_equal length) in Hsame.
        rewrite length_app in Hsame. simpl in Hsame. lia.
      * destruct Hr; congruence.
    + intros Htop.
      destruct (exec_loop _ _ _ _ H) as
        [(Hlsame & _)|[(seeds & -> & _)
         |[(-> & a & rest & Hl1 & [[Hl2 _]|[Hl2 Hws]])|(-> & Hr & _)]]].
      * apply Ht. congruence.
      * by destruct (Hni seeds).
      * congruence.
      * congruence.
      * simpl in H. case_match; [|done].
        destruct (loop st) as [|[|]| |] eqn:E; simplify_eq; simpl in *;
          first [by apply Hl|done].
  - exists (spawned ++ [a]), rest.
    rewrite (Hl _ Hls) in Hp.
    split_and!.
    + by rewrite Hadd, Hw, app_assoc.
    + by rewrite <-app_assoc.
    + intros p Hp'. congruence.
    + intros Htop. congruence.
Qed.

(** X10.  Let a pass of the main loop find the candidates [peers] and go on
    to spawn.  Until the next pass, the workers started since then crawl a
    prefix of [peers], one worker per candidate and in the order of
    [peers], the candidates not yet served being exactly those still
    pending; and when the loop is back at its top, every candidate has got
    its worker.  [peers] is what [Addresses] returned in that pass. *)
Theorem each_candidate_one_worker sd st seeds st1 peers sched st2 :
  exec sd (LIter seeds) st = Some st1 → loop st1 = Spawning peers →
  run sd sched st1 = Some st2 → (∀ l, l ∈ sched → ∀ seeds', l ≠ LIter seeds') →
  peers = Addresses (now st) (amgr st1)
  ∧ ∃ pend,
      (addr <$> drop (length (workers st)) (workers st2)) ++ pend = peers
      ∧ (∀ p, loop st2 = Spawning p → pend = p)
      ∧ (loop st2 = Top → pend = []).
Proof.
  intros H1 Hl1 Hrun Hni.
  assert (loop st = Top ∧ st1 = iterate sd seeds st) as [Htop ->].
  { simpl in H1. destruct (loop st); by simplify_eq. }
  split; [by apply (iterate_now sd seeds st)|].
  assert (batchOf (addr <$> workers st) peers (iterate sd seeds st)) as Hb.
  { exists [], peers. rewrite iterate_workers, app_nil_r.
    split_and!; [done|done|congruence|congruence]. }
  assert (batchOf (addr <$> workers st) peers st2)
    as (spawned & pend & Hw & Hp & Hl & Ht).
  { clear H1 Hl1. revert Hrun Hni Hb. generalize (iterate sd seeds st).
    induction sched as [|l sched IH]; intros s Hrun Hni Hb;
      simpl in Hrun; simplify_option_eq; [done|].
    eapply IH; [done| |].
    - intros l' Hl'. apply Hni. by apply list_elem_of_further.
    - eapply exec_batchOf; [done| |done]. apply Hni, list_elem_of_here. }
  exists pend. split_and!; [|done..].
  rewrite <-Hp. f_equal. rewrite fmap_drop, Hw.
  rewrite <-(length_fmap addr). by rewrite drop_app_length.
Qed.

(** X8.  No two workers that are running at the same time crawl the same
    IP: the workers of a batch are spawned for the addresses of one
    [Addresses] result, which holds each IP of the manager once, and the
    batch is joined before the next is spawned. *)
Theorem running_workers_distinct_ips sd sched t m st w1 w2 x1 x2 :
  run sd sched (start t m) = Some st →
  workers st !! w1 = Some x1 → workers st !! w2 = Some x2 →
  pc x1 ≠ Done → pc x2 ≠ Done → w1 ≠ w2 →
  IP (addr x1) ≠ IP (addr x2).
Proof.
  intros Hrun H1 H2 Hd1 Hd2 Hne Hip.
  destruct (run_distinct _ _ _ _ _ Hrun) as [Hd _].
  apply Hne. eapply Hd; [done..| | |done].
  - unfold isDone. by destruct (pc x1).
  - unfold isDone. by destruct (pc x2).
Qed.

Lemma exec_keeps_keys sd l st st' ip :
  exec sd l st = Some st' → is_Some (amgr st !! ip) → is_Some (amgr st' !! ip).
Proof.
  intros H [e He]. rewrite (exec_store _ _ _ _ H).
  destruct l; simpl; try by eexists.
  - exists e. by apply candidates_keeps.
  - case_match; [|by eexists]. rewrite Attempt_lookup.
    case_decide; [subst; by rewrite He|by eexists].
  - case_match; [|by eexists]. rewrite Good_lookup.
    case_decide; by eexists.
  - exists e. by apply AddAddresses_keeps.
Qed.

Lemma exec_known sd l st st' : exec sd l st = Some st' → known st → known st'.
Proof.
  intros H [Hk1 Hk2]. split.
  - intros w x' Hx'. eapply exec_keeps_keys; [done|].
    destruct (exec_inv _ _ _ _ H) as (evs & _ & Hws).
    destruct (Hws w x' Hx') as [Hsame|[(_ & _ & _ & a & rest & -> & Hl)|
      (x & Hx & Hstep)]].
    + by eapply Hk1.
    + eapply Hk2; [done|]. apply list_elem_of_here.
    + rewrite (wstep_addr _ _ _ _ _ _ Hstep). by eapply Hk1.
  - intros pend a Hl Ha.
    destruct (exec_loop _ _ _ _ H) as
      [(Hsame & _)|[(seeds & -> & Htop & ->)
       |[(-> & a' & rest & Hl' & Hcase)|(_ & Hr & _)]]].
    + eapply exec_keeps_keys; [done|]. eapply Hk2; [|done]. congruence.
    + destruct (iterate_now sd seeds st) as [_ Hp].
      destruct (Hp _ Hl) as [_ ->].
      apply elem_of_Addresses in Ha as (e & -> & _). by eexists.
    + eapply exec_keeps_keys; [done|].
      destruct Hcase as [[? _]|[Hl'' _]]; [congruence|].
      eapply Hk2; [done|]. apply list_elem_of_further. congruence.
    + destruct Hr; congruence.
Qed.

Lemma run_known sd sched t m st : run sd sched (start t m) = Some st → known st.
Proof.
  intros H. eapply (run_ind sd known); [apply exec_known|done|].
  split; simpl; [done|]. by intros.
Qed.

(** X9.  Every [Attempt] and every [Good] that [creep] issues is for an IP
    the manager holds an entry for, the address having come from
    [Addresses]: neither call adds an entry.  The set of IPs in the manager
    changes only through the [AddAddresses] calls of the bootstrap callback
    and of [OnAddr]. *)
Theorem calls_only_for_known_ips sd sched t m st l st' :
  run sd sched (start t m) = Some st → exec sd l st = Some st' →
  (∀ w, l = LAttempt w ∨ (∃ srv sid, l = LVersion w srv sid) →
        ∃ x, workers st !! w = Some x ∧ is_Some (amgr st !! IP (addr x)))
  ∧ ((∀ seeds, l ≠ LIter seeds) → (∀ w addrs, l ≠ LAddr w addrs) →
     dom (amgr st') = dom (amgr st)).
Proof.
  intros Hrun H. destruct (run_known _ _ _ _ _ Hrun) as [Hk _]. split.
  - intros w [->|(srv & sid & ->)].
    + destruct (exec_LAttempt _ _ _ _ H) as (x & Hx & _). eauto.
    + destruct (exec_LVersion _ _ _ _ _ _ H) as (x & Hx & _). eauto.
  - intros Hni Hna. rewrite (exec_store _ _ _ _ H).
    destruct l; simpl; try done.
    + by destruct (Hni seeds).
    + destruct (workers st !! w) as [x|] eqn:Hx; [|done].
      destruct (Hk _ _ Hx) as [e He]. unfold Attempt. rewrite He.
      apply dom_insert_lookup_L. by eexists.
    + destruct (workers st !! w) as [x|] eqn:Hx; [|done].
      destruct (Hk _ _ Hx) as [e He]. unfold Good. rewrite He.
      apply dom_insert_lookup_L. by eexists.
    + by destruct (Hna w addrs).
Qed.

End BatchFacts.

(** ** Connections and calls of a worker *)

Module WorkerFacts.
Import Manager ManagerFacts Creep CreepFacts CreepMore Scenario.

Lemma exec_effects sd l st st' evs e :
  exec sd l st = Some st' → trace st' = trace st ++ evs → e ∈ evs →
  eventEffect st' e.
Proof.
  intros H Htr He.
  assert ((∃ seeds, l = LIter seeds) ∨ (∀ seeds, l ≠ LIter seeds))
    as [[seeds ->]|Hni] by (destruct l; eauto).
  - destruct (iterate_trace_logs sd seeds st) as (evs' & Htr' & Hlogs).
    simpl in H. destruct (loop st); simplify_eq.
    rewrite Htr' in Htr. apply app_inv_head in Htr. subst evs.
    apply elem_of_app in He as [He|He].
    + apply candidates_events in He as [->|[addrs ->]]; done.
    + by destruct (Hlogs _ He) as [line ->].
  - revert Htr He. exec_cases H; simpl; intros Htr He;
      try (exfalso; by eapply Hni).
    all: try (rewrite <-(app_nil_r (trace st)) in Htr at 1;
              apply app_inv_head in Htr; subst; by apply elem_of_nil in He).
    all: rewrite <-?app_assoc in Htr; apply app_inv_head in Htr; subst;
         simpl in He; set_unfold in He;
         repeat (destruct He as [He|He]); subst; simpl; try done.
    all: eexists; (split;
           [apply list_lookup_insert_eq;
            rewrite ?length_insert; by eapply lookup_lt_Some|]);
         simpl; first [done | apply orb_true_r].
Qed.

Lemma wstep_connected w t x l evs x' :
  wstep w t x l evs x' → peer x ≠ NoConn → peer x' ≠ NoConn.
Proof. destruct 1; simpl; intros; congruence. Qed.

Lemma exec_linked sd l st st' :
  exec sd l st = Some st' → wf st → ordered st → linked st → linked st'.
Proof.
  intros H Hwf [_ Hs] [Hl1 Hl2].
  destruct (exec_inv _ _ _ _ H) as (evs & Htr & Hws).
  assert (∀ e, e ∈ evs → eventEffect st' e) as Heff
    by (intros e He; by eapply exec_effects).
  split.
  - intros w x' Hx'. rewrite Htr.
    assert (EvAssociate w ∈ evs → peer x' ≠ NoConn) as Ha.
    { intros Hin. destruct (Heff _ Hin) as (x0 & Hx0 & ?). congruence. }
    assert (EvDisconnect w ∈ evs → disconnected x' = true) as Hd.
    { intros Hin. destruct (Heff _ Hin) as (x0 & Hx0 & ?). congruence. }
    destruct (Hws w x' Hx') as [Hsame|[(Hnone & -> & -> & a & rest & -> & _)|
      (x & Hx & Hstep)]].
    + destruct (Hl1 _ _ Hsame) as (H1 & H2 & H3). split_and!; [|split|done].
      * intros [?|?]%elem_of_app; auto.
      * intros [?|?]%elem_of_app; [by apply H2|auto].
      * intros ?. apply elem_of_app. left. by apply H2.
    + rewrite app_nil_r. destruct (Hs _ Hnone) as (_ & Hna & _).
      split_and!; [done|split; [|done]|done].
      intros ?. by destruct (Hl2 _ Hnone).
    + destruct (Hl1 _ _ Hx) as (H1 & H2 & H3).
      pose proof (wf_lookup _ _ _ Hwf Hx) as Hw. unfold wfWorker in Hw.
      split_and!; [|split|].
      * intros [?|?]%elem_of_app; [|auto].
        eapply wstep_connected; [done|auto].
      * intros [?|?]%elem_of_app; [|auto].
        assert (disconnected x = true) as Hdx by by apply H2.
        destruct Hstep; simpl; rewrite ?Hdx; done.
      * intros Hdx'. apply elem_of_app.
        destruct (disconnected x) eqn:Hdx; [left; by apply H2|].
        right. clear -Hstep Hdx Hdx'.
        destruct Hstep; simpl in *; rewrite ?Hdx in Hdx'; simpl in Hdx';
          first [congruence | in_list].
      * intros Hdx'.
        destruct (disconnected x) eqn:Hdx;
          [eapply wstep_connected; [done|auto]|].
        clear -Hstep Hdx Hdx' Hw.
        destruct Hstep; simpl in *; rewrite ?Hdx in Hdx'; simpl in Hdx';
          try congruence.
        all: match goal with
             | Hpc : pc _ = _ |- _ => rewrite Hpc in Hw
             end; by destruct Hw.
  - intros w Hnone. rewrite Htr.
    assert (workers st !! w = None) as Hnone'.
    { destruct (workers st !! w) as [x|] eqn:E; [|done].
      destruct (exec_workers _ _ _ _ H) as (ws & new & Hws' & H2 & _).
      apply Forall2_length in H2. apply lookup_lt_Some in E.
      apply lookup_ge_None in Hnone. rewrite Hws', length_app in Hnone. lia. }
    intros [?|Hin]%elem_of_app; [by destruct (Hl2 _ Hnone')|].
    destruct (Heff _ Hin) as (x0 & Hx0 & _). congruence.
Qed.

Lemma run_linked sd sched t m st : run sd sched (start t m) = Some st → linked st.
Proof.
  intros H.
  cut (wf st ∧ ordered st ∧ linked st); [tauto|].
  eapply (run_ind sd (λ st, wf st ∧ ordered st ∧ linked st)); [|done|].
  - intros l s s' Hs (Hw & Ho & Hl). split_and!;
      [by eapply exec_wf|by eapply exec_ordered|by eapply exec_linked].
  - split_and!; [apply start_wf|apply start_ordered|].
    split; simpl; [done|]. intros w _. apply not_elem_of_nil.
Qed.

(** X2.  A worker calls [p.Disconnect()] only as it returns, and it
    returns with its peer disconnected exactly when it had associated a
    connection: in every state [creep] reaches, a worker's peer is marked
    disconnected iff the disconnection is in the trace, only a returned
    worker is disconnected, and for a returned worker the disconnection is in
    the trace iff the association is. *)
Theorem returned_worker_disconnected sd sched t m st w x :
  run sd sched (start t m) = Some st → workers st !! w = Some x →
  (EvDisconnect w ∈ trace st ↔ disconnected x = true)
  ∧ (disconnected x = true → pc x = Done)
  ∧ (pc x = Done → (EvAssociate w ∈ trace st ↔ EvDisconnect w ∈ trace st)).
Proof.
  intros Hrun Hx.
  destruct (run_linked _ _ _ _ _ Hrun) as [Hl _].
  destruct (Hl _ _ Hx) as (H1 & H2 & H3).
  pose proof (wf_lookup _ _ _ (run_wf _ _ _ _ _ Hrun) Hx) as Hw.
  destruct (run_ordered _ _ _ _ _ Hrun) as [Ho _].
  pose proof (ow_assoc _ _ _ (Ho _ _ Hx)) as Ha.
  unfold wfWorker in Hw. split_and!; [done| |].
  - intros Hd. destruct (pc x); try done; destruct Hw; congruence.
  - intros Hpc. rewrite Hpc in Hw. split.
    + intros Hin. apply H2. destruct Hw as [Hn|?]; [|done].
      by destruct (H1 Hin).
    + intros Hin. apply Ha, H3. by apply H2.
Qed.

Lemma run_snoc_run sd s1 l s2 st st0 st1 st2 :
  run sd s1 st = Some st0 → exec sd l st0 = Some st1 →
  run sd s2 st1 = Some st2 → run sd (s1 ++ l :: s2) st = Some st2.
Proof.
  intros H0 H1 H2. rewrite run_app, H0.
  change (exec sd l st0 ≫= run sd s2 = Some st2). by rewrite H1.
Qed.

Lemma exec_LDial_false sd w st st' :
  exec sd (LDial w false) st = Some st' →
  ∃ x, workers st !! w = Some x ∧ pc x = AtDial
       ∧ st' = mkState (now st) (amgr st) (loop st)
                 (<[w := finish false x]> (workers st))
                 (trace st ++ [EvDial w false; EvLog (LogDialErr w)]).
Proof.
  simpl. intros H. simplify_option_eq. repeat case_match; simplify_eq.
  eexists. by split_and!.
Qed.

Lemma wstep_rank w t x l evs x' : wstep w t x l evs x' → (rank x ≤ rank x')%nat.
Proof.
  unfold rank. destruct 1; simpl;
    repeat match goal with H : pc _ = _ |- _ => rewrite H end;
    try lia; destruct (pc x); lia.
Qed.

Lemma exec_rank sd l st st' w x :
  exec sd l st = Some st' → workers st !! w = Some x →
  ∃ x', workers st' !! w = Some x' ∧ (rank x ≤ rank x')%nat.
Proof.
  intros H Hx.
  destruct (exec_workers _ _ _ _ H) as (ws & new & Hws & H2 & _).
  destruct (Forall2_lookup_l _ _ _ _ _ H2 Hx) as (x' & Hx' & _).
  assert (workers st' !! w = Some x') as Hx''
    by (rewrite Hws; by apply lookup_app_l_Some).
  exists x'. split; [done|].
  destruct (exec_inv _ _ _ _ H) as (evs & _ & Hinv).
  destruct (Hinv w x' Hx'') as [?|[(? & _)|(x0 & Hx0 & Hstep)]];
    [by simplify_eq|congruence|].
  assert (x0 = x) as -> by congruence. by eapply wstep_rank.
Qed.

Lemma run_rank sd sched st st' w x :
  run sd sched st = Some st' → workers st !! w = Some x →
  ∃ x', workers st' !! w = Some x' ∧ (rank x ≤ rank x')%nat.
Proof.
  revert st x. induction sched as [|l sched IH]; intros st x H Hx;
    simpl in H; simplify_option_eq; [by eauto|].
  destruct (exec_rank _ _ _ _ _ _ Heqo Hx) as (x1 & Hx1 & Hr1).
  destruct (IH _ _ H Hx1) as (x2 & Hx2 & Hr2).
  exists x2. split; [done|lia].
Qed.

Lemma exec_dialling sd l st st' w a e :
  exec sd l st = Some st' → wf st → distinct st → dialling w a e st →
  (∀ x', workers st' !! w = Some x' → pc x' = AtDial) →
  dialling w a e st'.
Proof.
  intros H Hwf [Hd1 _] (He & x & Hx & Ha & Hpc) Hend.
  pose proof (wf_lookup _ _ _ Hwf Hx) as Hw.
  destruct (exec_rank _ _ _ _ _ _ H Hx) as (x' & Hx' & _).
  pose proof (Hend _ Hx') as Hpc'.
  split.
  - destruct (exec_store_frame _ _ _ _ _ _ H Hwf He)
      as [?|(w2 & x2 & Hx2 & Hr2 & Hip & Hl)]; [done|].
    assert (w2 = w) as ->.
    { eapply Hd1; [done..| |congruence]. unfold isDone. by rewrite Hpc. }
    assert (x2 = x) as -> by congruence.
    destruct Hl as [->|(srv & sid & ->)].
    + destruct (exec_LAttempt _ _ _ _ H) as (x0 & Hx0 & Hpc0 & _).
      congruence.
    + destruct (exec_LVersion _ _ _ _ _ _ H) as (x0 & Hx0 & Hp & _).
      assert (x0 = x) as -> by congruence.
      unfold wfWorker in Hw. rewrite Hpc in Hw. destruct Hw. congruence.
  - exists x'. split_and!; [done| |done].
    destruct (exec_workers _ _ _ _ H) as (ws & new & Hws & H2 & _).
    destruct (Forall2_lookup_l _ _ _ _ _ H2 Hx) as (x2 & Hx2 & Hrtc).
    assert (x2 = x') as ->.
    { rewrite Hws in Hx'. apply lookup_app_Some in Hx' as [?|[Hlen _]];
        [congruence|]. apply lookup_lt_Some in Hx2. lia. }
    rewrite <-Ha. by eapply wtrans_addr.
Qed.

Lemma run_dialling sd sched st st' w a e :
  run sd sched st = Some st' → wf st → distinct st → dialling w a e st →
  (∀ x', workers st' !! w = Some x' → pc x' = AtDial) →
  dialling w a e st'.
Proof.
  revert st. induction sched as [|l sched IH]; intros st H Hwf Hd Ht Hend;
    simpl in H; simplify_option_eq; [done|].
  eapply IH; [done|by eapply exec_wf|by eapply exec_distinct| |done].
  eapply exec_dialling; [done..|].
  intros x1 Hx1.
  destruct Ht as (_ & x & Hx & _ & Hpc).
  destruct (exec_rank _ _ _ _ _ _ Heqo Hx) as (x1' & Hx1' & Hr1).
  assert (x1' = x1) as -> by congruence.
  destruct (run_rank _ _ _ _ _ _ H Hx1) as (x2 & Hx2 & Hr2).
  pose proof (Hend _ Hx2) as Hpc2.
  unfold rank in *. rewrite Hpc in Hr1. rewrite Hpc2 in Hr2.
  destruct (pc x1); simpl in *; try lia. done.
Qed.

(** X5.  Let worker [w] call [Attempt] and let its dial fail later,
    whatever [creep] does in between.  The failing step logs the error and
    makes the worker return with no connection; it leaves the manager as it
    is.  The entry of the worker's address is then the one it was before the
    [Attempt] but for [lastAttempt], which is the instant of the [Attempt]:
    a failed dial neither marks the address good nor takes an earlier
    success away.  In any continuation the [Attempt] is the only call this
    worker has made, and no listener of its peer ever calls the manager.
    The clock being past the zero instant at the [Attempt], [Addresses] does
    not return the address for the next 60 seconds while the entry stays. *)
Theorem dial_failure_keeps_attempt sd sched1 t m st0 w st1 sched2 st2 st3 :
  run sd sched1 (start t m) = Some st0 →
  exec sd (LAttempt w) st0 = Some st1 →
  run sd sched2 st1 = Some st2 →
  exec sd (LDial w false) st2 = Some st3 →
  ∃ x e0,
    workers st0 !! w = Some x ∧ amgr st0 !! IP (addr x) = Some e0
    ∧ amgr st3 = amgr st2
    ∧ amgr st3 !! IP (addr x)
      = Some (mkEntry (port e0) (services e0) (subnetworkID e0)
                (firstSeen e0) (now st0) (lastSuccess e0))
    ∧ trace st3 = trace st2 ++ [EvDial w false; EvLog (LogDialErr w)]
    ∧ workers st3 !! w = Some (mkWorker (addr x) Done NoConn false)
    ∧ (∀ sched' st', run sd sched' st3 = Some st' →
         ∀ c, (EvCall (ByWorker w) c ∈ trace st'
               ↔ c = CallAttempt (IP (addr x)))
              ∧ (EvCall (ByListener w) c ∉ trace st'))
    ∧ (0 < now st0 → ∀ t' a, t' - now st0 < retryInterval →
         IP a = IP (addr x) → a ∉ Addresses t' (amgr st3)).
Proof.
  intros Hrun0 Hat Hrun2 Hdial.
  destruct (exec_LAttempt _ _ _ _ Hat) as (x & Hx & Hpc & Hst1).
  destruct (exec_LDial_false _ _ _ _ Hdial) as (x2 & Hx2 & Hpc2 & ->).
  pose proof (run_wf _ _ _ _ _ Hrun0) as Hwf0.
  pose proof (run_distinct _ _ _ _ _ Hrun0) as Hdis0.
  pose proof (exec_wf _ _ _ _ Hat Hwf0) as Hwf1.
  pose proof (exec_distinct _ _ _ _ Hat Hwf0 Hdis0) as Hdis1.
  destruct (BatchFacts.run_known _ _ _ _ _ Hrun0) as [Hk _].
  destruct (Hk _ _ Hx) as [e0 He0].
  set (e := mkEntry (port e0) (services e0) (subnetworkID e0)
              (firstSeen e0) (now st0) (lastSuccess e0)).
  assert (dialling w (addr x) e st1) as Ht1.
  { split.
    - rewrite Hst1. simpl. rewrite Attempt_lookup, decide_True, He0 by done.
      done.
    - rewrite Hst1. simpl. exists (setPC AtDial x). split_and!; [|done..].
      by apply list_lookup_insert_eq, lookup_lt_Some with x. }
  assert (dialling w (addr x) e st2) as (He2 & x2' & Hx2' & Ha2 & _).
  { eapply run_dialling; [done..|]. intros x' Hx'. congruence. }
  assert (x2' = x2) as -> by congruence.
  assert (run sd (sched1 ++ LAttempt w :: sched2) (start t m) = Some st2)
    as Hrun02.
  { apply run_snoc_run with st0 st1; done. }
  pose proof (run_wf _ _ _ _ _ Hrun02) as Hwf2.
  pose proof (wf_lookup _ _ _ Hwf2 Hx2) as Hw2. unfold wfWorker in Hw2.
  rewrite Hpc2 in Hw2. destruct Hw2 as [Hp2 Hd2].
  destruct (run_ordered _ _ _ _ _ Hrun02) as [Ho2 _].
  pose proof (Ho2 _ _ Hx2) as Hox.
  destruct (run_linked _ _ _ _ _ Hrun02) as [Hl2 _].
  destruct (Hl2 _ _ Hx2) as (Hassoc & _ & _).
  exists x, e0. simpl. split_and!; try done.
  - rewrite list_lookup_insert_eq by by eapply lookup_lt_Some.
    unfold finish. by rewrite Hp2, Hd2, Ha2.
  - intros sched' st' Hrun'.
    assert (retired w (finish false x2) [attemptOf w x2] st')
      as (_ & _ & _ & Hc).
    { eapply (run_ind sd (retired w (finish false x2) [attemptOf w x2]));
        [intros ???; apply exec_retired|done|].
      split_and!; simpl; try done.
      - by apply list_lookup_insert_eq, lookup_lt_Some with x2.
      - intros who c Hwho. rewrite elem_of_app.
        split.
        + intros [Hin|Hin].
          * destruct Hwho as [-> | ->].
            -- rewrite (ow_attempt_ip _ _ _ Hox _ Hin). apply list_elem_of_here.
            -- apply list_elem_of_lookup in Hin as [i Hi].
               destruct (ow_before_listener _ _ _ Hox _ _ Hi) as (k & _ & Hak).
               apply list_elem_of_lookup_2 in Hak. by destruct (Hassoc Hak).
          * set_unfold in Hin. destruct Hin as [?|[?|[]]]; done.
        + intros ->%list_elem_of_singleton. left.
          by apply (ow_attempt _ _ _ Hox). }
    intros c. split; [split|].
    + intros Hin. apply Hc in Hin; [|by left].
      apply list_elem_of_singleton in Hin. unfold attemptOf in Hin.
      injection Hin as ->. by rewrite Ha2.
    + intros ->. apply Hc; [by left|]. unfold attemptOf. rewrite Ha2.
      apply list_elem_of_here.
    + intros Hin. apply Hc in Hin; [|by right].
      by apply list_elem_of_singleton in Hin.
  - intros Hpos t' a Ht' Hip Hin.
    apply elem_of_Addresses in Hin as (e' & He' & Hel & _).
    rewrite Hip, He2 in He'. injection He' as <-.
    unfold eligible in Hel. simpl in Hel.
    apply orb_true_iff in Hel as [Hz|Hle].
    + apply Z.eqb_eq in Hz. lia.
    + apply Z.leb_le in Hle. lia.
Qed.

Lemma callsBy_app w l1 l2 : callsBy w (l1 ++ l2) = (callsBy w l1 + callsBy w l2)%nat.
Proof. unfold callsBy. by rewrite filter_app, length_app. Qed.

Lemma callsBy_none w evs :
  (∀ e, e ∈ evs → isCallBy w e = false) → callsBy w evs = 0%nat.
Proof.
  unfold callsBy. induction evs as [|e evs IH]; intros H; [done|].
  rewrite filter_cons_False
    by (rewrite (H e (list_elem_of_here _ _)); discriminate).
  apply IH. intros e' He'. apply H. by apply list_elem_of_further.
Qed.

Lemma callsBy_elem w tr e :
  e ∈ tr → isCallBy w e = true → (1 ≤ callsBy w tr)%nat.
Proof.
  unfold callsBy. intros Hin He.
  assert (e ∈ filter (λ e, isCallBy w e = true) tr) as Hf
    by by apply list_elem_of_filter.
  destruct (filter _ tr); [by apply elem_of_nil in Hf|simpl; lia].
Qed.

Lemma isCallBy_true w e :
  isCallBy w e = true → ∃ c, e = EvCall (ByWorker w) c.
Proof.
  destruct e as [|[|w'|] c| | | | | | |]; simpl; try done.
  intros ->%bool_decide_eq_true. by eexists.
Qed.

Lemma exec_lookup_None sd l st st' w :
  exec sd l st = Some st' → workers st' !! w = None → workers st !! w = None.
Proof.
  intros H Hnone. destruct (workers st !! w) as [x|] eqn:E; [|done].
  destruct (exec_workers _ _ _ _ H) as (ws & new & Hws' & H2 & _).
  apply Forall2_length in H2. apply lookup_lt_Some in E.
  apply lookup_ge_None in Hnone. rewrite Hws', length_app in Hnone. lia.
Qed.

Lemma exec_countedOnce sd l st st' :
  exec sd l st = Some st' → wf st → countedOnce st → countedOnce st'.
Proof.
  intros H Hwf Hc w. destruct (Hc w) as (Hle & Hnone & Hearly).
  destruct (exec_inv _ _ _ _ H) as (evs & Htr & Hws).
  rewrite Htr, callsBy_app.
  assert (l = LAttempt w ∨ l ≠ LAttempt w) as [->|Hne].
  { destruct l; try (by right). match goal with
    | n : nat |- _ = LAttempt _ ∨ _ =>
        destruct (decide (n = w)) as [->|?]; [by left|right; congruence]
    end. }
  - destruct (exec_LAttempt _ _ _ _ H) as (x & Hx & Hpc & Hst').
    assert (callsBy w (trace st) = 0%nat) as -> by (eapply Hearly; [done|by right]).
    assert (evs = [EvCall (ByWorker w) (CallAttempt (IP (addr x)))]) as ->.
    { rewrite Hst' in Htr. simpl in Htr. by apply app_inv_head in Htr. }
    assert (workers st' !! w = Some (setPC AtDial x)) as Hx'.
    { rewrite Hst'. simpl.
      by apply list_lookup_insert_eq, lookup_lt_Some with x. }
    unfold callsBy. simpl. rewrite filter_cons. simpl.
    rewrite bool_decide_true by done. rewrite decide_True by done. simpl.
    split_and!; [lia|congruence|].
    intros x' Hx'' [Hp|Hp]; simplify_eq; simpl in Hp; done.
  - assert (callsBy w evs = 0%nat) as ->.
    { apply callsBy_none. intros e He.
      destruct (isCallBy w e) eqn:E; [|done].
      destruct (isCallBy_true _ _ E) as [c ->].
      pose proof (exec_event_label _ _ _ _ _ _ H Htr He) as Hl. simpl in Hl.
      congruence. }
    rewrite Nat.add_0_r. split_and!; [done| |].
    + intros Hn. apply Hnone. by eapply exec_lookup_None.
    + intros x' Hx' He'.
      destruct (Hws w x' Hx') as [Hsame|[(Hn & _)|(x & Hx & Hstep)]].
      * by eapply Hearly.
      * by apply Hnone.
      * eapply Hearly; [done|].
        eapply wstep_early_back; [done| |done]. by eapply wf_lookup.
Qed.

Lemma run_countedOnce sd sched t m st :
  run sd sched (start t m) = Some st → countedOnce st.
Proof.
  intros H.
  cut (wf st ∧ countedOnce st); [tauto|].
  eapply (run_ind sd (λ st, wf st ∧ countedOnce st)); [|done|].
  - intros l s s' Hs (Hw & Hc). split;
      [by eapply exec_wf|by eapply exec_countedOnce].
  - split; [apply start_wf|]. intros w. simpl. unfold callsBy. simpl.
    split_and!; [lia|done|done].
Qed.

(** X6.  A worker goroutine calls the manager at most once, and that call
    is the [Attempt] for its own address: in every state [creep] reaches the
    trace holds at most one call by worker [w], each such call is
    [Attempt(addr.IP)] for the address the worker was spawned for, and there
    is exactly one once the worker has dialled, successfully or not. *)
Theorem worker_attempts_once sd sched t m st w :
  run sd sched (start t m) = Some st →
  (callsBy w (trace st) ≤ 1)%nat
  ∧ (∀ c, EvCall (ByWorker w) c ∈ trace st →
          ∃ x, workers st !! w = Some x ∧ c = CallAttempt (IP (addr x)))
  ∧ (∀ ok, EvDial w ok ∈ trace st → callsBy w (trace st) = 1%nat).
Proof.
  intros Hrun. destruct (run_countedOnce _ _ _ _ _ Hrun w) as (Hle & _ & _).
  destruct (run_ordered _ _ _ _ _ Hrun) as [Ho Hs].
  split_and!; [done| |].
  - intros c Hin. destruct (workers st !! w) as [x|] eqn:Hx.
    + exists x. split; [done|]. by eapply (ow_attempt_ip _ _ _ (Ho _ _ Hx)).
    + destruct (Hs _ Hx) as (_ & _ & _ & Hn). by destruct (Hn _ Hin).
  - intros ok Hin. destruct (workers st !! w) as [x|] eqn:Hx.
    + apply list_elem_of_lookup in Hin as [i Hi].
      destruct (ow_before_dial _ _ _ (Ho _ _ Hx) _ _ Hi) as (j & _ & Hj).
      apply list_elem_of_lookup_2 in Hj.
      pose proof (callsBy_elem w _ _ Hj) as Hge. simpl in Hge.
      rewrite bool_decide_true in Hge by done. specialize (Hge eq_refl). lia.
    + destruct (Hs _ Hx) as (Hn & _). by destruct (Hn _ Hin).
Qed.

End WorkerFacts.

(** ** Start-up: the panic *)

Module StartFacts.
Import Main MainFacts.

(** X7.  [main] indexes the result of [net.LookupHost] without a check of
    its length (line 182): start-up ends in a run-time panic exactly when
    the three initialisation steps succeed, [--seeder] is set and is no IP,
    and the lookup returns an empty list with no error; nothing has been
    logged and no call has been made on the manager by then. *)
Theorem main_panics_iff_empty_lookup (env : Env) :
  ((∃ log, main env = Panic log) ↔
     ∃ cfg m p, loadConfig env = Ok cfg ∧ NewManager env = Ok m
       ∧ Atoi env (DefaultPort env) = Ok p ∧ Seeder cfg ≠ ""
       ∧ ParseIP env (Seeder cfg) = None
       ∧ LookupHost env (Seeder cfg) = Ok [])
  ∧ (∀ log, main env = Panic log → log = []).
Proof.
  unfold main.
  destruct (loadConfig env) as [cfg|e1].
  2:{ split; [split|done]; [by intros [? ?]|].
      by intros (? & ? & ? & ? & _). }
  destruct (NewManager env) as [m|e2].
  2:{ split; [split|done]; [by intros [? ?]|].
      by intros (? & ? & ? & _ & ? & _). }
  destruct (Atoi env (DefaultPort env)) as [p|e3].
  2:{ split; [split|done]; [by intros [? ?]|].
      by intros (? & ? & ? & _ & _ & ? & _). }
  destruct (Seeder cfg) as [|c rest] eqn:Hs; simpl.
  { split; [split|done]; [by intros [? ?]|].
    intros (cfg' & ? & ? & [= <-] & _ & _ & Hne & _). by rewrite Hs in Hne. }
  rewrite <-Hs. unfold seederIP.
  destruct (ParseIP env (Seeder cfg)) as [ip|] eqn:Hip.
  { split; [split|done]; [by intros [? ?]|].
    intros (cfg' & ? & ? & [= <-] & _ & _ & _ & Hn & _). congruence. }
  destruct (LookupHost env (Seeder cfg)) as [[|first more]|e] eqn:Hl.
  - split; [split|by intros ? [= <-]]; [|by eexists].
    intros _. exists cfg, m, p. split_and!; try done. by rewrite Hs.
  - destruct (ParseIP env first);
      (split; [split|done]; [by intros [? ?]|]);
      intros (cfg' & ? & ? & [= <-] & _ & _ & _ & _ & Hl'); congruence.
  - split; [split|done]; [by intros [? ?]|].
    intros (cfg' & ? & ? & [= <-] & _ & _ & _ & _ & Hl'). congruence.
Qed.

(** X14.  A start-up that gets as far as spawning the crawler has passed
    the three initialisation steps, with the port that [Atoi] returned.  It
    has made at most one call on the manager or logged at most one line,
    never both: a line is logged only for a seeder that does not resolve,
    and then nothing is injected.  With no call the manager is the one
    [NewManager] returned, and with no [--seeder] flag neither the parser
    nor the resolver is asked: nothing is logged and nothing is called. *)
Theorem main_running_once (env : Env) amgr p log calls :
  main env = Running amgr p log calls →
  ∃ cfg m0,
    loadConfig env = Ok cfg ∧ NewManager env = Ok m0
    ∧ Atoi env (DefaultPort env) = Ok p
    ∧ (length log + length calls ≤ 1)%nat
    ∧ amgr = runCalls (now env) calls m0
    ∧ (calls = [] → amgr = m0)
    ∧ (Seeder cfg = "" → log = [] ∧ calls = []).
Proof.
  unfold main.
  destruct (loadConfig env) as [cfg|e1]; [|done].
  destruct (NewManager env) as [m|e2]; [|done].
  destruct (Atoi env (DefaultPort env)) as [p0|e3]; [|done].
  destruct (Seeder cfg) as [|c rest] eqn:Hs; simpl.
  { intros [= <- <- <- <-]. exists cfg, m. split_and!; first [done|simpl; lia]. }
  rewrite <-Hs. unfold seederIP.
  intros H. exists cfg, m.
  assert (Seeder cfg = "" → log = [] ∧ calls = []) as Hno
    by (rewrite Hs; done).
  destruct (ParseIP env (Seeder cfg)) as [ip|].
  { injection H as <- <- <- <-. split_and!; first [done|simpl; lia]. }
  destruct (LookupHost env (Seeder cfg)) as [[|first more]|e]; [done| |].
  - destruct (ParseIP env first); injection H as <- <- <- <-;
      split_and!; first [done|simpl; lia].
  - injection H as <- <- <- <-. split_and!; first [done|simpl; lia].
Qed.

End StartFacts.

(** ** The two channels *)

Module ChannelFacts.
Import Manager ManagerFacts Creep CreepFacts CreepMore.

Lemma exec_signals sd l st st' evs e :
  exec sd l st = Some st' → trace st' = trace st ++ evs → e ∈ evs →
  signalSource st e.
Proof.
  intros H Htr He.
  assert ((∃ seeds, l = LIter seeds) ∨ (∀ seeds, l ≠ LIter seeds))
    as [[seeds ->]|Hni] by (destruct l; eauto).
  - destruct (iterate_trace_logs sd seeds st) as (evs' & Htr' & Hlogs).
    simpl in H. destruct (loop st); simplify_eq.
    rewrite Htr' in Htr. apply app_inv_head in Htr. subst evs.
    apply elem_of_app in He as [He|He].
    + apply candidates_events in He as [->|[addrs ->]]; done.
    + by destruct (Hlogs _ He) as [line ->].
  - revert Htr He. exec_cases H; simpl; intros Htr He;
      try (exfalso; by eapply Hni).
    all: try (rewrite <-(app_nil_r (trace st)) in Htr at 1;
              apply app_inv_head in Htr; subst; by apply elem_of_nil in He).
    all: rewrite <-?app_assoc in Htr; apply app_inv_head in Htr; subst;
         simpl in He; set_unfold in He;
         repeat (destruct He as [He|He]); subst; simpl; try done.
    all: split; eauto.
Qed.

Lemma exec_sending sd l st st' :
  exec sd l st = Some st' → sending st → sending st'.
Proof.
  intros H (Hs1 & Hs2 & Hs3).
  destruct (exec_inv _ _ _ _ H) as (evs & Htr & Hws).
  assert (∀ e, e ∈ evs → signalSource st e) as Hsrc
    by (intros e He; by eapply exec_signals).
  split_and!.
  - intros w x' Hx'. rewrite Htr.
    destruct (Hws w x' Hx') as [Hsame|[(Hnone & -> & -> & a & rest & -> & _)|
      (x & Hx & Hstep)]].
    + destruct (Hs1 _ _ Hsame) as [H1 H2]. split; intros Hp.
      * destruct (H1 Hp) as (srv & sid & ?). exists srv, sid.
        apply elem_of_app. by left.
      * destruct (H2 Hp) as (addrs & ?). exists addrs.
        apply elem_of_app. by left.
    + split; simpl; congruence.
    + destruct (Hs1 _ _ Hx) as [H1 H2].
      pose proof (wstep_addr _ _ _ _ _ _ Hstep) as Ha. rewrite Ha.
      clear -Hstep H1 H2. split; intros Hp.
      * destruct Hstep; simpl in Hp; try congruence;
          try (destruct (H1 Hp) as (srv' & sid' & ?); exists srv', sid';
               apply elem_of_app; by left).
        exists srv, sid. apply elem_of_app. right. in_list.
      * destruct Hstep; simpl in Hp; try congruence;
          try (destruct (H2 Hp) as (addrs' & ?); exists addrs';
               apply elem_of_app; by left).
        exists addrs. apply elem_of_app. right. in_list.
  - intros i s r Hi. rewrite Htr in Hi |- *.
    apply lookup_app_Some in Hi as [Hi|[Hlen Hi]].
    + destruct (Hs2 _ _ _ Hi) as (j & ip & srv & sid & Hj & Hlook).
      exists j, ip, srv, sid. split; [done|]. by apply lookup_app_l_Some.
    + apply list_elem_of_lookup_2 in Hi.
      destruct (Hsrc _ Hi) as [(x & Hx & Hp) _].
      destruct (Hs1 _ _ Hx) as [H1 _].
      destruct (H1 Hp) as (srv & sid & [j Hj]%list_elem_of_lookup).
      exists j, (IP (addr x)), srv, sid.
      split; [|by apply lookup_app_l_Some].
      apply lookup_lt_Some in Hj. lia.
  - intros i s r Hi. rewrite Htr in Hi |- *.
    apply lookup_app_Some in Hi as [Hi|[Hlen Hi]].
    + destruct (Hs3 _ _ _ Hi) as (j & addrs & Hj & Hlook).
      exists j, addrs. split; [done|]. by apply lookup_app_l_Some.
    + apply list_elem_of_lookup_2 in Hi.
      destruct (Hsrc _ Hi) as [(x & Hx & Hp) _].
      destruct (Hs1 _ _ Hx) as [_ H2].
      destruct (H2 Hp) as (addrs & [j Hj]%list_elem_of_lookup).
      exists j, addrs. split; [|by apply lookup_app_l_Some].
      apply lookup_lt_Some in Hj. lia.
Qed.

Lemma run_sending sd sched t m st :
  run sd sched (start t m) = Some st → sending st.
Proof.
  intros H. eapply (run_ind sd sending); [apply exec_sending|done|].
  split_and!; simpl; [done|intros ??? Hi..]; by rewrite lookup_nil in Hi.
Qed.

(** X11.  A worker leaves a [select] by a receive only after a listener
    has made its call on the manager: every receive on [onVersion] in the
    trace comes after a [Good] call by the listener of the sending peer, for
    the address that peer's worker crawls, and every receive on [onAddr]
    after an [AddAddresses] call by the listener of the sending peer.  The
    receiver may be any worker: nothing ties it to the sender. *)
Theorem receive_follows_listener_call sd sched t m st i s r :
  run sd sched (start t m) = Some st →
  (trace st !! i = Some (EvSignalVersion s r) →
   ∃ j x srv sid, (j < i)%nat ∧ workers st !! s = Some x
     ∧ trace st !! j
       = Some (EvCall (ByListener s) (CallGood (IP (addr x)) srv sid)))
  ∧ (trace st !! i = Some (EvSignalAddr s r) →
     ∃ j addrs, (j < i)%nat
       ∧ trace st !! j
         = Some (EvCall (ByListener s) (CallAddAddresses addrs))).
Proof.
  intros Hrun. destruct (run_sending _ _ _ _ _ Hrun) as (_ & Hs2 & Hs3).
  destruct (run_ordered _ _ _ _ _ Hrun) as [Ho Hs].
  split; intros Hi.
  - destruct (Hs2 _ _ _ Hi) as (j & ip & srv & sid & Hj & Hlook).
    pose proof (list_elem_of_lookup_2 _ _ _ Hlook) as Hin.
    destruct (workers st !! s) as [x|] eqn:Hx.
    + exists j, x, srv, sid. split_and!; [done..|].
      by rewrite <-(ow_good_ip _ _ _ (Ho _ _ Hx) _ _ _ Hin).
    + destruct (Hs _ Hx) as (_ & _ & Hn & _). by destruct (Hn _ Hin).
  - by apply (Hs3 _ _ _ Hi).
Qed.

End ChannelFacts.

(** ** The time a connected worker takes *)

Module TimingFacts.
Import Manager ManagerFacts Creep CreepFacts CreepMore WorkerFacts.






End TimingFacts.

(** ** Every batch is joined *)

Module ProgressFacts.
Import Manager ManagerFacts Creep CreepFacts CreepMore.

Lemma run_trans sd s1 s2 st st1 st2 :
  run sd s1 st = Some st1 → run sd s2 st1 = Some st2 →
  run sd (s1 ++ s2) st = Some st2.
Proof. intros H1 H2. rewrite run_app, H1. exact H2. Qed.

Lemma rank_le x : (rank x ≤ 6)%nat.
Proof. unfold rank. destruct (pc x); lia. Qed.

Lemma rank_Done x : rank x = 6%nat ↔ pc x = Done.
Proof. unfold rank. destruct (pc x); split; (done || lia). Qed.

Lemma todo_insert ws w x x' :
  ws !! w = Some x → (rank x < rank x')%nat →
  (todo (<[w:=x']> ws) < todo ws)%nat.
Proof.
  unfold todo. revert w. induction ws as [|y ws IH]; intros w Hw Hr; [done|].
  destruct w as [|w]; simpl in *.
  - simplify_eq. pose proof (rank_le x'). lia.
  - specialize (IH w Hw Hr). unfold fmap in IH. lia.
Qed.

Lemma allDone_forallb st : allDone st → forallb isDone (workers st) = true.
Proof.
  intros Hd. apply forallb_forall. intros x Hin.
  apply list_elem_of_In, list_elem_of_lookup in Hin as [w Hw].
  unfold isDone. by rewrite (Hd _ _ Hw).
Qed.

(** A worker that is not waiting takes its next step. *)
Lemma advance sd np dial st w x :
  workers st !! w = Some x → (rank x < 4)%nat →
  ∃ l st', exec sd l st = Some st' ∧ quiet np dial l = true
    ∧ loop st' = loop st
    ∧ (todo (workers st') < todo (workers st))%nat.
Proof.
  intros Hx Hr. unfold rank in Hr. destruct (pc x) eqn:Hpc; try lia.
  - exists (LNewPeer w (np w)). cbn [exec execWorker]. rewrite Hx. simpl.
    rewrite Hpc. destruct (np w) eqn:Hnp; eexists;
      (split_and!; [done|by apply bool_decide_eq_true|done|]);
      simpl; apply (todo_insert _ _ x); [done| |done|];
      unfold rank; simpl; rewrite Hpc; lia.
  - exists (LAttempt w). cbn [exec execWorker]. rewrite Hx. simpl.
    rewrite Hpc. eexists. split_and!; [done..|].
    simpl. apply (todo_insert _ _ x); [done|].
    unfold rank; simpl; rewrite Hpc; lia.
  - exists (LDial w (dial w)). cbn [exec execWorker]. rewrite Hx. simpl.
    rewrite Hpc. destruct (dial w) eqn:Hnp; eexists;
      (split_and!; [done|by apply bool_decide_eq_true|done|]);
      simpl; apply (todo_insert _ _ x); [done| |done|];
      unfold rank; simpl; rewrite Hpc; lia.
  - exists (LAssociate w). cbn [exec execWorker]. rewrite Hx. simpl.
    rewrite Hpc. eexists. split_and!; [done..|].
    simpl. apply (todo_insert _ _ x); [done|].
    unfold rank; simpl; rewrite Hpc; lia.
Qed.

(** A worker whose deadline has come returns by the time-out. *)
Lemma expire_now sd np dial st w x d :
  workers st !! w = Some x → deadline x = Some d → d ≤ now st →
  ∃ l st', exec sd l st = Some st' ∧ quiet np dial l = true
    ∧ loop st' = loop st
    ∧ (todo (workers st') < todo (workers st))%nat.
Proof.
  intros Hx Hd Hle. unfold deadline in Hd.
  destruct (pc x) eqn:Hpc; simplify_eq.
  - exists (LVersionTimeout w). cbn [exec execWorker]. rewrite Hx. simpl.
    rewrite Hpc. rewrite (proj2 (Z.leb_le _ _) Hle).
    eexists. split_and!; [done..|].
    simpl. apply (todo_insert _ _ x); [done|].
    unfold rank; simpl; rewrite Hpc; lia.
  - exists (LAddrTimeout w). cbn [exec execWorker]. rewrite Hx. simpl.
    rewrite Hpc. rewrite (proj2 (Z.leb_le _ _) Hle).
    eexists. split_and!; [done..|].
    simpl. apply (todo_insert _ _ x); [done|].
    unfold rank; simpl; rewrite Hpc; lia.
Qed.

(** The worker with the earliest deadline: time passes up to its deadline,
    and it returns by the time-out. *)
Lemma expire sd np dial st w x d :
  workers st !! w = Some x → deadline x = Some d →
  (∀ w' x' d', workers st !! w' = Some x' → deadline x' = Some d' → d ≤ d') →
  ∃ sched st', run sd sched st = Some st'
    ∧ Forall (λ l, quiet np dial l = true) sched
    ∧ loop st' = loop st
    ∧ (todo (workers st') < todo (workers st))%nat.
Proof.
  intros Hx Hd Hmin. destruct (decide (d ≤ now st)) as [Hle|Hgt].
  - destruct (expire_now sd np dial _ _ _ _ Hx Hd Hle)
      as (l & st' & He & Hq & Hl & Ht).
    exists [l], st'. split_and!; [|by repeat constructor|done..].
    simpl. by rewrite He.
  - set (st1 := mkState (now st + (d - now st)) (amgr st) (loop st)
                  (workers st) (trace st)).
    assert (exec sd (LTick (d - now st)) st = Some st1) as Htick.
    { cbn [exec].
      assert (forallb (withinDeadline (now st + (d - now st))) (workers st)
              = true) as ->.
      { apply forallb_forall. intros x' Hin.
        apply list_elem_of_In, list_elem_of_lookup in Hin as [w' Hw'].
        specialize (Hmin w' x'). unfold deadline in Hmin.
        unfold withinDeadline.
        destruct (pc x'); try done; apply Z.leb_le;
          specialize (Hmin _ Hw' eq_refl); lia. }
      by rewrite (proj2 (Z.leb_le 0 (d - now st))) by lia. }
    destruct (expire_now sd np dial st1 w x d)
      as (l & st' & He & Hq & Hl & Ht); [done|done|simpl; lia|].
    exists [LTick (d - now st); l], st'.
    split_and!; [|by repeat constructor|done..].
    change (exec sd (LTick (d - now st)) st ≫= run sd [l] = Some st').
    rewrite Htick. simpl. by rewrite He.
Qed.

Lemma min_deadline (ws : list Worker) :
  (∃ w x d, ws !! w = Some x ∧ deadline x = Some d) →
  ∃ w x d, ws !! w = Some x ∧ deadline x = Some d
    ∧ ∀ w' x' d', ws !! w' = Some x' → deadline x' = Some d' → d ≤ d'.
Proof.
  induction ws as [|y ws IH]; intros (w & x & d & Hw & Hd); [done|].
  destruct (decide (Exists (λ z, is_Some (deadline z)) ws)) as [He|Hn].
  - destruct IH as (w1 & x1 & d1 & Hw1 & Hd1 & Hmin).
    { apply Exists_exists in He as (z & Hin & [dz Hz]).
      apply list_elem_of_lookup in Hin as [k Hk]. by exists k, z, dz. }
    destruct (deadline y) as [dy|] eqn:Hy.
    + destruct (decide (dy ≤ d1)) as [Hle|Hgt].
      * exists 0%nat, y, dy. split_and!; [done..|].
        intros [|k] x' d' Hk Hd'; simpl in Hk; simplify_eq; [lia|].
        specialize (Hmin _ _ _ Hk Hd'). lia.
      * exists (S w1), x1, d1. split_and!; [done..|].
        intros [|k] x' d' Hk Hd'; simpl in Hk; simplify_eq; [lia|].
        by eapply Hmin.
    + exists (S w1), x1, d1. split_and!; [done..|].
      intros [|k] x' d' Hk Hd'; simpl in Hk; simplify_eq.
      by eapply Hmin.
  - destruct w as [|k]; simpl in Hw.
    + simplify_eq. exists 0%nat, x, d. split_and!; [done..|].
      intros [|k] x' d' Hk Hd'; simpl in Hk; simplify_eq; [lia|].
      destruct Hn. apply Exists_exists. exists x'.
      split; [by eapply list_elem_of_lookup_2|by eexists].
    + destruct Hn. apply Exists_exists. exists x.
      split; [by eapply list_elem_of_lookup_2|by eexists].
Qed.

(** The workers started so far all return, the main loop standing by. *)
Lemma drain sd np dial n : ∀ st,
  (todo (workers st) < n)%nat →
  ∃ sched st', run sd sched st = Some st'
    ∧ Forall (λ l, quiet np dial l = true) sched
    ∧ loop st' = loop st ∧ allDone st'.
Proof.
  induction n as [|n IH]; intros st Hn; [lia|].
  destruct (decide (Forall (λ x, rank x = 6%nat) (workers st))) as [Hall|Hnot].
  { exists [], st. split_and!; [done..|].
    intros w x Hx. apply rank_Done.
    rewrite Forall_forall in Hall. apply Hall.
    by eapply list_elem_of_lookup_2. }
  assert (∃ sched st1, run sd sched st = Some st1
            ∧ Forall (λ l, quiet np dial l = true) sched
            ∧ loop st1 = loop st
            ∧ (todo (workers st1) < todo (workers st))%nat)
    as (s1 & st1 & Hr1 & Hq1 & Hl1 & Ht1).
  { destruct (decide (Exists (λ x, (rank x < 4)%nat) (workers st)))
      as [He|Hne].
    - apply Exists_exists in He as (x & Hin & Hr).
      apply list_elem_of_lookup in Hin as [w Hw].
      destruct (advance sd np dial _ _ _ Hw Hr)
        as (l & st' & He & Hq & Hl & Ht).
      exists [l], st'. split_and!; [|by repeat constructor|done..].
      simpl. by rewrite He.
    - apply (not_Forall_Exists _) in Hnot.
      apply Exists_exists in Hnot as (x & Hin & Hr).
      pose proof Hin as Hin'.
      apply list_elem_of_lookup in Hin as [w Hw].
      assert (is_Some (deadline x)) as [d Hd].
      { assert (¬ (rank x < 4)%nat) as Hr4.
        { intros ?. apply Hne. apply Exists_exists. by exists x. }
        unfold deadline. cbv beta delta [compose] in Hr.
        unfold rank in Hr, Hr4.
        destruct (pc x) as [| | | |d0|d0|];
          [exfalso; lia..|by exists d0|by exists d0|exfalso; lia]. }
      destruct (min_deadline (workers st)) as (w1 & x1 & d1 & Hw1 & Hd1 & Hmin);
        [by exists w, x, d|].
      exact (expire sd np dial st w1 x1 d1 Hw1 Hd1 Hmin). }
  destruct (IH st1) as (s2 & st2 & Hr2 & Hq2 & Hl2 & Hd2); [lia|].
  exists (s1 ++ s2), st2. split_and!.
  - by eapply run_trans.
  - by apply Forall_app.
  - congruence.
  - done.
Qed.

(** The candidates still pending get their workers, which return, unless
    the shutdown flag is seen first. *)
Lemma spawn_rest sd np dial pend : ∀ st,
  loop st = Spawning pend → allDone st →
  ∃ sched st', run sd sched st = Some st'
    ∧ Forall (λ l, quiet np dial l = true) sched
    ∧ allDone st'
    ∧ (loop st' = Spawning [] ∨ loop st' = WaitingShutdown).
Proof.
  induction pend as [|a rest IH]; intros st Hl Hd.
  { exists [], st. split_and!; [done..|by left]. }
  destruct (shutdownSet sd (now st)) eqn:Hsd.
  - eexists [LSpawn], _. split_and!.
    + cbn [run exec]. rewrite Hl, Hsd. done.
    + by repeat constructor.
    + done.
    + by right.
  - set (st1 := mkState (now st) (amgr st) (Spawning rest)
                  (workers st ++ [mkWorker a AtNewPeer NoConn false])
                  (trace st)).
    assert (exec sd LSpawn st = Some st1) as Hs
      by (cbn [exec]; by rewrite Hl, Hsd).
    destruct (drain sd np dial (S (todo (workers st1))) st1)
      as (s2 & st2 & Hr2 & Hq2 & Hl2 & Hd2); [lia|].
    destruct (IH st2) as (s3 & st3 & Hr3 & Hq3 & Hd3 & Hl3); [done..|].
    exists (LSpawn :: s2 ++ s3), st3. split_and!; [|
      constructor; [done|by apply Forall_app]|done..].
    change (exec sd LSpawn st ≫= run sd (s2 ++ s3) = Some st3).
    rewrite Hs. by eapply run_trans.
Qed.

(** X13.  [wgCreep.Wait()] always returns.  From any state of [creep],
    whatever has happened so far, there is a way on in which every worker
    started so far and every one still to be spawned in this batch returns
    and the main loop comes back to its top (or [creep] returns, the
    shutdown flag being set); it needs no message of any remote node, and it
    exists for every way [NewOutboundPeer] and the dials may end: a worker
    that is connected returns by the time-outs of its two [select]s. *)
Theorem batch_always_joins sd (np dial : nat → bool) st :
  ∃ sched st', run sd sched st = Some st'
    ∧ Forall (λ l, quiet np dial l = true) sched
    ∧ resting (loop st') ∧ allDone st'.
Proof.
  destruct (drain sd np dial (S (todo (workers st))) st)
    as (s1 & st1 & Hr1 & Hq1 & Hl1 & Hd1); [lia|].
  assert (∀ s st2, run sd s st1 = Some st2 →
            Forall (λ l, quiet np dial l = true) s → allDone st2 →
            loop st2 = Spawning [] ∨ loop st2 = WaitingShutdown →
            ∃ sched st', run sd sched st = Some st'
              ∧ Forall (λ l, quiet np dial l = true) sched
              ∧ resting (loop st') ∧ allDone st') as Hjoin.
  { intros s st2 Hr2 Hq2 Hd2 Hl2.
    assert (∃ st3, exec sd LJoin st2 = Some st3 ∧ resting (loop st3)
                   ∧ workers st3 = workers st2) as (st3 & He & Hrest & Hw).
    { cbn [exec]. rewrite (allDone_forallb _ Hd2).
      destruct Hl2 as [-> | ->]; eexists; (split_and!; [done| |done]);
        [by left|by right]. }
    exists (s1 ++ s ++ [LJoin]), st3. split_and!; [| |done|].
    - eapply run_trans; [done|]. eapply run_trans; [done|].
      cbn [run]. by rewrite He.
    - apply Forall_app. split; [done|]. apply Forall_app. split; [done|].
      by repeat constructor.
    - intros w x Hx. rewrite Hw in Hx. by eapply Hd2. }
  destruct (loop st1) as [|pend| |] eqn:Hl.
  - exists s1, st1. split_and!; [done..| |done]. left. congruence.
  - destruct (spawn_rest sd np dial pend st1 Hl Hd1)
      as (s2 & st2 & Hr2 & Hq2 & Hd2 & Hl2).
    by eapply Hjoin.
  - apply (Hjoin [] st1); [done|done|done|by right].
  - exists s1, st1. split_and!; [done..| |done]. right. congruence.
Qed.

End ProgressFacts.

(** ** The further theorems at concrete inputs *)

Module MoreExamples.
Import Manager ManagerFacts Creep CreepFacts CreepMore Scenario Shutdown.
Import Main MainFacts.




Lemma each_candidate_one_worker_witness :
  exec None (LIter []) (start t0 twoPeers) = Some (stateAfter [LIter []])
  ∧ loop (stateAfter [LIter []]) = Spawning (Addresses t0 twoPeers)
  ∧ run None [LSpawn; LSpawn] (stateAfter [LIter []])
    = Some (stateAfter spawnBoth)
  ∧ ∃ pend,
      (addr <$> drop (length (workers (start t0 twoPeers)))
                  (workers (stateAfter spawnBoth))) ++ pend
      = Addresses t0 twoPeers
      ∧ (∀ p, loop (stateAfter spawnBoth) = Spawning p → pend = p)
      ∧ (loop (stateAfter spawnBoth) = Top → pend = []).
Proof.
  assert (exec None (LIter []) (start t0 twoPeers)
          = Some (stateAfter [LIter []])) as H1 by (vm_compute; reflexivity).
  assert (loop (stateAfter [LIter []]) = Spawning (Addresses t0 twoPeers))
    as H2 by (vm_compute; reflexivity).
  assert (run None [LSpawn; LSpawn] (stateAfter [LIter []])
          = Some (stateAfter spawnBoth)) as H3 by (vm_compute; reflexivity).
  split_and!; [exact H1|exact H2|exact H3|].
  apply (BatchFacts.each_candidate_one_worker None (start t0 twoPeers) []
           (stateAfter [LIter []]) (Addresses t0 twoPeers) [LSpawn; LSpawn]
           (stateAfter spawnBoth) H1 H2 H3).
  intros l Hl seeds' ->.
  repeat (apply elem_of_cons in Hl as [Hl|Hl]; [discriminate Hl|]).
  by apply elem_of_nil in Hl.
Defined.

Lemma running_workers_distinct_ips_witness :
  run None connectBoth (start t0 twoPeers) = Some (stateAfter connectBoth)
  ∧ workers (stateAfter connectBoth) !! 0%nat
    = Some (workerOf (stateAfter connectBoth) 0)
  ∧ workers (stateAfter connectBoth) !! 1%nat
    = Some (workerOf (stateAfter connectBoth) 1)
  ∧ pc (workerOf (stateAfter connectBoth) 0) ≠ Done
  ∧ pc (workerOf (stateAfter connectBoth) 1) ≠ Done
  ∧ IP (addr (workerOf (stateAfter connectBoth) 0))
    ≠ IP (addr (workerOf (stateAfter connectBoth) 1)).
Proof.
  assert (run None connectBoth (start t0 twoPeers)
          = Some (stateAfter connectBoth)) as Hrun by (vm_compute; reflexivity).
  assert (workers (stateAfter connectBoth) !! 0%nat
          = Some (workerOf (stateAfter connectBoth) 0))
    as H0 by (vm_compute; reflexivity).
  assert (workers (stateAfter connectBoth) !! 1%nat
          = Some (workerOf (stateAfter connectBoth) 1))
    as H1 by (vm_compute; reflexivity).
  assert (pc (workerOf (stateAfter connectBoth) 0) ≠ Done)
    as Hp0 by (vm_compute; discriminate).
  assert (pc (workerOf (stateAfter connectBoth) 1) ≠ Done)
    as Hp1 by (vm_compute; discriminate).
  split_and!; [exact Hrun|exact H0|exact H1|exact Hp0|exact Hp1|].
  apply (BatchFacts.running_workers_distinct_ips None connectBoth t0 twoPeers
           _ 0 1 _ _ Hrun H0 H1 Hp0 Hp1).
  lia.
Defined.

Lemma calls_only_for_known_ips_witness :
  run None firstPeer (start t0 twoPeers) = Some (stateAfter firstPeer)
  ∧ exec None (LAttempt 0) (stateAfter firstPeer)
    = Some (stateAfter (firstPeer ++ [LAttempt 0]))
  ∧ dom (Creep.amgr (stateAfter (firstPeer ++ [LAttempt 0])))
    = dom (Creep.amgr (stateAfter firstPeer)).
Proof.
  assert (run None firstPeer (start t0 twoPeers) = Some (stateAfter firstPeer))
    as Hrun by (vm_compute; reflexivity).
  assert (exec None (LAttempt 0) (stateAfter firstPeer)
          = Some (stateAfter (firstPeer ++ [LAttempt 0])))
    as Hex by (vm_compute; reflexivity).
  split_and!; [exact Hrun|exact Hex|].
  apply (BatchFacts.calls_only_for_known_ips None firstPeer t0 twoPeers _ _ _
           Hrun Hex); discriminate.
Defined.

Lemma returned_worker_disconnected_witness :
  run None crossTalk (start t0 twoPeers) = Some (stateAfter crossTalk)
  ∧ workers (stateAfter crossTalk) !! 1%nat
    = Some (workerOf (stateAfter crossTalk) 1)
  ∧ (EvDisconnect 1 ∈ trace (stateAfter crossTalk)
     ↔ disconnected (workerOf (stateAfter crossTalk) 1) = true).
Proof.
  assert (run None crossTalk (start t0 twoPeers) = Some (stateAfter crossTalk))
    as Hrun by (vm_compute; reflexivity).
  assert (workers (stateAfter crossTalk) !! 1%nat
          = Some (workerOf (stateAfter crossTalk) 1))
    as Hw by (vm_compute; reflexivity).
  split_and!; [exact Hrun|exact Hw|].
  exact (proj1 (WorkerFacts.returned_worker_disconnected None crossTalk t0
                  twoPeers _ 1 _ Hrun Hw)).
Defined.

Lemma dial_failure_keeps_attempt_witness :
  run None firstPeer (start t0 twoPeers) = Some (stateAfter firstPeer)
  ∧ exec None (LAttempt 0) (stateAfter firstPeer)
    = Some (stateAfter (firstPeer ++ [LAttempt 0]))
  ∧ run None [LNewPeer 1 true] (stateAfter (firstPeer ++ [LAttempt 0]))
    = Some (stateAfter (firstPeer ++ [LAttempt 0; LNewPeer 1 true]))
  ∧ exec None (LDial 0 false)
      (stateAfter (firstPeer ++ [LAttempt 0; LNewPeer 1 true]))
    = Some (stateAfter (firstPeer
                        ++ [LAttempt 0; LNewPeer 1 true; LDial 0 false]))
  ∧ Creep.amgr (stateAfter (firstPeer
                            ++ [LAttempt 0; LNewPeer 1 true; LDial 0 false]))
    = Creep.amgr (stateAfter (firstPeer ++ [LAttempt 0; LNewPeer 1 true])).
Proof.
  assert (run None firstPeer (start t0 twoPeers) = Some (stateAfter firstPeer))
    as H0 by (vm_compute; reflexivity).
  assert (exec None (LAttempt 0) (stateAfter firstPeer)
          = Some (stateAfter (firstPeer ++ [LAttempt 0])))
    as H1 by (vm_compute; reflexivity).
  assert (run None [LNewPeer 1 true] (stateAfter (firstPeer ++ [LAttempt 0]))
          = Some (stateAfter (firstPeer ++ [LAttempt 0; LNewPeer 1 true])))
    as H2 by (vm_compute; reflexivity).
  assert (exec None (LDial 0 false)
            (stateAfter (firstPeer ++ [LAttempt 0; LNewPeer 1 true]))
          = Some (stateAfter (firstPeer
                    ++ [LAttempt 0; LNewPeer 1 true; LDial 0 false])))
    as H3 by (vm_compute; reflexivity).
  split_and!; [exact H0|exact H1|exact H2|exact H3|].
  destruct (WorkerFacts.dial_failure_keeps_attempt None firstPeer t0 twoPeers
              _ 0 _ [LNewPeer 1 true] _ _ H0 H1 H2 H3)
    as (x & e0 & _ & _ & Hamgr & _).
  exact Hamgr.
Defined.

Lemma worker_attempts_once_witness :
  run None crossTalk (start t0 twoPeers) = Some (stateAfter crossTalk)
  ∧ (callsBy 0 (trace (stateAfter crossTalk)) ≤ 1)%nat.
Proof.
  assert (run None crossTalk (start t0 twoPeers) = Some (stateAfter crossTalk))
    as Hrun by (vm_compute; reflexivity).
  split; [exact Hrun|].
  exact (proj1 (WorkerFacts.worker_attempts_once None crossTalk t0 twoPeers
                  _ 0 Hrun)).
Defined.

Lemma main_panics_iff_empty_lookup_witness :
  ∃ log, main envEmptyLookup = Panic log.
Proof.
  apply (proj1 (StartFacts.main_panics_iff_empty_lookup envEmptyLookup)).
  exists (config "seed.example.org"), ∅, 16111.
  split_and!; [reflexivity|reflexivity|vm_compute; reflexivity|discriminate
              |reflexivity|reflexivity].
Defined.

Lemma main_running_once_witness :
  main (env (Ok (config "1.2.3.4")))
  = Running seeded 16111 []
      [CallAddAddresses [mkNetAddress (IPv4 1 2 3 4) 16111 SFNodeNetwork]]
  ∧ ∃ cfg m0,
      loadConfig (env (Ok (config "1.2.3.4"))) = Ok cfg
      ∧ NewManager (env (Ok (config "1.2.3.4"))) = Ok m0
      ∧ seeded
        = runCalls (Main.now (env (Ok (config "1.2.3.4"))))
            [CallAddAddresses
               [mkNetAddress (IPv4 1 2 3 4) 16111 SFNodeNetwork]] m0.
Proof.
  assert (main (env (Ok (config "1.2.3.4")))
          = Running seeded 16111 []
              [CallAddAddresses
                 [mkNetAddress (IPv4 1 2 3 4) 16111 SFNodeNetwork]])
    as Hmain by (vm_compute; reflexivity).
  split; [exact Hmain|].
  destruct (StartFacts.main_running_once _ _ _ _ _ Hmain)
    as (cfg & m0 & Hc & Hm & _ & _ & Hr & _).
  exists cfg, m0. split_and!; [exact Hc|exact Hm|exact Hr].
Defined.

Lemma receive_follows_listener_call_witness :
  run None crossTalk (start t0 twoPeers) = Some (stateAfter crossTalk)
  ∧ trace (stateAfter crossTalk) !! 9%nat = Some (EvSignalVersion 1 0)
  ∧ ∃ j x srv sid, (j < 9)%nat
      ∧ workers (stateAfter crossTalk) !! 1%nat = Some x
      ∧ trace (stateAfter crossTalk) !! j
        = Some (EvCall (ByListener 1) (CallGood (IP (addr x)) srv sid)).
Proof.
  assert (run None crossTalk (start t0 twoPeers) = Some (stateAfter crossTalk))
    as Hrun by (vm_compute; reflexivity).
  assert (trace (stateAfter crossTalk) !! 9%nat = Some (EvSignalVersion 1 0))
    as Hi by (vm_compute; reflexivity).
  split_and!; [exact Hrun|exact Hi|].
  exact (proj1 (ChannelFacts.receive_follows_listener_call None crossTalk t0
                  twoPeers _ 9 1 0 Hrun) Hi).
Defined.


End MoreExamples.
